(** * Persona-driven document intelligence: segmentation, scoring, ranking
      and refinement.

    A shallow embedding of [pdf_processor.py], [content_analyzer.py],
    [persona_matcher.py] and [document_intelligence.py], of
    [process_input_file] of [main.py] and of the role detection of
    [auto_processor.py].

    Conventions of the embedding.
    - A Python [str] is a list of characters; a character is a code point of
      the range U+0000..U+00FF, classified the way CPython classifies it
      ([str.isspace], [str.isupper], [str.isdigit], [str.lower], the regular
      expression classes [\s] and [\d]).
    - A Python [float] is an element of a type carrying the arithmetic the
      code uses (class [Num]).  Two instances are given: [float_Num], IEEE
      binary64 as CPython computes it, and [R_Num], the same operations
      without rounding.
    - A Python [dict] is an association list in insertion order with
      pairwise distinct keys; a [set] is a duplicate-free list.
    - An exception is a [None] (or a constructor of [outcome] where the kind
      of exception matters). *)

From Stdlib Require Import List String Ascii Bool Arith ZArith Lia.
From Stdlib Require Import Permutation Sorted DecimalString.
From Stdlib Require Import Reals Lra.
From Stdlib Require Import Floats.
From Stdlib Require Uint63.
Import ListNotations.

(* ------------------------------------------------------------------ *)
(** * Python strings *)

Module Text.

Definition str := list ascii.

(** A string literal. *)
Definition lit (s : string) : str := list_ascii_of_string s.

Definition ord (c : ascii) : nat := nat_of_ascii c.

Definition between (lo hi n : nat) : bool := (lo <=? n) && (n <=? hi).

(** [str.isspace] on one character, also the class [\s]. *)
Definition isspace (c : ascii) : bool :=
  let n := ord c in
  between 9 13 n || between 28 32 n || (n =? 133) || (n =? 160).

(** The class [\d]: decimal digits. *)
Definition isdecimal (c : ascii) : bool := between 48 57 (ord c).

(** [str.isdigit] on one character: decimal digits and the superscripts
    U+00B2, U+00B3, U+00B9. *)
Definition isdigit (c : ascii) : bool :=
  let n := ord c in
  between 48 57 n || (n =? 178) || (n =? 179) || (n =? 185).

(** The class [[A-Z]]. *)
Definition is_AZ (c : ascii) : bool := between 65 90 (ord c).

(** The class [[a-z]]. *)
Definition is_az (c : ascii) : bool := between 97 122 (ord c).

(** [str.isupper] on one character. *)
Definition isupper (c : ascii) : bool :=
  let n := ord c in
  between 65 90 n || between 192 214 n || between 216 222 n.

(** [str.lower] on one character. *)
Definition lower_char (c : ascii) : ascii :=
  if isupper c then ascii_of_nat (ord c + 32) else c.

Definition lower (s : str) : str := map lower_char s.

(** Line boundaries of [str.splitlines]. *)
Definition is_linebreak (c : ascii) : bool :=
  let n := ord c in
  between 10 13 n || between 28 30 n || (n =? 133).

Fixpoint lstrip (s : str) : str :=
  match s with
  | [] => []
  | c :: r => if isspace c then lstrip r else s
  end.

Definition rstrip (s : str) : str := rev (lstrip (rev s)).

(** [s.strip()]. *)
Definition strip (s : str) : str := rstrip (lstrip s).

(** [s.split()]: the maximal runs of characters that are not whitespace.
    [cur] is the run being read, reversed. *)
Fixpoint split_aux (cur : str) (s : str) : list str :=
  match s with
  | [] => match cur with [] => [] | _ => [rev cur] end
  | c :: r =>
      if isspace c
      then match cur with
           | [] => split_aux [] r
           | _ => rev cur :: split_aux [] r
           end
      else split_aux (c :: cur) r
  end.

Definition split (s : str) : list str := split_aux [] s.

(** [s.splitlines()]: a carriage return followed by a line feed is one
    boundary; no empty last line after a final boundary. *)
Fixpoint splitlines_aux (cur : str) (s : str) : list str :=
  match s with
  | [] => match cur with [] => [] | _ => [rev cur] end
  | c :: r =>
      if is_linebreak c
      then rev cur ::
           match r with
           | c' :: r' =>
               if (ord c =? 13) && (ord c' =? 10)
               then splitlines_aux [] r'
               else splitlines_aux [] r
           | [] => splitlines_aux [] r
           end
      else splitlines_aux (c :: cur) r
  end.

Definition splitlines (s : str) : list str := splitlines_aux [] s.

(** [sep.join(xs)]. *)
Fixpoint join (sep : str) (xs : list str) : str :=
  match xs with
  | [] => []
  | [x] => x
  | x :: rest => x ++ sep ++ join sep rest
  end.

Definition space : str := [" "%char].

Definition str_eqb (a b : str) : bool :=
  if list_eq_dec ascii_dec a b then true else false.

Fixpoint startswith (p s : str) : bool :=
  match p, s with
  | [], _ => true
  | a :: p', b :: s' => Ascii.eqb a b && startswith p' s'
  | _ :: _, [] => false
  end.

(** [s.endswith(suffix)]. *)
Definition endswith (s suffix : str) : bool := startswith (rev suffix) (rev s).

(** [str(n)] for a non-negative [int]. *)
Definition str_of_nat (n : nat) : str :=
  lit (NilZero.string_of_uint (Nat.to_uint n)).

(** [re.sub(r"[^a-zA-Z0-9\s]", " ", s)]. *)
Definition keep_alnum_space (c : ascii) : ascii :=
  if is_az c || is_AZ c || isdecimal c || isspace c then c else " "%char.

(** [re.sub(r"[^A-Za-z]", "", s)]. *)
Definition letters_only (s : str) : str :=
  filter (fun c => is_AZ c || is_az c) s.

(** [s.isupper()] for a string [s]: at least one cased character and no
    lowercase one.  The lowercase characters of the range are [a-z],
    U+00AA, U+00B5, U+00BA and U+00DF..U+00FF except U+00F7. *)
Definition islower_char (c : ascii) : bool :=
  let n := ord c in
  between 97 122 n || (n =? 170) || (n =? 181) || (n =? 186)
  || between 223 246 n || between 248 255 n.

Definition str_isupper (s : str) : bool :=
  existsb isupper s && negb (existsb islower_char s).

End Text.

Import Text.

(* ------------------------------------------------------------------ *)
(** * Regular expressions

    The fragment the sources use at [re.match]: character classes,
    literals, alternation, concatenation, [*] and [+].  [re.match] succeeds
    when the pattern matches some prefix of the string; backtracking makes
    it succeed exactly when a prefix belongs to the language. *)

Module Regex.

Inductive re : Type :=
| Empty : re                       (* matches nothing *)
| Eps : re                         (* matches the empty string *)
| Class : (ascii -> bool) -> re    (* one character of a class *)
| Seq : re -> re -> re
| Alt : re -> re -> re
| Star : re -> re.

Definition Chr (c : ascii) : re := Class (Ascii.eqb c).
Definition Plus (r : re) : re := Seq r (Star r).

Fixpoint nullable (r : re) : bool :=
  match r with
  | Empty => false
  | Eps => true
  | Class _ => false
  | Seq a b => nullable a && nullable b
  | Alt a b => nullable a || nullable b
  | Star _ => true
  end.

(** Brzozowski derivative. *)
Fixpoint deriv (c : ascii) (r : re) : re :=
  match r with
  | Empty => Empty
  | Eps => Empty
  | Class p => if p c then Eps else Empty
  | Seq a b =>
      if nullable a
      then Alt (Seq (deriv c a) b) (deriv c b)
      else Seq (deriv c a) b
  | Alt a b => Alt (deriv c a) (deriv c b)
  | Star a => Seq (deriv c a) (Star a)
  end.

(** [re.match(r, s) is not None]. *)
Fixpoint match_prefix (r : re) (s : str) : bool :=
  nullable r ||
  match s with
  | [] => false
  | c :: rest => match_prefix (deriv c r) rest
  end.

(** The language of a pattern, for the specification of [match_prefix]. *)
Inductive matches : re -> str -> Prop :=
| m_eps : matches Eps []
| m_class p c : p c = true -> matches (Class p) [c]
| m_seq a b s t : matches a s -> matches b t -> matches (Seq a b) (s ++ t)
| m_alt_l a b s : matches a s -> matches (Alt a b) s
| m_alt_r a b s : matches b s -> matches (Alt a b) s
| m_star_nil a : matches (Star a) []
| m_star_cons a s t :
    matches a s -> matches (Star a) t -> matches (Star a) (s ++ t).

End Regex.

Import Regex.

(* ------------------------------------------------------------------ *)
(** * Floating-point arithmetic *)

(** The operations the sources apply to [float] values. *)
Class Num (F : Type) : Type := {
  of_nat : nat -> F;              (* [float(n)] for a non-negative [int] *)
  fadd : F -> F -> F;
  fsub : F -> F -> F;
  fmul : F -> F -> F;
  fdiv : F -> F -> F;             (* the quotient, divisor not zero *)
  fsqrt : F -> F;                 (* [math.sqrt] *)
  fltb : F -> F -> bool;          (* [<] *)
  fleb : F -> F -> bool;          (* [<=] *)
  feqb : F -> F -> bool           (* [==] *)
}.

(** IEEE 754 binary64, the arithmetic of CPython's [float].  The integers
    converted by the sources are lengths and counts, far below [2^53]: their
    conversion is exact. *)
#[export] Instance float_Num : Num float := {
  of_nat n := PrimFloat.of_uint63 (Uint63.of_Z (Z.of_nat n));
  fadd := PrimFloat.add;
  fsub := PrimFloat.sub;
  fmul := PrimFloat.mul;
  fdiv := PrimFloat.div;
  fsqrt := PrimFloat.sqrt;
  fltb := PrimFloat.ltb;
  fleb := PrimFloat.leb;
  feqb := PrimFloat.eqb
}.

Definition Rltb (x y : R) : bool := if Rlt_dec x y then true else false.
Definition Rleb (x y : R) : bool := if Rle_dec x y then true else false.
Definition Reqb (x y : R) : bool := if Req_dec_T x y then true else false.

(** The same operations in exact arithmetic. *)
#[export] Instance R_Num : Num R := {
  of_nat := INR;
  fadd := Rplus;
  fsub := Rminus;
  fmul := Rmult;
  fdiv := Rdiv;
  fsqrt := R_sqrt.sqrt;
  fltb := Rltb;
  fleb := Rleb;
  feqb := Reqb
}.

Section Arith.
Context {F : Type} {N : Num F}.

Definition fzero : F := of_nat 0.
Definition fone : F := of_nat 1.

(** A decimal literal [n/d], e.g. [dec 6 10] for [0.6]: the float nearest
    to the quotient. *)
Definition dec (n d : nat) : F := fdiv (of_nat n) (of_nat d).

(** [a / b] on two [int]s: [ZeroDivisionError] when [b] is [0]. *)
Definition int_div (a b : nat) : option F :=
  if b =? 0 then None else Some (fdiv (of_nat a) (of_nat b)).

(** [x / y] on two [float]s: [ZeroDivisionError] when [y == 0.0]. *)
Definition float_div (x y : F) : option F :=
  if feqb y fzero then None else Some (fdiv x y).

(** [sum(xs)] on [float]s, left to right from [0], each addition rounded
    (CPython up to 3.11; later versions compensate the rounding errors of
    [sum], which changes none of the values computed in this file). *)
Definition fsum (xs : list F) : F := fold_left fadd xs fzero.
End Arith.

(** The option monad of fallible code. *)
Definition bind {A B : Type} (m : option A) (k : A -> option B) : option B :=
  match m with
  | Some a => k a
  | None => None
  end.

Notation "x <- m ;; k" := (bind m (fun x => k))
  (at level 61, m at next level, right associativity).

Fixpoint mapM {A B : Type} (f : A -> option B) (l : list A) : option (list B) :=
  match l with
  | [] => Some []
  | a :: r => b <- f a ;; bs <- mapM f r ;; Some (b :: bs)
  end.

(* ------------------------------------------------------------------ *)
(** * pdf_processor.py *)

(** A section dictionary.  A key may be absent: [parse_pdf] sets the first
    three, the caller adds [document]; readers use [dict.get]. *)
Record Section : Type := mkSection {
  section_title : option str;
  text : option str;
  page_number : option nat;
  document : option str
}.

(** [d.get(key, "")]. *)
Definition get_str (v : option str) : str :=
  match v with Some s => s | None => [] end.

Definition null {A : Type} (l : list A) : bool :=
  match l with [] => true | _ => false end.

(** The pattern [^(\d+\.\d*|\d+|[A-Z])\.\s] of [_is_heading]. *)
Definition enum_re : re :=
  Seq (Alt (Seq (Plus (Class isdecimal))
                (Seq (Chr "."%char) (Star (Class isdecimal))))
           (Alt (Plus (Class isdecimal))
                (Class is_AZ)))
      (Seq (Chr "."%char) (Class isspace)).

(** [w and (w[0].isupper() or w[0].isdigit())]. *)
Definition cap_word (w : str) : bool :=
  match w with
  | [] => false
  | c :: _ => isupper c || isdigit c
  end.

Section Segmenter.
Context {F : Type} {N : Num F}.

(** [_is_heading(line)]; [None] is an uncaught [ZeroDivisionError]. *)
Definition _is_heading (line : str) : option bool :=
  let text := strip line in
  if null text then Some false
  else if 100 <? List.length text then Some false
  else
    let words := split text in
    if 15 <? List.length words then Some false
    else if match_prefix enum_re text then Some true
    else
      let cap_count := List.length (filter cap_word words) in
      ratio <- int_div cap_count (List.length words) ;;
      if fleb (dec 6 10) ratio then Some true
      else
        let letters := letters_only text in
        if negb (null letters) && str_isupper letters then Some true
        else Some false.

(** The accumulator of the loop over the lines of a page. *)
Record acc : Type := mkAcc {
  current_title : option str;
  current_lines : list str;
  sections : list Section
}.

Definition new_section (title : str) (lines : list str) (page_num : nat)
  : Section :=
  mkSection (Some title) (Some (strip (join space lines))) (Some page_num)
            None.

(** One iteration of [for line in lines]. *)
Definition line_step (page_num : nat) (a : acc) (line : str) : option acc :=
  h <- _is_heading line ;;
  if h then
    let flushed :=
      match current_title a with
      | Some t => sections a ++ [new_section t (current_lines a) page_num]
      | None => sections a
      end in
    Some (mkAcc (Some line) [] flushed)
  else
    Some (mkAcc (current_title a) (current_lines a ++ [line]) (sections a)).

Fixpoint line_loop (page_num : nat) (a : acc) (lines : list str)
  : option acc :=
  match lines with
  | [] => Some a
  | line :: rest => a' <- line_step page_num a line ;; line_loop page_num a' rest
  end.

(** [[ln.strip() for ln in page_text.splitlines() if ln.strip()]]. *)
Definition page_lines (page_text : str) : list str :=
  map strip (filter (fun ln => negb (null (strip ln))) (splitlines page_text)).

(** The body of [for page_num in ...] after a successful extraction:
    the sections of the page are appended to [secs]. *)
Definition parse_page (secs : list Section) (page_num : nat) (page_text : str)
  : option (list Section) :=
  let lines := page_lines page_text in
  a <- line_loop page_num (mkAcc None [] secs) lines ;;
  match current_title a with
  | Some t =>
      if negb (null (current_lines a))
      then Some (sections a ++ [new_section t (current_lines a) page_num])
      else Some (sections a)
  | None =>
      if negb (null lines)
      then Some (sections a ++
                 [mkSection (Some (lit "Page " ++ str_of_nat page_num))
                            (Some (strip (join space lines)))
                            (Some page_num) None])
      else Some (sections a)
  end.

(** What [parse_pdf] sees of the outside: the file system and the two
    Poppler commands.  [None] from a command is its [RuntimeError]. *)
Record World : Type := mkWorld {
  path_exists : str -> bool;            (* [os.path.exists] *)
  run_pdfinfo : str -> option nat;      (* [_run_pdfinfo] *)
  run_pdftotext : str -> nat -> option str  (* [_run_pdftotext_page] *)
}.

(** The commands [parse_pdf] runs, in order. *)
Inductive event : Type :=
| Pdfinfo (filepath : str)
| Pdftotext (filepath : str) (page_num : nat).

Inductive outcome (A : Type) : Type :=
| Ok (a : A)
| ValueError
| RuntimeError
| ZeroDivisionError.
Arguments Ok {A} a.
Arguments ValueError {A}.
Arguments RuntimeError {A}.
Arguments ZeroDivisionError {A}.

(** [for page_num in range(...)] over the page numbers [pages]. *)
Fixpoint page_loop (w : World) (filepath : str) (pages : list nat)
         (log : list event) (secs : list Section)
  : list event * outcome (list Section) :=
  match pages with
  | [] => (log, Ok secs)
  | page_num :: rest =>
      let log' := log ++ [Pdftotext filepath page_num] in
      match run_pdftotext w filepath page_num with
      | None => page_loop w filepath rest log' secs
      | Some page_text =>
          match parse_page secs page_num page_text with
          | Some secs' => page_loop w filepath rest log' secs'
          | None => (log', ZeroDivisionError)
          end
      end
  end.

(** [parse_pdf(filepath)]: the commands it ran and how it ended. *)
Definition parse_pdf (w : World) (filepath : str)
  : list event * outcome (list Section) :=
  if negb (path_exists w filepath)
     || negb (endswith (lower filepath) (lit ".pdf"))
  then ([], ValueError)
  else
    match run_pdfinfo w filepath with
    | None => ([Pdfinfo filepath], RuntimeError)
    | Some num_pages =>
        page_loop w filepath (seq 1 num_pages) [Pdfinfo filepath] []
    end.
End Segmenter.

Arguments Ok {A} a.
Arguments ValueError {A}.
Arguments RuntimeError {A}.
Arguments ZeroDivisionError {A}.

(* ------------------------------------------------------------------ *)
(** * Dictionaries and sets *)

Definition dict (V : Type) : Type := list (str * V).

Fixpoint dict_get {V : Type} (d : dict V) (k : str) : option V :=
  match d with
  | [] => None
  | (k', v) :: r => if str_eqb k' k then Some v else dict_get r k
  end.

(** [d.get(k, default)]. *)
Definition get_or {V : Type} (d : dict V) (k : str) (default : V) : V :=
  match dict_get d k with Some v => v | None => default end.

Definition keys {V : Type} (d : dict V) : list str := map fst d.
Definition values {V : Type} (d : dict V) : list V := map snd d.

Definition mem (x : str) (l : list str) : bool := existsb (str_eqb x) l.

(** [set(l)], listed in order of first occurrence. *)
Fixpoint to_set (l : list str) : list str :=
  match l with
  | [] => []
  | x :: r => x :: filter (fun y => negb (str_eqb x y)) (to_set r)
  end.

(** [d[k] = d.get(k, 0) + 1]. *)
Fixpoint incr (d : dict nat) (k : str) : dict nat :=
  match d with
  | [] => [(k, 1)]
  | (k', c) :: r => if str_eqb k' k then (k', S c) :: r else (k', c) :: incr r k
  end.

(** [collections.Counter(words)]. *)
Definition Counter (words : list str) : dict nat := fold_left incr words [].

(* ------------------------------------------------------------------ *)
(** * content_analyzer.py *)

(** [persona] and [job]: dictionaries read with [get(key, "")]. *)
Record Persona : Type := mkPersona {
  role : option str;
  description : option str
}.

Record Job : Type := mkJob { task : option str }.

Definition ACTION_VERBS : list str :=
  map lit
    ["create"; "design"; "develop"; "optimize"; "optimise";
     "evaluate"; "analyze"; "analyse"; "build"; "identify"; "summarize";
     "summarise"; "implement"; "compare"; "assess"; "improve"; "discover";
     "predict"; "plan"; "execute"; "monitor"; "measure"]%string.

Definition _clean_text (t : str) : str := map keep_alnum_space (lower t).

Definition _tokenize (t : str) : list str := split (map keep_alnum_space (lower t)).

Section Analyzer.
Context {F : Type} {N : Num F}.

(** [math.log], a function of the C library. *)
Variable log : F -> F.

Definition WEIGHT_SEMANTIC : F := dec 40 100.
Definition WEIGHT_PERSONA : F := dec 25 100.
Definition WEIGHT_ACTION : F := dec 20 100.
Definition WEIGHT_CROSS_DOC : F := dec 15 100.

Definition _compute_tf (words : list str) : option (dict F) :=
  if null words then Some []
  else
    let total := List.length words in
    mapM (fun wc : str * nat => q <- int_div (snd wc) total ;; Some (fst wc, q))
         (Counter words).

(** The number of documents each term occurs in. *)
Definition doc_counts (doc_tokens : list (list str)) : dict nat :=
  fold_left (fun d tokens => fold_left incr (to_set tokens) d) doc_tokens [].

Definition _compute_idf (doc_tokens : list (list str)) : option (dict F) :=
  let total_docs := List.length doc_tokens in
  mapM (fun tc : str * nat =>
          q <- int_div (1 + total_docs) (1 + snd tc) ;;
          Some (fst tc, fadd (log q) fone))
       (doc_counts doc_tokens).

Definition _compute_tfidf_vector (tf idf : dict F) : dict F :=
  map (fun wt : str * F => (fst wt, fmul (snd wt) (get_or idf (fst wt) fzero))) tf.

(** [dot] after the loop over the items of [small], reading [other]. *)
Definition dot_product (small other : dict F) : F :=
  fold_left (fun dot wv => fadd dot (fmul (snd wv) (get_or other (fst wv) fzero)))
            small fzero.

Definition norm (vec : dict F) : F :=
  fsqrt (fsum (map (fun v => fmul v v) (values vec))).

Definition _cosine_similarity (vec1 vec2 : dict F) : option F :=
  if null vec1 || null vec2 then Some fzero
  else
    let dot :=
      if List.length vec1 <? List.length vec2
      then dot_product vec1 vec2
      else dot_product vec2 vec1 in
    let norm1 := norm vec1 in
    let norm2 := norm vec2 in
    if feqb norm1 fzero || feqb norm2 fzero then Some fzero
    else float_div dot (fmul norm1 norm2).

Definition compute_semantic_similarity (sections : list Section) (query : str)
  : option (list F) :=
  let section_tokens := map (fun sec => _tokenize (get_str (text sec))) sections in
  let query_tokens := _tokenize query in
  idf <- _compute_idf (query_tokens :: section_tokens) ;;
  query_tf <- _compute_tf query_tokens ;;
  let query_vec := _compute_tfidf_vector query_tf idf in
  mapM (fun tokens =>
          tf <- _compute_tf tokens ;;
          _cosine_similarity (_compute_tfidf_vector tf idf) query_vec)
       section_tokens.

Definition compute_persona_match (sections : list Section) (persona_role : str)
  : option (list F) :=
  let persona_words := to_set (split (_clean_text persona_role)) in
  mapM (fun sec =>
          let sec_words := to_set (split (_clean_text (get_str (text sec)))) in
          if null persona_words || null sec_words then Some fzero
          else
            let overlap := filter (fun w => mem w sec_words) persona_words in
            int_div (List.length overlap) (List.length persona_words))
       sections.

Definition compute_actionability (sections : list Section) : option (list F) :=
  mapM (fun sec =>
          let words := split (_clean_text (get_str (text sec))) in
          if null words then Some fzero
          else
            let action_count :=
              List.length (filter (fun w => mem w ACTION_VERBS) words) in
            int_div action_count (List.length words))
       sections.

(** [title_counts.setdefault(title, set()).add(doc)]. *)
Fixpoint add_doc (d : dict (list str)) (title doc : str) : dict (list str) :=
  match d with
  | [] => [(title, [doc])]
  | (t, docs) :: r =>
      if str_eqb t title
      then (t, if mem doc docs then docs else docs ++ [doc]) :: r
      else (t, docs) :: add_doc r title doc
  end.

Definition title_counts (sections : list Section) : dict (list str) :=
  fold_left (fun d sec =>
               add_doc d (get_str (section_title sec)) (get_str (document sec)))
            sections [].

Definition freq_map (sections : list Section) : dict nat :=
  map (fun td : str * list str => (fst td, List.length (snd td)))
      (title_counts sections).

(** [max(l)] on [int]s. *)
Definition max_nat (l : list nat) : nat := fold_left Nat.max l 0.

Definition compute_cross_document_importance (sections : list Section)
  : option (list F) :=
  let fm := freq_map sections in
  let max_freq := if null fm then 1 else max_nat (values fm) in
  mapM (fun sec =>
          let freq := get_or fm (get_str (section_title sec)) 1 in
          int_div freq max_freq)
       sections.

(** [max(arr)] and [min(arr)] on a non-empty list of [float]s: the first
    largest, the first smallest. *)
Definition fmax_list (x : F) (rest : list F) : F :=
  fold_left (fun m y => if fltb m y then y else m) rest x.

Definition fmin_list (x : F) (rest : list F) : F :=
  fold_left (fun m y => if fltb y m then y else m) rest x.

Definition normalise (arr : list F) : option (list F) :=
  match arr with
  | [] => Some arr
  | x :: rest =>
      let max_val := fmax_list x rest in
      let min_val := fmin_list x rest in
      if feqb max_val min_val then Some (map (fun _ => fzero) arr)
      else mapM (fun y => float_div (fsub y min_val) (fsub max_val min_val)) arr
  end.

(** The weighted sum of the four normalised signals of one section. *)
Definition combine4 (s p a c : F) : F :=
  fadd (fadd (fadd (fmul WEIGHT_SEMANTIC s) (fmul WEIGHT_PERSONA p))
             (fmul WEIGHT_ACTION a))
       (fmul WEIGHT_CROSS_DOC c).

(** [compute_relevance_scores]; [None] is an exception
    ([ZeroDivisionError] or [IndexError]). *)
Definition compute_relevance_scores
           (sections : list Section) (persona : Persona) (job : Job)
  : option (list F) :=
  let persona_role := get_str (role persona) in
  let persona_desc := get_str (description persona) in
  let job_task := get_str (task job) in
  let query := strip (persona_role ++ space ++ persona_desc ++ space ++ job_task) in
  semantic <- compute_semantic_similarity sections query ;;
  persona_match_scores <-
    compute_persona_match sections (persona_role ++ space ++ persona_desc) ;;
  actionability_scores <- compute_actionability sections ;;
  cross_doc_scores <- compute_cross_document_importance sections ;;
  sem_norm <- normalise semantic ;;
  pers_norm <- normalise persona_match_scores ;;
  act_norm <- normalise actionability_scores ;;
  cross_norm <- normalise cross_doc_scores ;;
  mapM (fun i =>
          s <- nth_error sem_norm i ;;
          p <- nth_error pers_norm i ;;
          a <- nth_error act_norm i ;;
          c <- nth_error cross_norm i ;;
          Some (combine4 s p a c))
       (seq 0 (List.length sections)).
End Analyzer.

(* ------------------------------------------------------------------ *)
(** * Sorting

    [l.sort(key=..., reverse=True)]: a stable sort into descending order of
    the keys.  Among the elements of equal key the order of the input is
    kept; on keys that are totally ordered this determines the result, which
    the insertion below computes. *)

Section Sort.
Context {F : Type} {N : Num F} {A : Type}.

Fixpoint insert_desc (x : A * F) (l : list (A * F)) : list (A * F) :=
  match l with
  | [] => [x]
  | y :: r => if fltb (snd x) (snd y) then y :: insert_desc x r else x :: l
  end.

Definition sort_desc (l : list (A * F)) : list (A * F) :=
  fold_right insert_desc [] l.
End Sort.

(* ------------------------------------------------------------------ *)
(** * persona_matcher.py *)

(** A ranked section: the copy of a section with the two added keys. *)
Record Ranked (F : Type) : Type := mkRanked {
  section : Section;
  importance_rank : nat;
  _score : F
}.

Arguments mkRanked {F} _ _ _.
Arguments section {F} _.
Arguments importance_rank {F} _.
Arguments _score {F} _.

Section Ranker.
Context {F : Type} {N : Num F}.
Variable log : F -> F.

(** [for idx, (section, score) in enumerate(paired, start=idx)]. *)
Fixpoint annotate (idx : nat) (paired : list (Section * F)) : list (Ranked F) :=
  match paired with
  | [] => []
  | (sec, score) :: r => mkRanked sec idx score :: annotate (S idx) r
  end.

Definition rank_sections (sections : list Section) (persona : Persona) (job : Job)
  : option (list (Ranked F)) :=
  if null sections then Some []
  else
    scores <- compute_relevance_scores log sections persona job ;;
    let paired := combine sections scores in
    Some (annotate 1 (sort_desc paired)).
End Ranker.

(* ------------------------------------------------------------------ *)
(** * document_intelligence.py *)

(** The class [[.!?]]. *)
Definition is_terminator (c : ascii) : bool :=
  let n := ord c in (n =? 46) || (n =? 33) || (n =? 63).

(** [re.split(r"(?<=[.!?])\s+", text)]: the text is cut at every maximal run
    of whitespace that follows a terminator.  [prev] tells whether the last
    character read is a terminator, [skipping] whether a separating run is
    being read, [cur] is the piece being read, reversed. *)
Fixpoint split_sentences_aux (prev skipping : bool) (cur : str) (s : str)
  : list str :=
  match s with
  | [] => [rev cur]
  | c :: r =>
      if isspace c then
        if skipping then split_sentences_aux false true cur r
        else if prev then rev cur :: split_sentences_aux false true [] r
        else split_sentences_aux false false (c :: cur) r
      else split_sentences_aux (is_terminator c) false (c :: cur) r
  end.

Definition re_split_sentences (t : str) : list str :=
  split_sentences_aux false false [] t.

Definition _split_into_sentences (t : str) : list str :=
  map strip (filter (fun p => 20 <? List.length (strip p)) (re_split_sentences t)).

(** An entry of the result of [refine_subsections]. *)
Record Refined : Type := mkRefined {
  r_document : option str;
  refined_text : str;
  r_page_number : option nat
}.

Section Refiner.
Context {F : Type} {N : Num F}.

Definition _score_sentence (sentence : str) (query_terms : list str) : option F :=
  let words := split (map keep_alnum_space (lower sentence)) in
  if null words then Some fzero
  else
    let overlap := filter (fun q => mem q words) query_terms in
    int_div (List.length overlap) (List.length (to_set words)).

(** The body of the loop of [refine_subsections]: [refined] for a text. *)
Definition refine_text (query_terms : list str) (t : str) : option str :=
  let sentences := _split_into_sentences t in
  if null sentences then Some (firstn 300 (strip t))
  else
    scored <- mapM (fun sent =>
                      sc <- _score_sentence sent query_terms ;; Some (sent, sc))
                   sentences ;;
    let top_sents := map fst (firstn 2 (sort_desc scored)) in
    Some (strip (join space top_sents)).

Definition query_terms_of (persona : Persona) (job : Job) : list str :=
  let query := get_str (role persona) ++ space ++ get_str (description persona)
               ++ space ++ get_str (task job) in
  to_set (split (map keep_alnum_space (lower query))).

Definition refine_subsections (ranked_sections : list Section)
           (persona : Persona) (job : Job) (top_n : nat)
  : option (list Refined) :=
  let query_terms := query_terms_of persona job in
  mapM (fun sec =>
          refined <- refine_text query_terms (get_str (text sec)) ;;
          Some (mkRefined (document sec) refined (page_number sec)))
       (firstn top_n ranked_sections).
End Refiner.

(* ------------------------------------------------------------------ *)
(** * Vocabulary of the statements *)

Definition nl : str := [ascii_of_nat 10].

Definition nonspace (c : ascii) : bool := negb (isspace c).

(** The first character exists and is not whitespace. *)
Definition starts_ns (u : str) : Prop :=
  match u with
  | c :: _ => isspace c = false
  | [] => False
  end.

(** Not empty, no whitespace at either end. *)
Definition tight (u : str) : Prop := starts_ns u /\ starts_ns (rev u).

(** The pairs of a list with their positions, counted from [k]. *)
Fixpoint tagged {A F : Type} (k : nat) (l : list (A * F)) : list ((nat * A) * F) :=
  match l with
  | [] => []
  | (a, v) :: r => ((k, a), v) :: tagged (S k) r
  end.

(** [i] occurs before [j] in [l]. *)
Definition before {A : Type} (i j : A) (l : list A) : Prop :=
  exists l1 l2 l3, l = l1 ++ i :: l2 ++ j :: l3.

(** A terminator directly followed by whitespace occurs in [s]: the text
    has a sentence boundary inside. *)
Fixpoint has_boundary (s : str) : bool :=
  match s with
  | c :: r =>
      match r with
      | w :: _ => (is_terminator c && isspace w) || has_boundary r
      | [] => false
      end
  | [] => false
  end.

(** [pieces] are the text [t] cut at its sentence boundaries: a piece ends
    with [.], [!] or [?] where whitespace follows, the whole run of
    whitespace that follows is dropped, and no piece has a boundary
    inside. *)
Inductive cut_at_boundaries : str -> list str -> Prop :=
| cut_last (p : str) :
    has_boundary p = false -> cut_at_boundaries p [p]
| cut_next (p : str) (c : ascii) (ws rest : str) (pieces : list str) :
    has_boundary (p ++ [c]) = false ->
    is_terminator c = true ->
    ws <> [] -> forallb isspace ws = true ->
    match rest with x :: _ => isspace x = false | [] => True end ->
    cut_at_boundaries rest pieces ->
    cut_at_boundaries (p ++ [c] ++ ws ++ rest) ((p ++ [c]) :: pieces).

(** The usable sentences among [pieces]: each piece trimmed, those of
    trimmed length at most 20 discarded. *)
Definition usable_sentences (pieces : list str) : list str :=
  map strip (filter (fun p => 20 <? List.length (strip p)) pieces).


Local Open Scope R_scope.


(** The sum of a list of reals. *)
Definition Rsum (l : list R) : R := fold_right Rplus 0 l.

(** [vec.get(k, 0.0)]. *)
Definition getR (d : dict R) (k : str) : R := get_or d k 0.

(** The dot product read off the items of [a]. *)
Definition dotR (a b : dict R) : R :=
  Rsum (map (fun wv : str * R => snd wv * getR b (fst wv)) a).

(** The sum of the squares of the weights. *)
Definition sqR (a : dict R) : R := Rsum (map (fun v => v * v) (values a)).

(** What [refined] must be for a section text [t], cut into [pieces] at
    its sentence boundaries: the first 300 characters of the stripped text
    when no sentence is usable; otherwise the first two (or the only one) of
    the usable sentences in descending order of score, joined by a single
    space. *)
Definition excerpt_of (query_terms : list str) (t : str) (refined : str) : Prop :=
  exists pieces,
    cut_at_boundaries t pieces
    /\ let sentences := usable_sentences pieces in
       (sentences = [] ->
          refined = firstn 300 (strip t) /\ (List.length refined <= 300)%nat)
       /\ (sentences <> [] ->
           exists (scored top rest : list (str * R)),
             map fst scored = sentences
             /\ Forall (fun p => _score_sentence (fst p) query_terms = Some (snd p))
                       scored
             /\ Permutation (top ++ rest) scored
             /\ (1 <= List.length top <= 2)%nat
             /\ (forall p q, In p top -> In q rest -> snd q <= snd p)
             /\ refined = join space (map fst top)).

Local Close Scope R_scope.


(* ------------------------------------------------------------------ *)
(** * The pages of a document *)

(** The pages of [range(1, num_pages + 1)] whose extraction succeeds, with
    their text. *)
Definition successful_pages (w : World) (filepath : str) (num_pages : nat)
  : list (nat * str) :=
  flat_map (fun p => match run_pdftotext w filepath p with
                     | Some t => [(p, t)]
                     | None => []
                     end)
           (seq 1 num_pages).

(** The sections of one page, taken alone. *)
Definition sections_of_page {F : Type} {N : Num F} (pt : nat * str)
  : list Section :=
  match parse_page [] (fst pt) (snd pt) with
  | Some l => l
  | None => []
  end.

(** What a section built from the lines of page [page_num] looks like: it
    is on that page, has no document yet, and its title is a heading line of
    the page or the label "Page N". *)
Definition page_section_ok {F : Type} {N : Num F}
           (page_num : nat) (lines : list str) (s : Section) : Prop :=
  page_number s = Some page_num
  /\ document s = None
  /\ text s <> None
  /\ exists t, section_title s = Some t
               /\ ((In t lines /\ _is_heading t = Some true)
                   \/ t = lit "Page " ++ str_of_nat page_num).

(** The title kept in the accumulator of the line loop is a heading line. *)
Definition title_ok {F : Type} {N : Num F} (all : list str) (a : acc) : Prop :=
  match current_title a with
  | Some t => In t all /\ _is_heading t = Some true
  | None => True
  end.

(** 1 when a title is open, 0 otherwise. *)
Definition open_title (a : acc) : nat :=
  match current_title a with Some _ => 1 | None => 0 end.

(** A world for examples: every path exists, the document has two pages,
    the first of which cannot be extracted. *)
Definition example_world : World :=
  mkWorld (fun _ => true) (fun _ => Some 2)
          (fun _ p => if p =? 2
                      then Some (lit "1. Introduction" ++ nl ++ lit "Some body text.")
                      else None).

(** The number of occurrences of [w] in [words]. *)
Definition occurrences (words : list str) (w : str) : nat :=
  count_occ (list_eq_dec ascii_dec) words w.

(** The number of documents of [doc_tokens] in which [w] occurs. *)
Definition doc_frequency (doc_tokens : list (list str)) (w : str) : nat :=
  List.length (filter (mem w) doc_tokens).

(** The number of distinct documents that hold a section titled [title]. *)
Definition distinct_docs (sections : list Section) (title : str) : nat :=
  List.length
    (to_set (map (fun sec => get_str (document sec))
                 (filter (fun sec => str_eqb (get_str (section_title sec)) title)
                         sections))).

(** The lines of [lines] that are not headings. *)
Definition body_lines {F : Type} {N : Num F} (lines : list str) : list str :=
  filter (fun l => match _is_heading l with Some true => false | _ => true end)
         lines.

(** The non-whitespace characters of the texts of [secs], in order. *)
Definition text_chars (secs : list Section) : str :=
  flat_map (fun s => filter nonspace (get_str (text s))) secs.

(* ------------------------------------------------------------------ *)
(** * The page count reported by pdfinfo *)

From Stdlib Require DecimalNat.

(** [s.split(sep)] for a separator of one character.  [cur] is the piece
    being read, reversed. *)
Fixpoint split_on_aux (sep : ascii) (cur : str) (s : str) : list str :=
  match s with
  | [] => [rev cur]
  | c :: r =>
      if Ascii.eqb c sep then rev cur :: split_on_aux sep [] r
      else split_on_aux sep (c :: cur) r
  end.

Definition split_on (sep : ascii) (s : str) : list str := split_on_aux sep [] s.

(** The digits of a decimal literal: at least one digit, and an underscore
    only between two digits.  [prev_digit] tells whether the character just
    read is a digit; [acc] is the value read so far. *)
Fixpoint parse_digits (prev_digit : bool) (acc : nat) (s : str) : option nat :=
  match s with
  | [] => if prev_digit then Some acc else None
  | c :: r =>
      if isdecimal c then parse_digits true (10 * acc + (ord c - 48)) r
      else if Ascii.eqb c "_"%char && prev_digit then parse_digits false acc r
      else None
  end.

(** [int(s)] on a string; [None] is [ValueError].  Surrounding whitespace
    is dropped and a sign may come first; CPython 3.11 and later refuse a
    literal of more than 4300 digits. *)
Definition int_of_str (s : str) : option Z :=
  let t := strip s in
  let negative := match t with c :: _ => Ascii.eqb c "-"%char | [] => false end in
  let signed := match t with
                | c :: _ => Ascii.eqb c "-"%char || Ascii.eqb c "+"%char
                | [] => false
                end in
  let body := if signed then tl t else t in
  if 4300 <? List.length (filter isdecimal body) then None
  else
    match parse_digits false 0 body with
    | Some n => Some (if negative then (- Z.of_nat n)%Z else Z.of_nat n)
    | None => None
    end.

(** [for line in ...splitlines()] of [_run_pdfinfo]; [None] when the loop
    ends without a [return]. *)
Fixpoint pdfinfo_lines (lines : list str) : option Z :=
  match lines with
  | [] => None
  | line :: rest =>
      if startswith (lit "pages") (lower line) then
        let parts := split_on ":"%char line in
        if 1 <? List.length parts then
          let count_str := strip (nth 1 parts []) in
          match int_of_str count_str with
          | Some n => Some n
          | None => pdfinfo_lines rest
          end
        else pdfinfo_lines rest
      else pdfinfo_lines rest
  end.

(** [_run_pdfinfo]: [result] is the decoded standard output of the command,
    [None] when the command fails; the value [None] is [RuntimeError]. *)
Definition _run_pdfinfo (result : option str) : option Z :=
  match result with
  | None => None
  | Some stdout => pdfinfo_lines (splitlines stdout)
  end.

(* ------------------------------------------------------------------ *)
(** * main.py *)

(** [os.path.join(a, b)] on POSIX paths. *)
Definition path_join (a b : str) : str :=
  if startswith (lit "/") b then b
  else if null a || endswith a (lit "/") then a ++ b
  else a ++ lit "/" ++ b.

(** [s.rfind(c)] for a character [c]: the last index at which it occurs, or
    [-1].  [i] is the index of the head of [s], [last] the answer so far. *)
Fixpoint rfind_aux (c : ascii) (s : str) (i last : Z) : Z :=
  match s with
  | [] => last
  | x :: r => rfind_aux c r (i + 1) (if Ascii.eqb x c then i else last)
  end.

Definition rfind (c : ascii) (s : str) : Z := rfind_aux c s 0 (-1).

(** [os.path.basename(p)]: [p[p.rfind("/") + 1:]]. *)
Definition basename (p : str) : str :=
  skipn (Z.to_nat (rfind "/"%char p + 1)) p.

(** [os.path.splitext(p)[0]]: [p] up to its last dot, when that dot comes
    after the last [/] and after some character of the file name that is
    not a dot; [p] otherwise. *)
Definition splitext_root (p : str) : str :=
  let sepIndex := rfind "/"%char p in
  let dotIndex := rfind "."%char p in
  if (sepIndex <? dotIndex)%Z
     && existsb (fun c => negb (Ascii.eqb c "."%char))
                (firstn (Z.to_nat (dotIndex - (sepIndex + 1)))
                        (skipn (Z.to_nat (sepIndex + 1)) p))
  then firstn (Z.to_nat dotIndex) p
  else p.

(** The input JSON once loaded: [persona], [job_to_be_done] and, for each
    entry of [documents], its [filename] if it has one. *)
Record InputData : Type := mkInputData {
  in_persona : Persona;
  in_job : Job;
  in_documents : list (option str)
}.

(** An entry of [extracted_sections]. *)
Record Extracted : Type := mkExtracted {
  e_document : option str;
  e_section_title : option str;
  e_importance_rank : nat;
  e_page_number : option nat
}.

Record Metadata : Type := mkMetadata {
  input_documents : list (option str);
  md_persona : str;
  md_job_to_be_done : str;
  processing_timestamp : str
}.

Record OutputData : Type := mkOutputData {
  o_metadata : Metadata;
  extracted_sections : list Extracted;
  subsection_analysis : list Refined
}.

(** How a call of [process_input_file] on a well-formed JSON ends when it
    raises nothing: it returns early, or writes one file. *)
Inductive Processed : Type :=
| Skipped_no_documents
| Skipped_no_sections
| Wrote (output_path : str) (output_data : OutputData).

(** [sec_copy = sec.copy(); sec_copy["document"] = filename]. *)
Definition with_document (filename : str) (sec : Section) : Section :=
  mkSection (section_title sec) (text sec) (page_number sec) (Some filename).

(** [d.update(detected)] on the keys that are read. *)
Definition update_persona (persona detected : Persona) : Persona :=
  mkPersona (match role detected with Some r => Some r | None => role persona end)
            (match description detected with
             | Some d => Some d
             | None => description persona
             end).

Definition update_job (job detected : Job) : Job :=
  mkJob (match task detected with Some t => Some t | None => task job end).

(** The entry of [extracted_sections] for a ranked section. *)
Definition extract {F : Type} (sec : Ranked F) : Extracted :=
  mkExtracted (document (section sec)) (section_title (section sec))
              (importance_rank sec) (page_number (section sec)).

Section Main.
Context {F : Type} {N : Num F}.
Variable log : F -> F.
Variable w : World.

(** [detect_persona_and_job] as [main.py] holds it: [None] when the import
    failed; a call that raises gives [None]. *)
Variable detect_persona_and_job : option (str -> option (Persona * Job)).

(** [datetime.utcnow().isoformat(timespec="milliseconds") + "Z"]. *)
Variable timestamp : str.

(** One iteration of [for doc in docs_info], on the pair of
    [concatenated_text] and [all_sections]. *)
Definition collect_step (input_dir : str) (st : list str * list Section)
           (doc : option str) : list str * list Section :=
  match doc with
  | None => st
  | Some filename =>
      if null filename then st
      else
        match snd (parse_pdf w (path_join input_dir filename)) with
        | Ok sections =>
            fold_left (fun st' sec =>
                         (fst st' ++ [get_str (text sec)],
                          snd st' ++ [with_document filename sec]))
                      sections st
        | _ => st
        end
  end.

(** The persona and the job after the automatic detection. *)
Definition fill_missing (persona : Persona) (job : Job)
           (concatenated_text : list str) : Persona * Job :=
  if null (get_str (role persona)) || null (get_str (task job)) then
    match detect_persona_and_job with
    | Some detect =>
        match detect (join space concatenated_text) with
        | Some (detected_persona, detected_job) =>
            (if null (get_str (role persona))
             then update_persona persona detected_persona else persona,
             if null (get_str (task job))
             then update_job job detected_job else job)
        | None => (persona, job)
        end
    | None => (persona, job)
    end
  else (persona, job).

(** [process_input_file] from the loaded JSON on; [None] is an exception. *)
Definition process_input_file (input_data : InputData)
           (input_path input_dir output_dir : str) : option Processed :=
  let docs_info := in_documents input_data in
  if null docs_info then Some Skipped_no_documents
  else
    let collected := fold_left (collect_step input_dir) docs_info ([], []) in
    let all_sections := snd collected in
    if null all_sections then Some Skipped_no_sections
    else
      let pj := fill_missing (in_persona input_data) (in_job input_data)
                             (fst collected) in
      let persona := fst pj in
      let job := snd pj in
      ranked <- rank_sections log all_sections persona job ;;
      let top_n := Nat.min 5 (List.length ranked) in
      let top_sections := firstn top_n ranked in
      let extracted := map extract top_sections in
      refined <- refine_subsections (map section top_sections) persona job top_n ;;
      let metadata := mkMetadata docs_info (get_str (role persona))
                                 (get_str (task job)) timestamp in
      let base_name := splitext_root (basename input_path) in
      Some (Wrote (path_join output_dir (base_name ++ lit "_output.json"))
                  (mkOutputData metadata extracted refined)).
End Main.

(** The sections one entry of [documents] contributes: those of its file,
    labelled with the file name; none when the entry has no file name or
    the file cannot be parsed. *)
Definition doc_sections {F : Type} {N : Num F} (w : World) (input_dir : str)
           (doc : option str) : list Section :=
  match doc with
  | None => []
  | Some filename =>
      if null filename then []
      else match snd (parse_pdf w (path_join input_dir filename)) with
           | Ok sections => map (with_document filename) sections
           | _ => []
           end
  end.

(* ------------------------------------------------------------------ *)
(** * auto_processor.py *)

(** [sub in s]. *)
Fixpoint contains (sub s : str) : bool :=
  startswith sub s
  || match s with
     | [] => false
     | _ :: r => contains sub r
     end.

(** The [role] of the persona that [detect_persona_and_job] returns.  (The
    task of the job is chosen by the same tests; one of the task literals
    has a character beyond U+00FF.) *)
Definition detected_role (full_text : str) : str :=
  let lower := lower full_text in
  if contains (lit "research") lower || contains (lit "literature") lower
  then lit "Researcher"
  else if contains (lit "student") lower || contains (lit "exam") lower
          || contains (lit "undergraduate") lower
  then lit "Student"
  else if contains (lit "analysis") lower || contains (lit "analyst") lower
          || contains (lit "financial") lower
  then lit "Business Analyst"
  else if contains (lit "patient") lower || contains (lit "medical") lower
          || contains (lit "nursing") lower
  then lit "Healthcare Professional"
  else lit "Reader".

(** Some text of [texts] holds the keyword [k], in any letter case. *)
Definition mentions (texts : list str) (k : string) : bool :=
  existsb (fun t => contains (lit k) (lower t)) texts.

(* ------------------------------------------------------------------ *)
(** * Literals *)

(** The literal [0.6] of the heading rule is the binary64 value
    [0x1.3333333333333p-1]. *)
Example dec_06 : (dec 6 10 : float) = 0x1.3333333333333p-1%float.
Proof. reflexivity. Qed.

(* ------------------------------------------------------------------ *)
(** * Facts about strings *)

Lemma lstrip_filter (s : str) : filter nonspace (lstrip s) = filter nonspace s.
Proof.
  induction s as [|c r IH]; simpl; [reflexivity|].
  unfold nonspace at 2. destruct (isspace c) eqn:E; simpl; [exact IH|].
  unfold nonspace at 1. rewrite E. reflexivity.
Qed.

Lemma filter_rev {A : Type} (p : A -> bool) (l : list A) :
  filter p (rev l) = rev (filter p l).
Proof.
  induction l as [|a l IH]; simpl; [reflexivity|].
  rewrite filter_app, IH. simpl. destruct (p a); simpl.
  - reflexivity.
  - now rewrite app_nil_r.
Qed.

Lemma strip_filter (s : str) : filter nonspace (strip s) = filter nonspace s.
Proof.
  unfold strip, rstrip.
  rewrite filter_rev, lstrip_filter, filter_rev, rev_involutive.
  apply lstrip_filter.
Qed.

(** A string whose [strip] is not empty holds a character that is not
    whitespace. *)
Lemma strip_nonempty_nonspace (s : str) :
  strip s <> [] -> existsb nonspace s = true.
Proof.
  intros H. destruct (filter nonspace s) as [|c r] eqn:E.
  - exfalso. apply H. rewrite <- strip_filter in E.
    destruct (strip s) as [|c r] eqn:Es; [reflexivity|].
    unfold strip, rstrip in Es.
    assert (Hl : lstrip (rev (lstrip s)) = rev (c :: r)).
    { rewrite <- Es. now rewrite rev_involutive. }
    assert (Hn : forall t, lstrip t = [] \/ exists d u, lstrip t = d :: u /\ isspace d = false).
    { induction t as [|d u IH]; simpl; [now left|].
      destruct (isspace d) eqn:Ed; [exact IH|]. right. now exists d, u. }
    destruct (Hn (rev (lstrip s))) as [H0|(d & u & Hd & Hs)].
    + rewrite H0 in Hl. symmetry in Hl. apply (f_equal (@List.length _)) in Hl.
      rewrite length_rev in Hl. discriminate.
    + assert (Hin : In d (c :: r)).
      { apply in_rev. rewrite <- Hl, Hd. now left. }
      assert (Hf : In d (filter nonspace (c :: r))).
      { apply filter_In. split; [exact Hin|]. unfold nonspace. now rewrite Hs. }
      rewrite E in Hf. destruct Hf.
  - apply existsb_exists. exists c.
    assert (Hin : In c (filter nonspace s)) by (rewrite E; now left).
    apply filter_In in Hin. exact Hin.
Qed.

Lemma split_aux_nonempty (s cur : str) :
  existsb nonspace s = true \/ cur <> [] -> split_aux cur s <> [].
Proof.
  revert cur. induction s as [|c r IH]; intros cur H; simpl.
  - destruct H as [H|H]; [discriminate|]. destruct cur; [contradiction|easy].
  - destruct (isspace c) eqn:E.
    + destruct cur as [|d cur]; [|easy].
      apply IH. simpl in H. unfold nonspace at 1 in H. rewrite E in H.
      simpl in H. destruct H as [H|H]; [now left|contradiction].
    + apply IH. right. easy.
Qed.

(** The words of a stripped, non-empty string. *)
Lemma split_strip_nonempty (s : str) : strip s <> [] -> split (strip s) <> [].
Proof.
  intros H. apply split_aux_nonempty. left.
  apply existsb_exists.
  destruct (filter nonspace (strip s)) as [|c r] eqn:E.
  - apply strip_nonempty_nonspace in H. apply existsb_exists in H.
    destruct H as (c & Hin & Hc).
    assert (Hf : In c (filter nonspace s)) by (apply filter_In; now split).
    rewrite <- strip_filter, E in Hf. destruct Hf.
  - exists c. assert (Hin : In c (filter nonspace (strip s))) by (rewrite E; now left).
    apply filter_In in Hin. exact Hin.
Qed.

Lemma null_false {A : Type} (l : list A) : null l = false <-> l <> [].
Proof. destruct l; simpl; split; intros; congruence. Qed.

Lemma null_true {A : Type} (l : list A) : null l = true <-> l = [].
Proof. destruct l; simpl; split; intros; congruence. Qed.

(* ------------------------------------------------------------------ *)
(** * The segmenter raises nothing *)

Section SegmenterTotal.
Context {F : Type} {N : Num F}.

Lemma _is_heading_total (line : str) : exists b, _is_heading line = Some b.
Proof.
  unfold _is_heading.
  destruct (null (strip line)) eqn:E0; [now eexists|].
  destruct (100 <? List.length (strip line)); [now eexists|].
  destruct (15 <? List.length (split (strip line))); [now eexists|].
  destruct (match_prefix enum_re (strip line)); [now eexists|].
  unfold int_div.
  apply null_false, split_strip_nonempty in E0.
  destruct (split (strip line)) as [|w ws] eqn:Ew; [contradiction|].
  simpl List.length at 2. simpl Nat.eqb. cbv beta iota. simpl bind.
  destruct (fleb _ _); [now eexists|].
  destruct (_ && _); now eexists.
Qed.

Lemma line_step_total (page_num : nat) (a : acc) (line : str) :
  exists a', line_step page_num a line = Some a'.
Proof.
  unfold line_step. destruct (_is_heading_total line) as [b ->]. simpl.
  destruct b; now eexists.
Qed.

Lemma line_loop_total (page_num : nat) (lines : list str) (a : acc) :
  exists a', line_loop page_num a lines = Some a'.
Proof.
  revert a. induction lines as [|l r IH]; intros a; simpl; [now eexists|].
  destruct (line_step_total page_num a l) as [a' ->]. simpl. apply IH.
Qed.

Lemma parse_page_total (secs : list Section) (page_num : nat) (page_text : str) :
  exists secs', parse_page secs page_num page_text = Some secs'.
Proof.
  unfold parse_page.
  destruct (line_loop_total page_num (page_lines page_text) (mkAcc None [] secs))
    as [a ->]. simpl.
  destruct (current_title a); destruct (negb _); now eexists.
Qed.

Lemma page_loop_outcome (w : World) (filepath : str) (pages : list nat)
      (log : list event) (secs : list Section) :
  exists secs', snd (page_loop w filepath pages log secs) = Ok secs'.
Proof.
  revert log secs. induction pages as [|p r IH]; intros log secs; simpl.
  - now eexists.
  - destruct (run_pdftotext w filepath p) as [t|]; [|apply IH].
    destruct (parse_page_total secs p t) as [secs' ->]. apply IH.
Qed.
End SegmenterTotal.

(* ------------------------------------------------------------------ *)
(** * Stripped strings *)

Lemma lstrip_starts_ns (u : str) : starts_ns u -> lstrip u = u.
Proof. destruct u as [|c r]; simpl; [tauto|]. now intros ->. Qed.

Lemma starts_ns_app (u v : str) : starts_ns u -> starts_ns (u ++ v).
Proof. destruct u; simpl; tauto. Qed.

Lemma lstrip_cases (t : str) : lstrip t = [] \/ starts_ns (lstrip t).
Proof.
  induction t as [|d u IH]; simpl; [now left|].
  destruct (isspace d) eqn:Ed; [exact IH|]. right. exact Ed.
Qed.

Lemma lstrip_suffix (t : str) : exists ws, t = ws ++ lstrip t.
Proof.
  induction t as [|d u [ws IH]]; simpl; [now exists []|].
  destruct (isspace d).
  - exists (d :: ws). simpl. now f_equal.
  - now exists [].
Qed.

Lemma strip_tight (u : str) : tight u -> strip u = u.
Proof.
  intros [H1 H2]. unfold strip, rstrip.
  rewrite (lstrip_starts_ns _ H1), (lstrip_starts_ns _ H2).
  apply rev_involutive.
Qed.

Lemma tight_strip (s : str) : strip s <> [] -> tight (strip s).
Proof.
  intros H. split.
  - unfold strip, rstrip in *.
    destruct (lstrip_suffix (rev (lstrip s))) as [ws Hws].
    apply (f_equal (@rev _)) in Hws. rewrite rev_involutive, rev_app_distr in Hws.
    destruct (rev (lstrip (rev (lstrip s)))) as [|c r] eqn:E; [contradiction|].
    destruct (lstrip_cases s) as [H0|H0].
    + rewrite H0 in E. discriminate.
    + rewrite Hws in H0. exact H0.
  - unfold strip, rstrip in *. rewrite rev_involutive.
    destruct (lstrip_cases (rev (lstrip s))) as [H0|H0]; [|exact H0].
    rewrite H0 in H. contradiction.
Qed.

Lemma tight_join (xs : list str) :
  xs <> [] -> Forall tight xs -> tight (join space xs).
Proof.
  induction xs as [|x r IH]; [contradiction|]. intros _ Hall.
  inversion Hall as [|? ? Hx Hr]; subst.
  destruct r as [|y r']; [exact Hx|].
  change (join space (x :: y :: r')) with (x ++ space ++ join space (y :: r')).
  assert (Ht : tight (join space (y :: r'))) by (apply IH; [discriminate|exact Hr]).
  split.
  - apply starts_ns_app, Hx.
  - rewrite !rev_app_distr, <- app_assoc. apply starts_ns_app, Ht.
Qed.

Lemma linebreak_isspace (c : ascii) : is_linebreak c = true -> isspace c = true.
Proof.
  destruct c as [b0 b1 b2 b3 b4 b5 b6 b7].
  destruct b0, b1, b2, b3, b4, b5, b6, b7; vm_compute; congruence.
Qed.

Lemma filter_nonspace_join (xs : list str) :
  filter nonspace (join space xs) = flat_map (filter nonspace) xs.
Proof.
  induction xs as [|x r IH]; [reflexivity|].
  destruct r as [|y r'].
  - simpl. now rewrite app_nil_r.
  - change (join space (x :: y :: r')) with (x ++ space ++ join space (y :: r')).
    rewrite !filter_app, IH. reflexivity.
Qed.

Lemma splitlines_aux_filter (n : nat) :
  forall (s cur : str), List.length s <= n ->
    flat_map (filter nonspace) (splitlines_aux cur s)
    = filter nonspace (rev cur ++ s).
Proof.
  induction n as [|n IH]; intros s cur Hn.
  - destruct s; [|simpl in Hn; lia]. simpl.
    destruct cur; simpl; now rewrite ?app_nil_r.
  - destruct s as [|c r].
    + simpl. destruct cur; simpl; now rewrite ?app_nil_r.
    + simpl in Hn. cbn [splitlines_aux]. destruct (is_linebreak c) eqn:Ec.
      * assert (Hc : nonspace c = false).
        { unfold nonspace. now rewrite (linebreak_isspace _ Ec). }
        rewrite filter_app. cbn [flat_map filter]. rewrite Hc. f_equal.
        destruct r as [|c' r']; [reflexivity|].
        destruct ((ord c =? 13) && (ord c' =? 10)) eqn:E.
        -- rewrite IH by (simpl in *; lia).
           apply andb_prop in E. destruct E as [_ E].
           assert (Hc' : nonspace c' = false).
           { apply Nat.eqb_eq in E. unfold nonspace, isspace. rewrite E.
             reflexivity. }
           cbn [rev app filter]. now rewrite Hc'.
        -- rewrite IH by (simpl in *; lia). reflexivity.
      * rewrite IH by lia. cbn [rev]. rewrite <- app_assoc. reflexivity.
Qed.

Lemma splitlines_filter (s : str) :
  flat_map (filter nonspace) (splitlines s) = filter nonspace s.
Proof. unfold splitlines. now rewrite (splitlines_aux_filter (List.length s)). Qed.

Lemma page_lines_filter (page_text : str) :
  flat_map (filter nonspace) (page_lines page_text) = filter nonspace page_text.
Proof.
  unfold page_lines. rewrite <- splitlines_filter.
  induction (splitlines page_text) as [|l r IH]; [reflexivity|].
  simpl. destruct (null (strip l)) eqn:E; simpl.
  - rewrite IH. apply null_true in E.
    rewrite <- (strip_filter l), E. reflexivity.
  - rewrite IH, strip_filter. reflexivity.
Qed.

Lemma page_lines_tight (page_text : str) : Forall tight (page_lines page_text).
Proof.
  unfold page_lines. apply Forall_forall. intros l Hl.
  apply in_map_iff in Hl. destruct Hl as (x & <- & Hx).
  apply filter_In in Hx. destruct Hx as [_ Hx].
  apply tight_strip. apply null_false. now destruct (null (strip x)).
Qed.

(** The loop over lines none of which is a heading only collects them. *)
Lemma line_loop_no_heading {F : Type} {N : Num F}
      (page_num : nat) (lines : list str) (a : acc) :
  (forall l, In l lines -> _is_heading l = Some false) ->
  line_loop page_num a lines
  = Some (mkAcc (current_title a) (current_lines a ++ lines) (sections a)).
Proof.
  revert a. induction lines as [|l r IH]; intros a H; simpl.
  - rewrite app_nil_r. now destruct a.
  - unfold line_step. rewrite (H l) by now left. simpl.
    rewrite IH by (intros; apply H; now right). simpl.
    now rewrite <- app_assoc.
Qed.

(* ------------------------------------------------------------------ *)
(** * The matcher and the language of a pattern *)

Lemma nullable_matches (r : re) : nullable r = true <-> matches r [].
Proof.
  split.
  - induction r as [| |p|a IHa b IHb|a IHa b IHb|a IHa]; simpl; intros H;
      try discriminate.
    + constructor.
    + apply andb_prop in H. destruct H as [Ha Hb].
      change (@nil ascii) with (@nil ascii ++ []). constructor; auto.
    + apply orb_prop in H. destruct H as [H|H];
        [apply m_alt_l|apply m_alt_r]; auto.
    + constructor.
  - intros H. remember (@nil ascii) as s eqn:Es.
    induction H as [|p c Hp|a b s t Ha IHa Hb IHb|a b s Ha IHa|a b s Hb IHb
                   |a|a s t Ha IHa Hs IHs]; simpl; try reflexivity.
    + discriminate.
    + apply app_eq_nil in Es. destruct Es as [-> ->].
      now rewrite IHa, IHb.
    + now rewrite IHa.
    + rewrite IHb by assumption. apply orb_true_r.
Qed.

Lemma deriv_sound (c : ascii) (r : re) :
  forall s, matches (deriv c r) s -> matches r (c :: s).
Proof.
  induction r as [| |p|a IHa b IHb|a IHa b IHb|a IHa]; simpl; intros s H.
  - inversion H.
  - inversion H.
  - destruct (p c) eqn:E; inversion H; subst. now constructor.
  - destruct (nullable a) eqn:En.
    + inversion H as [| | |? ? ? H1|? ? ? H1| |]; subst.
      * inversion H1 as [| |? ? s1 s2 Ha Hb| | | |]; subst.
        change (c :: s1 ++ s2) with ((c :: s1) ++ s2). constructor; auto.
      * change (c :: s) with ([] ++ c :: s). constructor; auto.
        now apply nullable_matches.
    + inversion H as [| |? ? s1 s2 Ha Hb| | | |]; subst.
      change (c :: s1 ++ s2) with ((c :: s1) ++ s2). constructor; auto.
  - inversion H; subst; [apply m_alt_l|apply m_alt_r]; auto.
  - inversion H as [| |? ? s1 s2 Ha Hb| | | |]; subst.
    change (c :: s1 ++ s2) with ((c :: s1) ++ s2). constructor; auto.
Qed.

Lemma deriv_complete (r : re) (t : str) :
  matches r t -> forall c s, t = c :: s -> matches (deriv c r) s.
Proof.
  intros H.
  induction H as [|p c0 Hp|a b s1 t1 Ha IHa Hb IHb|a b s1 Ha IHa|a b s1 Hb IHb
                 |a|a s1 t1 Ha IHa Hs IHs]; intros c s E; simpl.
  - discriminate.
  - injection E as -> <-. rewrite Hp. constructor.
  - destruct s1 as [|d s1'].
    + simpl in E. subst t1.
      assert (En : nullable a = true) by now apply nullable_matches.
      rewrite En. apply m_alt_r. now apply IHb.
    + simpl in E. injection E as -> <-.
      assert (Hs : matches (Seq (deriv c a) b) (s1' ++ t1))
        by (constructor; [now apply IHa|exact Hb]).
      destruct (nullable a); [now apply m_alt_l|exact Hs].
  - apply m_alt_l. now apply IHa.
  - apply m_alt_r. now apply IHb.
  - discriminate.
  - destruct s1 as [|d s1'].
    + simpl in E. now apply IHs.
    + simpl in E. injection E as -> <-.
      constructor; [now apply IHa|exact Hs].
Qed.

(** [match_prefix] decides whether a prefix of the string is in the language
    of the pattern. *)
Lemma match_prefix_spec (s : str) :
  forall r, match_prefix r s = true
            <-> exists p q, s = p ++ q /\ matches r p.
Proof.
  induction s as [|c rest IH]; intros r; simpl.
  - rewrite orb_false_r. rewrite nullable_matches. split.
    + intros H. now exists [], [].
    + intros (p & q & E & H). symmetry in E. apply app_eq_nil in E.
      destruct E as [-> _]. exact H.
  - split.
    + intros H. apply orb_prop in H. destruct H as [H|H].
      * exists [], (c :: rest). split; [reflexivity|now apply nullable_matches].
      * apply IH in H. destruct H as (p & q & -> & H).
        exists (c :: p), q. split; [reflexivity|now apply deriv_sound].
    + intros (p & q & E & H). destruct p as [|d p].
      * apply nullable_matches in H. now rewrite H.
      * simpl in E. injection E as <- ->.
        apply orb_true_iff. right. apply IH. exists p, q.
        split; [reflexivity|]. exact (deriv_complete r (c :: p) H c p eq_refl).
Qed.

(* ------------------------------------------------------------------ *)
(** * The segmenter: properties *)

(** Two heading lines in a row: the first is flushed with an empty body. *)
Lemma consecutive_headings_flush {F : Type} {N : Num F}
      (page_num : nat) (h1 h2 : str) (secs : list Section) :
  _is_heading h1 = Some true ->
  _is_heading h2 = Some true ->
  line_loop page_num (mkAcc None [] secs) [h1; h2]
  = Some (mkAcc (Some h2) []
                (secs ++ [mkSection (Some h1) (Some []) (Some page_num) None])).
Proof.
  intros H1 H2. simpl. unfold line_step. rewrite H1. simpl. rewrite H2.
  reflexivity.
Qed.

(** C1 (the code departs from the claim).  On the page
    ["1. Introduction" / "2. Methods" / "We analyze the data."] the heading
    "1. Introduction", which is directly followed by the heading
    "2. Methods", is emitted as a section whose text is empty: the flush
    inside the loop over the lines does not test the body.  The flush at the
    end of the page does: on ["1. Introduction" / "Some body text." /
    "2. Methods"] the last heading, whose body is empty, gives no section. *)
Theorem heading_followed_by_heading :
  @parse_page float _ [] 1
     (lit "1. Introduction" ++ nl ++ lit "2. Methods" ++ nl
      ++ lit "We analyze the data.")
  = Some [mkSection (Some (lit "1. Introduction")) (Some []) (Some 1) None;
          mkSection (Some (lit "2. Methods"))
                    (Some (lit "We analyze the data.")) (Some 1) None]
  /\
  @parse_page float _ [] 1
     (lit "1. Introduction" ++ nl ++ lit "Some body text." ++ nl
      ++ lit "2. Methods")
  = Some [mkSection (Some (lit "1. Introduction"))
                    (Some (lit "Some body text.")) (Some 1) None].
Proof. split; vm_compute; reflexivity. Qed.

(** A line accepted by the pattern of [_is_heading], and not excluded by the
    two length rules, is a heading. *)
Lemma enumeration_is_heading {F : Type} {N : Num F} (line : str) :
  strip line <> [] ->
  List.length (strip line) <= 100 ->
  List.length (split (strip line)) <= 15 ->
  match_prefix enum_re (strip line) = true ->
  _is_heading line = Some true.
Proof.
  intros H0 H1 H2 H3. unfold _is_heading.
  apply null_false in H0. rewrite H0.
  assert (E1 : (100 <? List.length (strip line)) = false) by (apply Nat.ltb_ge; lia).
  assert (E2 : (15 <? List.length (split (strip line))) = false)
    by (apply Nat.ltb_ge; lia).
  now rewrite E1, E2, H3.
Qed.

(** C2 (the code departs from the claim).  The line
    "2.3 the quick brown fox" has 23 characters and 5 words and starts with
    the enumeration label "2.3 ", yet [_is_heading] answers [False]: the
    pattern asks for a period after the label "2.3", so that "2.3. " is
    accepted and "2.3 " is not. *)
Theorem enumeration_2_3_not_heading :
  let line := lit "2.3 the quick brown fox" in
  (List.length (strip line) <=? 100) = true
  /\ (List.length (split (strip line)) <=? 15) = true
  /\ startswith (lit "2.3 ") line = true
  /\ match_prefix enum_re (strip line) = false
  /\ @_is_heading float _ line = Some false
  /\ @_is_heading float _ (lit "2.3. the quick brown fox") = Some true
  /\ @_is_heading float _ (lit "1. the quick brown fox") = Some true
  /\ @_is_heading float _ (lit "A. the quick brown fox") = Some true.
Proof. vm_compute. repeat split; reflexivity. Qed.

(** C8.  A page with at least one non-empty line and no heading line gives
    exactly one section, titled "Page N", on page N, whose text is the
    non-empty lines of the page, stripped and joined by single spaces: it
    holds every character of the page that is not whitespace, in order. *)
Theorem page_without_heading {F : Type} {N : Num F}
        (secs : list Section) (page_num : nat) (page_text : str) :
  page_lines page_text <> [] ->
  (forall l, In l (page_lines page_text) -> _is_heading l = Some false) ->
  exists body,
    parse_page secs page_num page_text
    = Some (secs ++ [mkSection (Some (lit "Page " ++ str_of_nat page_num))
                               (Some body) (Some page_num) None])
    /\ body = join space (page_lines page_text)
    /\ body <> []
    /\ filter nonspace body = filter nonspace page_text.
Proof.
  intros Hne Hno. exists (join space (page_lines page_text)).
  assert (Ht : tight (join space (page_lines page_text)))
    by (apply tight_join; [exact Hne | apply page_lines_tight]).
  repeat split.
  - unfold parse_page. rewrite (line_loop_no_heading _ _ _ Hno). simpl.
    apply null_false in Hne. rewrite Hne. simpl.
    now rewrite (strip_tight _ Ht).
  - intros E. rewrite E in Ht. destruct Ht as [[] _].
  - rewrite filter_nonspace_join. apply page_lines_filter.
Qed.

Lemma page_without_heading_witness :
  exists body,
    @parse_page float _ [] 7
       (lit "  hello there my friend " ++ nl ++ nl ++ lit "we analyze the data.")
    = Some [mkSection (Some (lit "Page 7")) (Some body) (Some 7) None]
    /\ body = lit "hello there my friend we analyze the data.".
Proof.
  destruct (@page_without_heading float _ [] 7
              (lit "  hello there my friend " ++ nl ++ nl
               ++ lit "we analyze the data."))
    as (body & H1 & H2 & _).
  - vm_compute. discriminate.
  - intros l Hl.
    assert (E : page_lines (lit "  hello there my friend " ++ nl ++ nl
                            ++ lit "we analyze the data.")
                = [lit "hello there my friend"; lit "we analyze the data."])
      by (vm_compute; reflexivity).
    rewrite E in Hl. destruct Hl as [<-|[<-|[]]]; vm_compute; reflexivity.
  - exists body. split; [exact H1|]. rewrite H2. vm_compute. reflexivity.
Defined.

(** C10.  [parse_pdf] ends in [ValueError] exactly when [os.path.exists]
    denies the path or the lower-cased path does not end in ".pdf"; this is
    also exactly when it has run no command at all ([pdfinfo] comes before
    any page extraction).  Building the sections of a page raises nothing,
    whatever the text of the page and the sections collected before it, so
    [parse_pdf] never ends in [ZeroDivisionError]. *)
Theorem parse_pdf_value_error {F : Type} {N : Num F} (w : World) (filepath : str) :
  (snd (parse_pdf w filepath) = ValueError
   <-> path_exists w filepath = false
       \/ endswith (lower filepath) (lit ".pdf") = false)
  /\ (fst (parse_pdf w filepath) = []
      <-> path_exists w filepath = false
          \/ endswith (lower filepath) (lit ".pdf") = false)
  /\ (forall secs page_num page_text,
        exists secs', parse_page secs page_num page_text = Some secs')
  /\ snd (parse_pdf w filepath) <> ZeroDivisionError.
Proof.
  unfold parse_pdf.
  destruct (path_exists w filepath) eqn:Ep;
    destruct (endswith (lower filepath) (lit ".pdf")) eqn:Ee; simpl;
    try (repeat split; intros; auto using parse_page_total;
         try discriminate; fail).
  destruct (run_pdfinfo w filepath) as [n|]; simpl.
  - destruct (page_loop_outcome w filepath (seq 1 n) [Pdfinfo filepath] [])
      as [secs' Hs].
    assert (Hl : fst (page_loop w filepath (seq 1 n) [Pdfinfo filepath] []) <> []).
    { assert (G : forall pages log secs, log <> [] ->
                    fst (page_loop w filepath pages log secs) <> []).
      { induction pages as [|p r IH]; intros log secs Hlog; simpl; [exact Hlog|].
        assert (Hlog' : log ++ [Pdftotext filepath p] <> [])
          by (destruct log; discriminate).
        destruct (run_pdftotext w filepath p) as [t|]; [|now apply IH].
        destruct (parse_page secs p t); [now apply IH|exact Hlog']. }
      apply G. discriminate. }
    rewrite Hs. repeat split; intros; auto using parse_page_total;
      try discriminate; try contradiction.
    + destruct H; discriminate.
    + destruct H; discriminate.
  - repeat split; intros; auto using parse_page_total; try discriminate.
    + destruct H; discriminate.
    + destruct H; discriminate.
Qed.

(* ------------------------------------------------------------------ *)
(** * Facts about [mapM] *)

Lemma mapM_map {A B : Type} (f : A -> option B) (g : A -> B) (l : list A) :
  (forall a, In a l -> f a = Some (g a)) -> mapM f l = Some (map g l).
Proof.
  induction l as [|a r IH]; intros H; simpl; [reflexivity|].
  rewrite (H a) by now left. simpl.
  rewrite IH by (intros; apply H; now right). reflexivity.
Qed.

Lemma mapM_total {A B : Type} (f : A -> option B) (l : list A) :
  (forall a, In a l -> exists b, f a = Some b) -> exists bs, mapM f l = Some bs.
Proof.
  induction l as [|a r IH]; intros H; simpl; [now eexists|].
  destruct (H a) as [b ->]; [now left|]. simpl.
  destruct IH as [bs ->]; [intros; apply H; now right|]. simpl. now eexists.
Qed.

Lemma mapM_Forall2 {A B : Type} (f : A -> option B) (l : list A) (bs : list B) :
  mapM f l = Some bs -> Forall2 (fun a b => f a = Some b) l bs.
Proof.
  revert bs. induction l as [|a r IH]; intros bs H; simpl in H.
  - injection H as <-. constructor.
  - destruct (f a) as [b|] eqn:Ea; [|discriminate]. simpl in H.
    destruct (mapM f r) as [bs'|]; [|discriminate]. simpl in H.
    injection H as <-. constructor; [exact Ea|now apply IH].
Qed.

Lemma mapM_length {A B : Type} (f : A -> option B) (l : list A) (bs : list B) :
  mapM f l = Some bs -> List.length bs = List.length l.
Proof.
  intros H. apply mapM_Forall2 in H. symmetry. eapply Forall2_length, H.
Qed.

(* ------------------------------------------------------------------ *)
(** * Exact arithmetic *)

Local Open Scope R_scope.

Lemma fzero_R : (fzero : R) = 0.
Proof. reflexivity. Qed.

Lemma fone_R : (fone : R) = 1.
Proof. reflexivity. Qed.

Lemma Rltb_true (x y : R) : Rltb x y = true <-> x < y.
Proof. unfold Rltb. destruct (Rlt_dec x y); split; intros; (lra || congruence). Qed.

Lemma Rltb_false (x y : R) : Rltb x y = false <-> y <= x.
Proof. unfold Rltb. destruct (Rlt_dec x y); split; intros; (lra || congruence). Qed.

Lemma Reqb_true (x y : R) : Reqb x y = true <-> x = y.
Proof. unfold Reqb. destruct (Req_dec_T x y); split; intros; congruence. Qed.

Lemma Reqb_false (x y : R) : Reqb x y = false <-> x <> y.
Proof. unfold Reqb. destruct (Req_dec_T x y); split; intros; congruence. Qed.

Lemma int_div_R (a b : nat) :
  b <> 0%nat -> int_div a b = Some (INR a / INR b).
Proof.
  intros H. unfold int_div. apply Nat.eqb_neq in H. now rewrite H.
Qed.

Lemma float_div_R (x y : R) : y <> 0 -> float_div x y = Some (x / y).
Proof.
  intros H. unfold float_div. change (feqb y fzero) with (Reqb y 0).
  apply Reqb_false in H. now rewrite H.
Qed.

Lemma fmax_list_R (rest : list R) (x : R) :
  In (fmax_list x rest) (x :: rest)
  /\ forall y, In y (x :: rest) -> y <= fmax_list x rest.
Proof.
  unfold fmax_list. change (@fltb R R_Num) with Rltb.
  revert x. induction rest as [|z r IH]; intros x.
  - simpl. split; [now left|]. intros y [<-|[]]. lra.
  - cbn [fold_left]. destruct (IH (if Rltb x z then z else x)) as [Hin Hle].
    destruct (Rltb x z) eqn:E.
    + apply Rltb_true in E. split.
      * destruct Hin as [Hin|Hin]; [right; left; exact Hin|right; now right].
      * intros y [<-|[<-|Hy]].
        -- specialize (Hle z (or_introl eq_refl)). lra.
        -- apply Hle. now left.
        -- apply Hle. now right.
    + apply Rltb_false in E. split.
      * destruct Hin as [Hin|Hin]; [left; exact Hin|right; now right].
      * intros y [<-|[<-|Hy]].
        -- apply Hle. now left.
        -- specialize (Hle x (or_introl eq_refl)). lra.
        -- apply Hle. now right.
Qed.

Lemma fmin_list_R (rest : list R) (x : R) :
  In (fmin_list x rest) (x :: rest)
  /\ forall y, In y (x :: rest) -> fmin_list x rest <= y.
Proof.
  unfold fmin_list. change (@fltb R R_Num) with Rltb.
  revert x. induction rest as [|z r IH]; intros x.
  - simpl. split; [now left|]. intros y [<-|[]]. lra.
  - cbn [fold_left]. destruct (IH (if Rltb z x then z else x)) as [Hin Hle].
    destruct (Rltb z x) eqn:E.
    + apply Rltb_true in E. split.
      * destruct Hin as [Hin|Hin]; [right; left; exact Hin|right; now right].
      * intros y [<-|[<-|Hy]].
        -- specialize (Hle z (or_introl eq_refl)). lra.
        -- apply Hle. now left.
        -- apply Hle. now right.
    + apply Rltb_false in E. split.
      * destruct Hin as [Hin|Hin]; [left; exact Hin|right; now right].
      * intros y [<-|[<-|Hy]].
        -- apply Hle. now left.
        -- specialize (Hle x (or_introl eq_refl)). lra.
        -- apply Hle. now right.
Qed.

Lemma map_const_repeat {A B : Type} (b : B) (l : list A) :
  map (fun _ => b) l = repeat b (List.length l).
Proof. induction l; simpl; congruence. Qed.

(** What [normalise] computes in exact arithmetic. *)
Lemma normalise_R (arr : list R) :
  arr <> [] ->
  exists mn mx,
    In mn arr /\ In mx arr /\ (forall y, In y arr -> mn <= y <= mx)
    /\ normalise arr
       = Some (if Reqb mx mn then repeat 0 (List.length arr)
               else map (fun y => (y - mn) / (mx - mn)) arr).
Proof.
  destruct arr as [|x rest]; [contradiction|]. intros _.
  destruct (fmax_list_R rest x) as [Hxin Hxle].
  destruct (fmin_list_R rest x) as [Hnin Hnle].
  exists (fmin_list x rest), (fmax_list x rest).
  repeat split; auto.
  unfold normalise. simpl feqb.
  destruct (Reqb (fmax_list x rest) (fmin_list x rest)) eqn:E.
  - now rewrite map_const_repeat.
  - apply Reqb_false in E. apply mapM_map. intros a _.
    apply float_div_R. simpl fsub. lra.
Qed.

Lemma normalise_R_range (arr out : list R) :
  normalise arr = Some out ->
  List.length out = List.length arr /\ Forall (fun v => 0 <= v <= 1) out.
Proof.
  intros H. destruct (null arr) eqn:En.
  - apply null_true in En. subst arr. simpl in H. injection H as <-.
    split; [reflexivity|constructor].
  - apply null_false in En.
    destruct (normalise_R _ En) as (mn & mx & Hn & Hx & Hb & E).
    rewrite E in H. injection H as <-.
    destruct (Reqb mx mn) eqn:Eq.
    + split; [apply repeat_length|].
      apply Forall_forall. intros v Hv. apply repeat_spec in Hv. subst. lra.
    + apply Reqb_false in Eq. split; [apply length_map|].
      apply Forall_forall. intros v Hv. apply in_map_iff in Hv.
      destruct Hv as (y & <- & Hy).
      assert (Hlt : 0 < mx - mn).
      { pose proof (Hb mx Hx). lra. }
      specialize (Hb y Hy).
      split.
      * apply Rmult_le_pos; [lra|]. left. now apply Rinv_0_lt_compat.
      * apply Rmult_le_reg_r with (r := mx - mn); [exact Hlt|].
        unfold Rdiv. rewrite Rmult_assoc, Rinv_l by lra. lra.
Qed.

(** C7.  On a non-empty array, [normalise] returns an array of the same
    length with every entry in [0,1]: all zeros when all the values are
    equal, and otherwise each value [y] mapped to
    [(y - min) / (max - min)], where [min] and [max] are the least and the
    greatest value of the array. *)
Theorem normalise_min_max (arr : list R) :
  arr <> [] ->
  exists mn mx out,
    In mn arr /\ In mx arr /\ (forall y, In y arr -> mn <= y <= mx)
    /\ normalise arr = Some out
    /\ List.length out = List.length arr
    /\ Forall (fun v => 0 <= v <= 1) out
    /\ ((forall y z, In y arr -> In z arr -> y = z) ->
        out = repeat 0 (List.length arr))
    /\ (~ (forall y z, In y arr -> In z arr -> y = z) ->
        mn < mx /\ out = map (fun y => (y - mn) / (mx - mn)) arr).
Proof.
  intros Hne. destruct (normalise_R _ Hne) as (mn & mx & Hn & Hx & Hb & E).
  destruct (normalise_R_range _ _ E) as [Hlen Hrange].
  exists mn, mx. eexists.
  split; [exact Hn|]. split; [exact Hx|]. split; [exact Hb|].
  split; [exact E|]. split; [exact Hlen|]. split; [exact Hrange|]. split.
  - intros Hall. rewrite (Hall mx mn Hx Hn).
    assert (T : Reqb mn mn = true) by now apply Reqb_true. now rewrite T.
  - intros Hnot.
    destruct (Reqb mx mn) eqn:Eq.
    + exfalso. apply Hnot. apply Reqb_true in Eq. intros y z Hy Hz.
      pose proof (Hb y Hy). pose proof (Hb z Hz). lra.
    + apply Reqb_false in Eq. split; [|reflexivity].
      specialize (Hb mx Hx). lra.
Qed.

Lemma normalise_min_max_witness :
  exists out,
    normalise [1; 3; 2] = Some out
    /\ out = map (fun y => (y - 1) / (3 - 1)) [1; 3; 2].
Proof.
  destruct (normalise_min_max [1; 3; 2]) as (mn & mx & out & Hn & Hx & Hb & E & _ & _ & _ & Hd);
    [discriminate|].
  exists out. split; [exact E|].
  assert (Hmn : mn = 1).
  { pose proof (Hb 1 (or_introl eq_refl)).
    destruct Hn as [<-|[<-|[<-|[]]]]; lra. }
  assert (Hmx : mx = 3).
  { specialize (Hb 3 (or_intror (or_introl eq_refl))) as ?.
    destruct Hx as [<-|[<-|[<-|[]]]]; lra. }
  subst. apply Hd. intros Hall.
  specialize (Hall 1 3 (or_introl eq_refl) (or_intror (or_introl eq_refl))). lra.
Defined.

Local Close Scope R_scope.

(* ------------------------------------------------------------------ *)
(** * Binary64: two norms and their product

    [Prim2SF] reads a binary64 number as a sign, a mantissa [m] and an
    exponent [e], of value [m * 2^e]; the least positive number is
    [2^-1074].  A square root that is not zero is at least [2^-537], so the
    product of two of them is at least [2^-1074] and does not round to
    zero. *)

Local Open Scope Z_scope.














Local Close Scope Z_scope.










Local Open Scope R_scope.

(* ------------------------------------------------------------------ *)
(** * Cosine similarity in exact arithmetic *)

Lemma fold_left_Rplus (l : list R) (a : R) : fold_left Rplus l a = a + Rsum l.
Proof.
  revert a. induction l as [|x r IH]; intros a; simpl; [lra|].
  rewrite IH. lra.
Qed.

Lemma fsum_R (l : list R) : fsum l = Rsum l.
Proof. unfold fsum. simpl fadd. rewrite fold_left_Rplus, fzero_R. lra. Qed.

Lemma dot_product_R (a b : dict R) : dot_product a b = dotR a b.
Proof.
  unfold dot_product, dotR. simpl fadd. simpl fmul. rewrite fzero_R.
  assert (G : forall l acc,
             fold_left (fun dot (wv : str * R) => dot + snd wv * get_or b (fst wv) 0) l acc
             = acc + Rsum (map (fun wv : str * R => snd wv * getR b (fst wv)) l)).
  { induction l as [|x r IH]; intros acc; simpl; [lra|].
    rewrite IH. unfold getR. lra. }
  rewrite G. lra.
Qed.

Lemma norm_R (a : dict R) : norm a = R_sqrt.sqrt (sqR a).
Proof. unfold norm, sqR. simpl fsqrt. now rewrite fsum_R. Qed.

Lemma str_eqb_eq (a b : str) : str_eqb a b = true <-> a = b.
Proof. unfold str_eqb. destruct (list_eq_dec ascii_dec a b); split; congruence. Qed.

Lemma str_eqb_neq (a b : str) : str_eqb a b = false <-> a <> b.
Proof. unfold str_eqb. destruct (list_eq_dec ascii_dec a b); split; congruence. Qed.

Lemma str_eqb_refl (a : str) : str_eqb a a = true.
Proof. now apply str_eqb_eq. Qed.

Lemma getR_cons (k' : str) (v : R) (r : dict R) (k : str) :
  getR ((k', v) :: r) k = if str_eqb k' k then v else getR r k.
Proof. unfold getR, get_or. simpl. now destruct (str_eqb k' k). Qed.

Lemma getR_notin (d : dict R) (k : str) : ~ In k (keys d) -> getR d k = 0.
Proof.
  induction d as [|[k' v] r IH]; intros H; [reflexivity|].
  rewrite getR_cons. destruct (str_eqb k' k) eqn:E.
  - apply str_eqb_eq in E. exfalso. apply H. now left.
  - apply IH. intros Hin. apply H. now right.
Qed.

Lemma dotR_cons_r (b : dict R) (k : str) (v : R) (a' : dict R) :
  NoDup (keys b) -> ~ In k (keys a') ->
  dotR b ((k, v) :: a') = v * getR b k + dotR b a'.
Proof.
  intros Hb Hk. induction b as [|[w u] b' IH]; unfold dotR in *; simpl.
  - unfold getR, get_or. simpl. lra.
  - inversion Hb as [|? ? Hw Hb']; subst. rewrite (IH Hb').
    rewrite !getR_cons. destruct (str_eqb k w) eqn:E.
    + apply str_eqb_eq in E. subst w. rewrite str_eqb_refl.
      rewrite (getR_notin _ _ Hw), (getR_notin _ _ Hk). lra.
    + assert (E' : str_eqb w k = false).
      { apply str_eqb_neq. apply str_eqb_neq in E. congruence. }
      rewrite E'. lra.
Qed.

Lemma dotR_sym (a b : dict R) :
  NoDup (keys a) -> NoDup (keys b) -> dotR a b = dotR b a.
Proof.
  intros Ha Hb. induction a as [|[k v] a' IH].
  - unfold dotR. simpl. induction b as [|[w u] b' IHb]; simpl; [reflexivity|].
    inversion Hb; subst. rewrite <- IHb by assumption.
    unfold getR, get_or. simpl. lra.
  - inversion Ha as [|? ? Hk Ha']; subst.
    rewrite (dotR_cons_r _ _ v _ Hb Hk), <- (IH Ha').
    unfold dotR. simpl. reflexivity.
Qed.

Lemma Rsum_nonneg (l : list R) : (forall x, In x l -> 0 <= x) -> 0 <= Rsum l.
Proof.
  induction l as [|x r IH]; intros H; simpl; [lra|].
  pose proof (H x (or_introl eq_refl)).
  assert (0 <= Rsum r) by (apply IH; intros; apply H; now right). lra.
Qed.

Lemma sqR_nonneg (a : dict R) : 0 <= sqR a.
Proof.
  apply Rsum_nonneg. intros x Hx. apply in_map_iff in Hx.
  destruct Hx as (v & <- & _). nra.
Qed.

(** The Cauchy-Schwarz inequality on a list of pairs. *)
Lemma cauchy_schwarz (l : list (R * R)) :
  Rsum (map (fun p => fst p * snd p) l) * Rsum (map (fun p => fst p * snd p) l)
  <= Rsum (map (fun p => fst p * fst p) l) * Rsum (map (fun p => snd p * snd p) l).
Proof.
  induction l as [|[x y] r IH]; simpl; [lra|].
  set (C := Rsum (map (fun p => fst p * snd p) r)) in *.
  set (A := Rsum (map (fun p => fst p * fst p) r)) in *.
  set (B := Rsum (map (fun p => snd p * snd p) r)) in *.
  assert (HA : 0 <= A).
  { apply Rsum_nonneg. intros z Hz. apply in_map_iff in Hz.
    destruct Hz as (p & <- & _). nra. }
  assert (HB : 0 <= B).
  { apply Rsum_nonneg. intros z Hz. apply in_map_iff in Hz.
    destruct Hz as (p & <- & _). nra. }
  assert (H2 : 2 * C * (x * y) <= A * (y * y) + B * (x * x)).
  { destruct (Rle_lt_dec (2 * C * (x * y)) (A * (y * y) + B * (x * x)))
      as [Hle|Hgt]; [exact Hle|exfalso].
    assert (H0 : 0 <= A * (y * y) + B * (x * x)) by nra.
    assert (Hs : (A * (y * y) + B * (x * x)) * (A * (y * y) + B * (x * x))
                 < (2 * C * (x * y)) * (2 * C * (x * y))) by nra.
    assert (Hc : (C * C) * ((x * y) * (x * y)) <= (A * B) * ((x * y) * (x * y))).
    { apply Rmult_le_compat_r; [nra|exact IH]. }
    pose proof (Rle_0_sqr (A * (y * y) - B * (x * x))) as Hd. unfold Rsqr in Hd.
    clear - Hs Hc Hd. lra. }
  clear - IH H2. lra.
Qed.

Lemma sum_get_sq_step (g : str -> R) (w : str) (u : R) (ks : list str) :
  NoDup ks ->
  Rsum (map (fun k => (if str_eqb w k then u else g k)
                      * (if str_eqb w k then u else g k)) ks)
  <= u * u + Rsum (map (fun k => g k * g k) ks).
Proof.
  induction ks as [|k ks' IH]; intros Hnd; simpl; [nra|].
  inversion Hnd as [|? ? Hk Hnd']; subst. specialize (IH Hnd').
  destruct (str_eqb w k) eqn:E.
  - apply str_eqb_eq in E. subst k.
    assert (Heq : Rsum (map (fun k => (if str_eqb w k then u else g k)
                                      * (if str_eqb w k then u else g k)) ks')
                  = Rsum (map (fun k => g k * g k) ks')).
    { f_equal. apply map_ext_in. intros k Hin.
      assert (E : str_eqb w k = false).
      { apply str_eqb_neq. intros ->. contradiction. }
      now rewrite E. }
    rewrite Heq. nra.
  - nra.
Qed.

Lemma sum_get_sq (b : dict R) (ks : list str) :
  NoDup ks -> Rsum (map (fun k => getR b k * getR b k) ks) <= sqR b.
Proof.
  intros Hnd. induction b as [|[w u] b' IH].
  - unfold sqR, getR, get_or. simpl.
    induction ks as [|k ks' IHk]; simpl; [lra|].
    inversion Hnd; subst. specialize (IHk H2). lra.
  - unfold sqR in *. simpl.
    eapply Rle_trans; [|apply Rplus_le_compat_l, IH].
    eapply Rle_trans; [|apply (sum_get_sq_step (getR b') w u _ Hnd)].
    right. f_equal. apply map_ext. intros k. now rewrite getR_cons.
Qed.

Lemma dotR_sq_le (a b : dict R) :
  NoDup (keys a) -> dotR a b * dotR a b <= sqR a * sqR b.
Proof.
  intros Ha.
  pose proof (cauchy_schwarz (map (fun wv : str * R => (snd wv, getR b (fst wv))) a))
    as H.
  rewrite !map_map in H. simpl in H.
  fold (dotR a b) in H.
  assert (E1 : Rsum (map (fun x : str * R => snd x * snd x) a) = sqR a).
  { unfold sqR, values. now rewrite map_map. }
  assert (E2 : Rsum (map (fun x : str * R => getR b (fst x) * getR b (fst x)) a)
               <= sqR b).
  { pose proof (sum_get_sq b _ Ha) as G. unfold keys in G. now rewrite map_map in G. }
  rewrite E1 in H. pose proof (sqR_nonneg a). nra.
Qed.

Lemma dotR_nonneg (a b : dict R) :
  (forall v, In v (values a) -> 0 <= v) ->
  (forall v, In v (values b) -> 0 <= v) ->
  0 <= dotR a b.
Proof.
  intros Ha Hb. apply Rsum_nonneg. intros x Hx. apply in_map_iff in Hx.
  destruct Hx as ([w v] & <- & Hin). simpl.
  assert (0 <= v) by (apply Ha, in_map_iff; now exists (w, v)).
  assert (0 <= getR b w).
  { unfold getR, get_or. destruct (dict_get b w) as [u|] eqn:E; [|lra].
    apply Hb. clear - E. induction b as [|[k x] r IH]; simpl in *; [discriminate|].
    destruct (str_eqb k w); [injection E as ->; now left|right; auto]. }
  nra.
Qed.


Lemma cosine_R (a b : dict R) :
  NoDup (keys a) -> NoDup (keys b) ->
  _cosine_similarity a b
  = Some (if null a || null b then 0
          else if Reqb (R_sqrt.sqrt (sqR a)) 0 || Reqb (R_sqrt.sqrt (sqR b)) 0 then 0
          else dotR a b / (R_sqrt.sqrt (sqR a) * R_sqrt.sqrt (sqR b))).
Proof.
  intros Ha Hb. unfold _cosine_similarity.
  destruct (null a || null b); [reflexivity|].
  rewrite !norm_R. simpl feqb. rewrite fzero_R.
  destruct (Reqb (R_sqrt.sqrt (sqR a)) 0) eqn:E1; [reflexivity|].
  destruct (Reqb (R_sqrt.sqrt (sqR b)) 0) eqn:E2; [reflexivity|].
  simpl orb. cbv iota. apply Reqb_false in E1, E2.
  rewrite float_div_R by (simpl fmul; nra).
  rewrite !dot_product_R. simpl fmul.
  destruct (List.length a <? List.length b); [reflexivity|].
  now rewrite (dotR_sym _ _ Hb Ha).
Qed.



Local Close Scope R_scope.


(* ------------------------------------------------------------------ *)
(** * The relevance scorer in exact arithmetic *)

Local Open Scope R_scope.

Lemma cosine_R_total (a b : dict R) : exists c, _cosine_similarity a b = Some c.
Proof.
  unfold _cosine_similarity.
  destruct (null a || null b); [now eexists|].
  rewrite !norm_R. change (@feqb R R_Num) with Reqb. rewrite fzero_R.
  destruct (Reqb (R_sqrt.sqrt (sqR a)) 0) eqn:E1; [now eexists|].
  destruct (Reqb (R_sqrt.sqrt (sqR b)) 0) eqn:E2; [now eexists|].
  simpl orb. cbv iota. apply Reqb_false in E1, E2.
  rewrite float_div_R; [now eexists|]. simpl fmul. nra.
Qed.

Lemma compute_tf_total (words : list str) :
  exists d : dict R, _compute_tf words = Some d.
Proof.
  unfold _compute_tf. destruct (null words) eqn:E; [now eexists|].
  apply mapM_total. intros [w c] _. cbn [fst snd].
  rewrite int_div_R; [now eexists|].
  apply null_false in E. destruct words; [contradiction|discriminate].
Qed.

Lemma compute_idf_total (log : R -> R) (doc_tokens : list (list str)) :
  exists d : dict R, _compute_idf log doc_tokens = Some d.
Proof.
  unfold _compute_idf. apply mapM_total. intros [w c] _. cbn [fst snd].
  rewrite int_div_R by discriminate. now eexists.
Qed.

Lemma semantic_total (log : R -> R) (sections : list Section) (query : str) :
  exists l, compute_semantic_similarity log sections query = Some l.
Proof.
  unfold compute_semantic_similarity.
  destruct (compute_idf_total log
              (_tokenize query
               :: map (fun sec => _tokenize (get_str (text sec))) sections))
    as [idf ->].
  destruct (compute_tf_total (_tokenize query)) as [qtf ->]. simpl.
  apply mapM_total. intros tokens _.
  destruct (compute_tf_total tokens) as [tf ->]. simpl.
  apply cosine_R_total.
Qed.

Lemma persona_match_total (sections : list Section) (persona_role : str) :
  exists l : list R, compute_persona_match sections persona_role = Some l.
Proof.
  unfold compute_persona_match. apply mapM_total. intros sec _. cbv zeta.
  destruct (null (to_set (split (_clean_text persona_role)))) eqn:E;
    [now eexists|].
  destruct (null (to_set (split (_clean_text (get_str (text sec)))))) eqn:E2;
    cbn [orb]; [now eexists|].
  rewrite int_div_R; [now eexists|].
  apply null_false in E.
  destruct (to_set (split (_clean_text persona_role))); [contradiction|discriminate].
Qed.

Lemma actionability_total (sections : list Section) :
  exists l : list R, compute_actionability sections = Some l.
Proof.
  unfold compute_actionability. apply mapM_total. intros sec _. cbv zeta.
  destruct (null (split (_clean_text (get_str (text sec))))) eqn:E; [now eexists|].
  rewrite int_div_R; [now eexists|].
  apply null_false in E.
  destruct (split (_clean_text (get_str (text sec)))); [contradiction|discriminate].
Qed.

Local Close Scope R_scope.

Lemma add_doc_nonempty (d : dict (list str)) (title doc : str) :
  Forall (fun td => snd td <> []) d ->
  Forall (fun td => snd td <> []) (add_doc d title doc).
Proof.
  induction d as [|[t docs] r IH]; intros H; simpl.
  - constructor; [discriminate|constructor].
  - inversion H as [|? ? Hd Hr]; subst. destruct (str_eqb t title).
    + constructor; [|exact Hr]. simpl. destruct (mem doc docs); [exact Hd|].
      destruct docs; discriminate.
    + constructor; [exact Hd|now apply IH].
Qed.

Lemma title_counts_nonempty (sections : list Section) :
  Forall (fun td => snd td <> []) (title_counts sections).
Proof.
  unfold title_counts.
  assert (G : forall secs d, Forall (fun td : str * list str => snd td <> []) d ->
              Forall (fun td : str * list str => snd td <> [])
                     (fold_left (fun d sec =>
                                   add_doc d (get_str (section_title sec))
                                           (get_str (document sec))) secs d)).
  { induction secs as [|s r IH]; intros d H; simpl; [exact H|].
    apply IH. now apply add_doc_nonempty. }
  apply G. constructor.
Qed.

Lemma max_nat_ge (l : list nat) (x : nat) : In x l -> x <= max_nat l.
Proof.
  unfold max_nat.
  assert (G : forall l a, a <= fold_left Nat.max l a
                          /\ forall x, In x l -> x <= fold_left Nat.max l a).
  { induction l0 as [|y r IH]; intros a; simpl; [split; [lia|tauto]|].
    destruct (IH (Nat.max a y)) as [H1 H2]. split; [lia|].
    intros z [<-|Hz]; [lia|now apply H2]. }
  apply G.
Qed.

Lemma max_freq_positive (sections : list Section) :
  (if null (freq_map sections) then 1 else max_nat (values (freq_map sections)))
  <> 0.
Proof.
  destruct (null (freq_map sections)) eqn:E; [discriminate|].
  apply null_false in E. unfold freq_map in *.
  pose proof (title_counts_nonempty sections) as H.
  destruct (title_counts sections) as [|[t docs] r]; [contradiction|].
  inversion H as [|? ? Hd _]; subst. simpl in Hd.
  match goal with |- ?m <> 0 => assert (Hm : 1 <= m); [|lia] end.
  apply Nat.le_trans with (m := List.length docs).
  - destruct docs; [contradiction|simpl; lia].
  - apply max_nat_ge. now left.
Qed.

Lemma cross_document_total (sections : list Section) :
  exists l : list R, compute_cross_document_importance sections = Some l.
Proof.
  unfold compute_cross_document_importance. cbv zeta.
  apply mapM_total. intros sec _.
  rewrite int_div_R by apply max_freq_positive. now eexists.
Qed.

Local Open Scope R_scope.

Lemma dec_R (n d : nat) : (dec n d : R) = INR n / INR d.
Proof. reflexivity. Qed.

(** The weighted sum, with the weights of the source. *)
Lemma combine4_R (s p a c : R) :
  combine4 s p a c = 0.40 * s + 0.25 * p + 0.20 * a + 0.15 * c.
Proof.
  unfold combine4, WEIGHT_SEMANTIC, WEIGHT_PERSONA, WEIGHT_ACTION,
    WEIGHT_CROSS_DOC.
  rewrite !dec_R, !INR_IZR_INZ. simpl Z.of_nat.
  change (@fadd R R_Num) with Rplus. change (@fmul R R_Num) with Rmult. lra.
Qed.


Lemma nth_error_some {A : Type} (l : list A) (i : nat) :
  (i < List.length l)%nat -> exists x, nth_error l i = Some x.
Proof.
  intros H. destruct (nth_error l i) eqn:E; [now eexists|].
  apply nth_error_None in E. lia.
Qed.

Lemma normalise_R_total (arr : list R) :
  exists out, normalise arr = Some out
              /\ List.length out = List.length arr
              /\ Forall (fun v => 0 <= v <= 1) out.
Proof.
  destruct arr as [|x r] eqn:Ea.
  - exists []. repeat split. constructor.
  - destruct (normalise_R (x :: r)) as (mn & mx & _ & _ & _ & E); [discriminate|].
    eexists. split; [exact E|]. eapply normalise_R_range, E.
Qed.


Lemma semantic_length (log : R -> R) (sections : list Section) (query : str)
      (semantic : list R) :
  compute_semantic_similarity log sections query = Some semantic ->
  List.length semantic = List.length sections.
Proof.
  intros Hsem. unfold compute_semantic_similarity in Hsem.
  destruct (_compute_idf _ _); [|discriminate]. simpl in Hsem.
  destruct (_compute_tf _); [|discriminate]. simpl in Hsem.
  apply mapM_length in Hsem. now rewrite length_map in Hsem.
Qed.

(** [compute_relevance_scores] raises nothing in exact arithmetic. *)
Lemma relevance_scores_total
      (log : R -> R) (sections : list Section) (persona : Persona) (job : Job) :
  exists scores,
    compute_relevance_scores log sections persona job = Some scores
    /\ List.length scores = List.length sections.
Proof.
  unfold compute_relevance_scores. cbv zeta.
  match goal with
  | |- context [compute_semantic_similarity log sections ?q] =>
      destruct (semantic_total log sections q) as [semantic Hsem]
  end.
  match goal with
  | |- context [compute_persona_match sections ?r] =>
      destruct (persona_match_total sections r) as [pers Hpers]
  end.
  destruct (actionability_total sections) as [act Hact].
  destruct (cross_document_total sections) as [cross Hcross].
  rewrite Hsem, Hpers, Hact, Hcross. cbn [bind].
  destruct (normalise_R_total semantic) as (sem_norm & -> & Hl1 & _).
  destruct (normalise_R_total pers) as (pers_norm & -> & Hl2 & _).
  destruct (normalise_R_total act) as (act_norm & -> & Hl3 & _).
  destruct (normalise_R_total cross) as (cross_norm & -> & Hl4 & _).
  cbn [bind].
  pose proof (semantic_length _ _ _ _ Hsem) as Ls.
  pose proof (mapM_length _ _ _ Hpers) as Lp.
  pose proof (mapM_length _ _ _ Hact) as La.
  pose proof (mapM_length _ _ _ Hcross) as Lc.
  match goal with
  | |- exists scores, mapM ?body ?l = Some scores /\ _ =>
      destruct (mapM_total body l) as [scores Hscores]
  end.
  - intros i Hi. apply in_seq in Hi.
    destruct (nth_error_some sem_norm i) as [s ->]; [lia|].
    destruct (nth_error_some pers_norm i) as [p ->]; [lia|].
    destruct (nth_error_some act_norm i) as [a ->]; [lia|].
    destruct (nth_error_some cross_norm i) as [c ->]; [lia|].
    simpl. now eexists.
  - exists scores. split; [exact Hscores|].
    rewrite (mapM_length _ _ _ Hscores). apply length_seq.
Qed.




Local Close Scope R_scope.

(* ------------------------------------------------------------------ *)
(** * Facts about the sort *)

Section SortFacts.
Context {F : Type} {N : Num F} {A : Type}.

Lemma insert_desc_perm (x : A * F) (l : list (A * F)) :
  Permutation (insert_desc x l) (x :: l).
Proof.
  induction l as [|y r IH]; simpl; [apply Permutation_refl|].
  destruct (fltb (snd x) (snd y)); [|apply Permutation_refl].
  eapply Permutation_trans; [apply perm_skip, IH|apply perm_swap].
Qed.

Lemma sort_desc_perm (l : list (A * F)) : Permutation (sort_desc l) l.
Proof.
  induction l as [|x r IH]; simpl; [constructor|].
  eapply Permutation_trans; [apply insert_desc_perm|now apply perm_skip].
Qed.

(** Stability.  [P] selects keys none of which is less than another, for
    instance the keys equal to a given one: the selected elements keep
    their order. *)
Variable P : F -> bool.
Hypothesis P_class : forall a b, P a = true -> P b = true -> fltb a b = false.

Lemma insert_desc_filter (x : A * F) (l : list (A * F)) :
  filter (fun p => P (snd p)) (insert_desc x l)
  = filter (fun p => P (snd p)) (x :: l).
Proof.
  induction l as [|y r IH]; [reflexivity|].
  cbn [insert_desc]. destruct (fltb (snd x) (snd y)) eqn:E; [|reflexivity].
  cbn [filter] in *. rewrite IH.
  destruct (P (snd x)) eqn:Ex; destruct (P (snd y)) eqn:Ey; try reflexivity.
  rewrite (P_class _ _ Ex Ey) in E. discriminate.
Qed.

Lemma sort_desc_filter (l : list (A * F)) :
  filter (fun p => P (snd p)) (sort_desc l) = filter (fun p => P (snd p)) l.
Proof.
  induction l as [|x r IH]; [reflexivity|].
  cbn [sort_desc fold_right]. fold (sort_desc r).
  rewrite insert_desc_filter. cbn [filter]. now rewrite IH.
Qed.
End SortFacts.

(** The sort moves the elements by their keys only. *)
Lemma sort_desc_map {F : Type} {N : Num F} {A B : Type} (f : A -> B)
      (l : list (A * F)) :
  sort_desc (map (fun p => (f (fst p), snd p)) l)
  = map (fun p => (f (fst p), snd p)) (sort_desc l).
Proof.
  induction l as [|x r IH]; [reflexivity|].
  cbn [map sort_desc fold_right]. fold (sort_desc r).
  fold (sort_desc (map (fun p : A * F => (f (fst p), snd p)) r)). rewrite IH.
  generalize (sort_desc r) as s. clear IH. intros s.
  induction s as [|y s IHs]; [reflexivity|].
  cbn [map insert_desc snd]. destruct (fltb (snd x) (snd y)); [|reflexivity].
  cbn [map]. now rewrite IHs.
Qed.

Local Open Scope R_scope.

(** In exact arithmetic the result is in descending order of the keys. *)
Lemma sort_desc_sorted {A : Type} (l : list (A * R)) :
  StronglySorted (fun p q => snd q <= snd p) (sort_desc l).
Proof.
  induction l as [|x r IH]; [constructor|].
  change (sort_desc (x :: r)) with (insert_desc x (sort_desc r)).
  revert IH. generalize (sort_desc r) as s. clear r. intros s Hs.
  induction s as [|y s IHs]; simpl.
  - constructor; constructor.
  - change (@fltb R R_Num) with Rltb.
    inversion Hs as [|? ? Hs' Hy]; subst.
    destruct (Rltb (snd x) (snd y)) eqn:E.
    + apply Rltb_true in E. constructor; [now apply IHs|].
      eapply Permutation_Forall; [apply Permutation_sym, insert_desc_perm|].
      constructor; [lra|exact Hy].
    + apply Rltb_false in E. constructor; [exact Hs|].
      constructor; [exact E|].
      eapply Forall_impl; [|exact Hy]. simpl. intros q Hq. lra.
Qed.

Lemma Reqb_class (s a b : R) :
  Reqb s a = true -> Reqb s b = true -> fltb a b = false.
Proof.
  intros Ha Hb. apply Reqb_true in Ha, Hb. subst a b.
  change (Rltb s s = false). apply Rltb_false. lra.
Qed.

Local Close Scope R_scope.

(* ------------------------------------------------------------------ *)
(** * Positions *)

Lemma tagged_untag {A F : Type} (k : nat) (l : list (A * F)) :
  map (fun p : (nat * A) * F => (snd (fst p), snd p)) (tagged k l) = l.
Proof.
  revert k. induction l as [|[a v] r IH]; intros k; simpl; [reflexivity|].
  now rewrite IH.
Qed.

Lemma tagged_positions {A F : Type} (k : nat) (l : list (A * F)) :
  map (fun p : (nat * A) * F => fst (fst p)) (tagged k l) = seq k (List.length l).
Proof.
  revert k. induction l as [|[a v] r IH]; intros k; simpl; [reflexivity|].
  now rewrite IH.
Qed.

Lemma tagged_nth {A F : Type} (k : nat) (l : list (A * F)) (i : nat) (a : A) (v : F) :
  In ((i, a), v) (tagged k l) -> k <= i /\ nth_error l (i - k) = Some (a, v).
Proof.
  revert k. induction l as [|[b w] r IH]; intros k H; simpl in H; [contradiction|].
  destruct H as [H|H].
  - injection H as <- <- <-. split; [lia|]. now rewrite Nat.sub_diag.
  - apply IH in H. destruct H as [Hk Hn]. split; [lia|].
    replace (i - k) with (S (i - S k)) by lia. exact Hn.
Qed.

Lemma filter_before {A : Type} (P : A -> bool) (i j : A) (l : list A) :
  before i j (filter P l) -> before i j l.
Proof.
  intros (m1 & m2 & m3 & H). revert m1 H.
  induction l as [|x r IH]; intros m1 H.
  - destruct m1; discriminate.
  - simpl in H. destruct (P x) eqn:E.
    + destruct m1 as [|y m1]; simpl in H.
      * injection H as -> H. clear IH.
        assert (G : forall r m2, filter P r = m2 ++ j :: m3 ->
                      exists l2 l3, r = l2 ++ j :: l3).
        { clear. induction r as [|x r IH]; intros m2 H.
          - destruct m2; discriminate.
          - simpl in H. destruct (P x).
            + destruct m2 as [|y m2]; simpl in H.
              * injection H as -> _. now exists [], r.
              * injection H as _ H. destruct (IH _ H) as (l2 & l3 & ->).
                now exists (x :: l2), l3.
            + destruct (IH _ H) as (l2 & l3 & ->). now exists (x :: l2), l3. }
        destruct (G _ _ H) as (l2 & l3 & ->). now exists [], l2, l3.
      * injection H as -> H. destruct (IH _ H) as (l1 & l2 & l3 & ->).
        now exists (y :: l1), l2, l3.
    + destruct (IH _ H) as (l1 & l2 & l3 & ->). now exists (x :: l1), l2, l3.
Qed.

Lemma before_seq (i j n : nat) : i < j -> j < n -> before i j (seq 0 n).
Proof.
  intros Hij Hjn. exists (seq 0 i), (seq (S i) (j - S i)), (seq (S j) (n - S j)).
  replace n with (i + S (n - S i)) at 1 by lia.
  rewrite seq_app. f_equal. cbn [seq Nat.add]. f_equal.
  replace (n - S i) with ((j - S i) + S (n - S j)) by lia.
  rewrite seq_app. f_equal.
  replace (S i + (j - S i)) with j by lia. reflexivity.
Qed.

Lemma before_filter {A : Type} (P : A -> bool) (i j : A) (l : list A) :
  P i = true -> P j = true -> before i j l -> before i j (filter P l).
Proof.
  intros Hi Hj (l1 & l2 & l3 & ->).
  exists (filter P l1), (filter P l2), (filter P l3).
  rewrite filter_app. simpl. rewrite Hi. f_equal. f_equal.
  rewrite filter_app. simpl. now rewrite Hj.
Qed.

(* ------------------------------------------------------------------ *)
(** * The ranker in exact arithmetic *)

Lemma annotate_pairs {F : Type} (k : nat) (l : list (Section * F)) :
  map (fun r => (section r, _score r)) (annotate k l) = l.
Proof.
  revert k. induction l as [|[s v] r IH]; intros k; simpl; [reflexivity|].
  now rewrite IH.
Qed.

Lemma annotate_rank {F : Type} (k : nat) (l : list (Section * F)) :
  map importance_rank (annotate k l) = seq k (List.length l).
Proof.
  revert k. induction l as [|[s v] r IH]; intros k; simpl; [reflexivity|].
  now rewrite IH.
Qed.

Lemma annotate_Forall2 {F B : Type} (Q : B -> Ranked F -> Prop)
      (g : B -> Section * F) (h : B -> B) (k : nat) (l : list B) :
  (forall b rank, In b l -> Q b (mkRanked (fst (g b)) rank (snd (g b)))) ->
  Forall2 Q l (annotate k (map g l)).
Proof.
  revert k. induction l as [|b r IH]; intros k H; simpl; [constructor|].
  destruct (g b) as [s v] eqn:E. constructor.
  - specialize (H b k (or_introl eq_refl)). now rewrite E in H.
  - apply IH. intros; apply H; now right.
Qed.

Lemma map_fst_combine {A B : Type} (l : list A) (m : list B) :
  List.length m = List.length l -> map fst (combine l m) = l.
Proof.
  revert m. induction l as [|a r IH]; intros m H; [reflexivity|].
  destruct m as [|b m]; [discriminate|]. simpl. f_equal. apply IH.
  simpl in H. lia.
Qed.

Lemma nth_error_combine {A B : Type} (l : list A) (m : list B) (i : nat) (a : A) (b : B) :
  nth_error (combine l m) i = Some (a, b) ->
  nth_error l i = Some a /\ nth_error m i = Some b.
Proof.
  revert m i. induction l as [|x r IH]; intros m i H.
  - destruct i; discriminate.
  - destruct m as [|y m]; [destruct i; discriminate|].
    destruct i as [|i]; simpl in *.
    + injection H as -> ->. now split.
    + now apply IH.
Qed.

Lemma nth_error_combine_some {A B : Type} (l : list A) (m : list B) (i : nat) (b : B) :
  List.length m = List.length l -> nth_error m i = Some b ->
  exists a, nth_error (combine l m) i = Some (a, b).
Proof.
  revert m i. induction l as [|x r IH]; intros m i Hl H.
  - destruct m; [destruct i; discriminate|discriminate].
  - destruct m as [|y m]; [discriminate|].
    destruct i as [|i]; simpl in *.
    + injection H as ->. now exists x.
    + apply IH; [lia|exact H].
Qed.

Lemma tagged_app {A F : Type} (k : nat) (l1 l2 : list (A * F)) :
  tagged k (l1 ++ l2) = tagged k l1 ++ tagged (k + List.length l1) l2.
Proof.
  revert k. induction l1 as [|[a v] r IH]; intros k; simpl.
  - now rewrite Nat.add_0_r.
  - rewrite IH. do 3 f_equal. lia.
Qed.

Lemma tagged_before {A F : Type} (l : list (A * F)) (i j : nat) (a b : A) (v w : F) :
  i < j -> nth_error l i = Some (a, v) -> nth_error l j = Some (b, w) ->
  before ((i, a), v) ((j, b), w) (tagged 0 l).
Proof.
  intros Hij Hi Hj.
  destruct (nth_error_split l i Hi) as (l1 & l2 & -> & Hl1).
  rewrite nth_error_app2 in Hj by lia.
  replace (j - List.length l1) with (S (j - S i)) in Hj by lia. simpl in Hj.
  destruct (nth_error_split l2 _ Hj) as (l3 & l4 & -> & Hl3).
  exists (tagged 0 l1), (tagged (S i) l3), (tagged (S j) l4).
  rewrite tagged_app. simpl. rewrite Hl1. f_equal. f_equal.
  rewrite tagged_app. simpl. f_equal. f_equal; [do 2 f_equal; lia|].
  f_equal. lia.
Qed.

Lemma before_map {A B : Type} (f : A -> B) (x y : A) (l : list A) :
  before x y l -> before (f x) (f y) (map f l).
Proof.
  intros (l1 & l2 & l3 & ->). exists (map f l1), (map f l2), (map f l3).
  rewrite map_app. simpl. now rewrite map_app.
Qed.

Local Open Scope R_scope.

Lemma annotate_sorted (k : nat) (l : list (Section * R)) :
  StronglySorted (fun p q => snd q <= snd p) l ->
  StronglySorted (fun r1 r2 => _score r2 <= _score r1) (annotate k l).
Proof.
  intros H. revert k. induction H as [|[s v] l Hs IH Hall]; intros k; simpl.
  - constructor.
  - constructor; [apply IH|].
    clear - Hall. revert k. induction Hall as [|[s' v'] l Hx Hl IHl]; intros k; simpl.
    + constructor.
    + constructor; [exact Hx|apply IHl].
Qed.

Lemma rank_sections_R
      (log : R -> R) (sections : list Section) (persona : Persona) (job : Job) :
  exists scores,
    compute_relevance_scores log sections persona job = Some scores
    /\ List.length scores = List.length sections
    /\ rank_sections log sections persona job
       = Some (annotate 1 (sort_desc (combine sections scores))).
Proof.
  destruct (relevance_scores_total log sections persona job) as (scores & H & L).
  exists scores. split; [exact H|]. split; [exact L|].
  unfold rank_sections. destruct (null sections) eqn:E.
  - apply null_true in E. subst. destruct scores; [reflexivity|discriminate].
  - rewrite H. reflexivity.
Qed.


(** C4.  In exact arithmetic, [rank_sections] keeps the sections of equal
    score in the order of the input.  [idxs] lists, in the order of the
    result, the positions the ranked sections had in the input; whenever
    the scores at two positions [i < j] of the input are equal, [i] comes
    before [j] in [idxs]. *)
Theorem rank_sections_stable
        (log : R -> R) (sections : list Section) (persona : Persona) (job : Job) :
  exists scores ranked idxs,
    compute_relevance_scores log sections persona job = Some scores
    /\ rank_sections log sections persona job = Some ranked
    /\ Permutation idxs (seq 0 (List.length sections))
    /\ Forall2 (fun i r => nth_error sections i = Some (section r)
                           /\ nth_error scores i = Some (_score r))
               idxs ranked
    /\ forall i j si sj,
         (i < j)%nat ->
         nth_error scores i = Some si -> nth_error scores j = Some sj ->
         si = sj -> before i j idxs.
Proof.
  destruct (rank_sections_R log sections persona job) as (scores & H & L & Hr).
  set (paired := combine sections scores) in *.
  set (T := tagged 0 paired).
  set (untag := fun p : (nat * Section) * R => (snd (fst p), snd p)).
  set (pos := fun p : (nat * Section) * R => fst (fst p)).
  assert (Hs : sort_desc paired = map untag (sort_desc T)).
  { rewrite <- (tagged_untag 0 paired) at 1. apply (sort_desc_map snd). }
  exists scores, (annotate 1 (map untag (sort_desc T))), (map pos (sort_desc T)).
  split; [exact H|]. split; [now rewrite <- Hs|]. split; [|split].
  - eapply Permutation_trans; [apply Permutation_map, sort_desc_perm|].
    unfold T, pos. rewrite tagged_positions. unfold paired.
    rewrite length_combine. replace (Nat.min _ _) with (List.length sections) by lia.
    apply Permutation_refl.
  - assert (G : Forall2 (fun (p : (nat * Section) * R) (r : Ranked R) =>
                           nth_error sections (pos p) = Some (section r)
                           /\ nth_error scores (pos p) = Some (_score r))
                        (sort_desc T) (annotate 1 (map untag (sort_desc T)))).
    { apply annotate_Forall2; [exact (fun b => b)|].
      intros [[i a] v] rank Hin. simpl.
      apply (Permutation_in _ (sort_desc_perm T)) in Hin.
      apply tagged_nth in Hin. destruct Hin as [_ Hin].
      rewrite Nat.sub_0_r in Hin. now apply nth_error_combine in Hin. }
    clear - G. induction G; simpl; constructor; auto.
  - intros i j si sj Hij Hi Hj Heq. subst sj.
    destruct (nth_error_combine_some sections scores i si L Hi) as [a Ha].
    destruct (nth_error_combine_some sections scores j si L Hj) as [b Hb].
    pose proof (tagged_before paired i j a b si si Hij Ha Hb) as Hbef.
    fold T in Hbef.
    apply (before_filter (fun p => Reqb si (snd p))) in Hbef;
      [|simpl; now apply Reqb_true|simpl; now apply Reqb_true].
    rewrite <- (sort_desc_filter (Reqb si) (Reqb_class si) T) in Hbef.
    apply filter_before in Hbef.
    apply (before_map pos) in Hbef. exact Hbef.
Qed.

Local Close Scope R_scope.

(* ------------------------------------------------------------------ *)
(** * Sentence boundaries *)

Lemma space_not_terminator (c : ascii) :
  isspace c = true -> is_terminator c = false.
Proof.
  destruct c as [[] [] [] [] [] [] [] []]; vm_compute; congruence.
Qed.

(** A character added at the end makes a boundary only with the last
    character before it.  [cur] is the text so far, reversed. *)
Lemma has_boundary_snoc (cur : str) (c : ascii) :
  has_boundary (rev cur ++ [c])
  = has_boundary (rev cur)
    || match cur with
       | d :: _ => is_terminator d && isspace c
       | [] => false
       end.
Proof.
  rewrite <- (rev_involutive cur) at 3. generalize (rev cur) as u. clear cur.
  induction u as [|x u IH]; [reflexivity|].
  destruct u as [|y u'].
  - cbn. now rewrite orb_false_r.
  - change (has_boundary ((x :: y :: u') ++ [c]))
      with ((is_terminator x && isspace y) || has_boundary ((y :: u') ++ [c])).
    change (has_boundary (x :: y :: u'))
      with ((is_terminator x && isspace y) || has_boundary (y :: u')).
    rewrite IH, <- orb_assoc. f_equal. f_equal.
    change (rev (x :: y :: u')) with (rev (y :: u') ++ [x]).
    destruct (rev (y :: u')) as [|z r] eqn:E; [|reflexivity].
    apply (f_equal (@List.length ascii)) in E. rewrite length_rev in E.
    discriminate.
Qed.

Lemma lstrip_run (s : str) :
  exists ws, forallb isspace ws = true /\ s = ws ++ lstrip s.
Proof.
  induction s as [|c r (ws & Hws & IH)]; [now exists []|].
  cbn [lstrip]. destruct (isspace c) eqn:Ec.
  - exists (c :: ws). split; [cbn; now rewrite Ec|]. cbn. now f_equal.
  - now exists [].
Qed.

Lemma lstrip_head (s : str) :
  match lstrip s with x :: _ => isspace x = false | [] => True end.
Proof.
  induction s as [|c r IH]; [exact I|].
  cbn [lstrip]. destruct (isspace c) eqn:Ec; [exact IH|exact Ec].
Qed.

Lemma length_lstrip (s : str) : List.length (lstrip s) <= List.length s.
Proof.
  induction s as [|c r IH]; [apply le_n|].
  cbn [lstrip]. destruct (isspace c); [cbn; apply le_S, IH|apply le_n].
Qed.

(** While a separating run is read, its characters are dropped. *)
Lemma split_sentences_aux_skip (s : str) :
  split_sentences_aux false true [] s
  = split_sentences_aux false false [] (lstrip s).
Proof.
  induction s as [|c r IH]; [reflexivity|].
  cbn [split_sentences_aux lstrip]. destruct (isspace c) eqn:Ec; [exact IH|].
  cbn [split_sentences_aux]. now rewrite Ec.
Qed.

(** [re.split] cuts the text at its sentence boundaries. *)
Lemma split_sentences_aux_cut (n : nat) :
  forall (s cur : str) (prev : bool),
    List.length s <= n ->
    has_boundary (rev cur) = false ->
    prev = match cur with d :: _ => is_terminator d | [] => false end ->
    cut_at_boundaries (rev cur ++ s) (split_sentences_aux prev false cur s).
Proof.
  induction n as [|n IH]; intros s cur prev Hlen Hcur Hprev.
  - destruct s; [|cbn in Hlen; lia]. cbn [split_sentences_aux].
    rewrite app_nil_r. now apply cut_last.
  - destruct s as [|c r].
    { cbn [split_sentences_aux]. rewrite app_nil_r. now apply cut_last. }
    assert (Hr : List.length r <= n) by (cbn in Hlen; lia).
    assert (Htext : rev cur ++ c :: r = rev (c :: cur) ++ r)
      by (cbn [rev]; now rewrite <- app_assoc).
    cbn [split_sentences_aux]. destruct (isspace c) eqn:Ec.
    + destruct prev.
      * destruct cur as [|d cur']; [discriminate|].
        rewrite split_sentences_aux_skip.
        destruct (lstrip_run r) as (ws & Hws & Er).
        assert (Etext : rev (d :: cur') ++ c :: r
                        = rev cur' ++ [d] ++ (c :: ws) ++ lstrip r).
        { cbn [rev app]. rewrite <- app_assoc. cbn [app]. now rewrite <- Er. }
        rewrite Etext. change (rev (d :: cur')) with (rev cur' ++ [d]).
        apply cut_next.
        -- exact Hcur.
        -- now symmetry.
        -- discriminate.
        -- cbn [forallb]. now rewrite Ec.
        -- apply lstrip_head.
        -- apply (IH (lstrip r) [] false); [|reflexivity|reflexivity].
           pose proof (length_lstrip r). lia.
      * rewrite Htext. apply IH; [exact Hr| |].
        -- cbn [rev]. rewrite has_boundary_snoc, Hcur.
           destruct cur as [|d cur']; [reflexivity|]. now rewrite <- Hprev.
        -- symmetry. now apply space_not_terminator.
    + rewrite Htext. apply IH; [exact Hr| |reflexivity].
      cbn [rev]. rewrite has_boundary_snoc, Hcur, Ec.
      destruct cur as [|d cur']; [reflexivity|]. now rewrite andb_false_r.
Qed.

Lemma has_boundary_at (u : str) (c w : ascii) (v : str) :
  is_terminator c = true -> isspace w = true ->
  has_boundary (u ++ c :: w :: v) = true.
Proof.
  intros Hc Hw. induction u as [|x u IH].
  - cbn. now rewrite Hc, Hw.
  - cbn [app has_boundary]. destruct (u ++ c :: w :: v) eqn:E.
    + destruct u; discriminate.
    + rewrite IH. apply orb_true_r.
Qed.

Lemma has_boundary_prefix (a b : str) :
  has_boundary (a ++ b) = false -> has_boundary a = false.
Proof.
  induction a as [|x a IH]; intros H; [reflexivity|].
  destruct a as [|y a']; [reflexivity|].
  cbn [app has_boundary] in H |- *. apply orb_false_iff in H.
  destruct H as [H1 H2]. rewrite H1. cbn [orb]. apply IH. exact H2.
Qed.

Lemma lstrip_after_run (ws rest : str) :
  forallb isspace ws = true ->
  match rest with x :: _ => isspace x = false | [] => True end ->
  lstrip (ws ++ rest) = rest.
Proof.
  intros Hws Hrest. induction ws as [|w ws IH].
  - destruct rest as [|x r]; [reflexivity|]. cbn. now rewrite Hrest.
  - cbn in Hws. apply andb_true_iff in Hws. destruct Hws as [Hw Hws].
    cbn. rewrite Hw. now apply IH.
Qed.

(** The first piece of a cut is determined by the text. *)
Lemma cut_first_piece (a b a' b' : str) (w w' : ascii) :
  a ++ w :: b = a' ++ w' :: b' ->
  has_boundary a = false -> has_boundary a' = false ->
  (exists p c, a = p ++ [c] /\ is_terminator c = true) ->
  (exists p c, a' = p ++ [c] /\ is_terminator c = true) ->
  isspace w = true -> isspace w' = true ->
  a = a'.
Proof.
  intros E Ha Ha' (p & c & -> & Hc) (p' & c' & -> & Hc') Hw Hw'.
  apply app_eq_app in E. destruct E as (l & [[E1 E2]|[E1 E2]]).
  - destruct l as [|x l]; [now rewrite app_nil_r in E1|]. exfalso.
    cbn [app] in E2. injection E2 as Ex _. subst x.
    rewrite E1, <- app_assoc in Ha. cbn [app] in Ha.
    rewrite has_boundary_at in Ha; [discriminate|exact Hc'|exact Hw'].
  - destruct l as [|x l]; [now rewrite app_nil_r in E1|]. exfalso.
    cbn [app] in E2. injection E2 as Ex _. subst x.
    rewrite E1, <- app_assoc in Ha'. cbn [app] in Ha'.
    rewrite has_boundary_at in Ha'; [discriminate|exact Hc|exact Hw].
Qed.

(** A text has one cut only. *)
Lemma cut_at_boundaries_unique (t : str) (pieces pieces' : list str) :
  cut_at_boundaries t pieces -> cut_at_boundaries t pieces' -> pieces = pieces'.
Proof.
  intros H. revert pieces'.
  induction H as [p Hp|p c ws rest pieces Hp Hc Hne Hws Hrest Hcut IH];
    intros pieces' H'.
  - inversion H' as [q Hq E1 E2|q d vs rest' ps Hq Hd Hne' Hvs Hrest' Hcut' E1 E2];
      subst; [reflexivity|].
    exfalso. destruct vs as [|v vs]; [contradiction|].
    cbn in Hvs. apply andb_true_iff in Hvs. destruct Hvs as [Hv _].
    change (q ++ [d] ++ (v :: vs) ++ rest')
      with (q ++ d :: v :: (vs ++ rest')) in Hp.
    rewrite has_boundary_at in Hp; [discriminate|exact Hd|exact Hv].
  - inversion H' as [q Hq E1 E2|q d vs rest' ps Hq Hd Hne' Hvs Hrest' Hcut' E1 E2];
      subst.
    + exfalso. destruct ws as [|w ws]; [contradiction|].
      cbn in Hws. apply andb_true_iff in Hws. destruct Hws as [Hw _].
      change (p ++ [c] ++ (w :: ws) ++ rest)
        with (p ++ c :: w :: (ws ++ rest)) in Hq.
      rewrite has_boundary_at in Hq; [discriminate|exact Hc|exact Hw].
    + destruct ws as [|w ws]; [contradiction|].
      destruct vs as [|v vs]; [contradiction|].
      assert (Hw : isspace w = true)
        by (cbn in Hws; now apply andb_true_iff in Hws).
      assert (Hv : isspace v = true)
        by (cbn in Hvs; now apply andb_true_iff in Hvs).
      assert (E : (p ++ [c]) ++ w :: (ws ++ rest)
                  = (q ++ [d]) ++ v :: (vs ++ rest')).
      { rewrite <- !app_assoc. exact (eq_sym E1). }
      assert (Ea : p ++ [c] = q ++ [d]).
      { apply (cut_first_piece _ _ _ _ _ _ E Hp Hq); try assumption.
        - now exists p, c.
        - now exists q, d. }
      rewrite Ea in E. apply app_inv_head in E.
      assert (Er : rest = rest').
      { rewrite <- (lstrip_after_run (w :: ws) rest Hws Hrest).
        rewrite <- (lstrip_after_run (v :: vs) rest' Hvs Hrest').
        cbn [app]. now rewrite E. }
      subst rest'. rewrite Ea. f_equal. now apply IH.
Qed.

Lemma re_split_sentences_cut (t : str) :
  cut_at_boundaries t (re_split_sentences t).
Proof.
  exact (split_sentences_aux_cut (List.length t) t [] false (le_n _)
                                 eq_refl eq_refl).
Qed.

(* ------------------------------------------------------------------ *)
(** * The refiner in exact arithmetic *)

Local Open Scope R_scope.

Lemma sentences_tight (t : str) : Forall tight (_split_into_sentences t).
Proof.
  unfold _split_into_sentences. apply Forall_forall. intros s Hs.
  apply in_map_iff in Hs. destruct Hs as (p & <- & Hp).
  apply filter_In in Hp. destruct Hp as [_ Hp]. apply Nat.ltb_lt in Hp.
  apply tight_strip. intros E. rewrite E in Hp. simpl in Hp. lia.
Qed.

Lemma sentences_long (t : str) :
  Forall (fun s => (20 < List.length s)%nat) (_split_into_sentences t).
Proof.
  unfold _split_into_sentences. apply Forall_forall. intros s Hs.
  apply in_map_iff in Hs. destruct Hs as (p & <- & Hp).
  apply filter_In in Hp. destruct Hp as [_ Hp]. now apply Nat.ltb_lt in Hp.
Qed.

Lemma score_sentence_total (sentence : str) (query_terms : list str) :
  exists v : R, _score_sentence sentence query_terms = Some v.
Proof.
  unfold _score_sentence. cbv zeta.
  destruct (split (map keep_alnum_space (lower sentence))) as [|w ws] eqn:E;
    [now eexists|].
  cbn [null]. rewrite int_div_R; [now eexists|]. simpl. discriminate.
Qed.

Lemma StronglySorted_app_le {A : Type} (Rel : A -> A -> Prop) (l1 l2 : list A) :
  StronglySorted Rel (l1 ++ l2) ->
  forall p q, In p l1 -> In q l2 -> Rel p q.
Proof.
  induction l1 as [|x r IH]; intros H p q Hp Hq; [contradiction|].
  simpl in H. inversion H as [|? ? Hs Hall]; subst.
  destruct Hp as [<-|Hp].
  - rewrite Forall_forall in Hall. apply Hall, in_or_app. now right.
  - now apply IH.
Qed.

Lemma refine_text_R (query_terms : list str) (t : str) :
  exists refined,
    refine_text query_terms t = Some refined
    /\ excerpt_of query_terms t refined.
Proof.
  unfold refine_text, excerpt_of. cbv zeta.
  destruct (_split_into_sentences t) as [|s ss] eqn:Es.
  - cbn [null]. eexists. split; [reflexivity|].
    exists (re_split_sentences t). split; [apply re_split_sentences_cut|].
    change (usable_sentences (re_split_sentences t))
      with (_split_into_sentences t). rewrite Es.
    split; [|congruence].
    intros _. split; [reflexivity|]. rewrite length_firstn. lia.
  - cbn [null].
    set (f := fun sent : str =>
                sc <- _score_sentence sent query_terms ;; Some (sent, sc)).
    assert (Hf : forall a, In a (s :: ss) -> exists b : str * R, f a = Some b).
    { intros a _. unfold f.
      destruct (score_sentence_total a query_terms) as [v ->]. now eexists. }
    destruct (mapM_total f (s :: ss) Hf) as [scored Hscored].
    rewrite Hscored. cbn [bind].
    pose proof (mapM_Forall2 _ _ _ Hscored) as HF2.
    assert (Hfst : map fst scored = s :: ss).
    { clear - HF2. induction HF2 as [|a b l l' Hab _ IH]; [reflexivity|].
      simpl. rewrite IH. f_equal. unfold f in Hab.
      destruct (_score_sentence a query_terms); [|discriminate].
      simpl in Hab. now injection Hab as <-. }
    assert (Hsc : Forall (fun p => _score_sentence (fst p) query_terms
                                   = Some (snd p)) scored).
    { clear - HF2. induction HF2 as [|a b l l' Hab _ IH]; constructor; [|exact IH].
      unfold f in Hab. destruct (_score_sentence a query_terms) eqn:E;
        [|discriminate]. simpl in Hab. injection Hab as <-. exact E. }
    set (sorted := sort_desc scored).
    assert (Hperm : Permutation sorted scored) by apply sort_desc_perm.
    assert (Hlen : (1 <= List.length sorted)%nat).
    { rewrite (Permutation_length Hperm), <- (length_map fst), Hfst. simpl. lia. }
    assert (Htight : Forall tight (map fst sorted)).
    { apply Forall_forall. intros x Hx.
      apply (Permutation_in _ (Permutation_map fst Hperm)) in Hx.
      rewrite Hfst, <- Es in Hx.
      pose proof (sentences_tight t) as Ht. rewrite Forall_forall in Ht. auto. }
    assert (Htop : tight (join space (map fst (firstn 2 sorted)))).
    { apply tight_join.
      - destruct sorted; [simpl in Hlen; lia|discriminate].
      - apply Forall_forall. intros x Hx. rewrite Forall_forall in Htight.
        apply Htight. apply in_map_iff in Hx. destruct Hx as (p & <- & Hp).
        apply in_map. rewrite <- (firstn_skipn 2 sorted).
        apply in_or_app. now left. }
    eexists. split; [reflexivity|].
    exists (re_split_sentences t). split; [apply re_split_sentences_cut|].
    change (usable_sentences (re_split_sentences t))
      with (_split_into_sentences t). rewrite Es.
    split; [congruence|]. intros _.
    exists scored, (firstn 2 sorted), (skipn 2 sorted).
    split; [exact Hfst|]. split; [exact Hsc|].
    split; [now rewrite firstn_skipn|]. split; [|split].
    + rewrite length_firstn. lia.
    + intros p q Hp Hq.
      apply (StronglySorted_app_le (fun p q : str * R => snd q <= snd p)
                                   (firstn 2 sorted) (skipn 2 sorted));
        [|exact Hp|exact Hq].
      rewrite firstn_skipn. apply sort_desc_sorted.
    + apply strip_tight, Htop.
Qed.


Local Close Scope R_scope.

(* ------------------------------------------------------------------ *)
(** * Binary64: what does not depend on rounding *)

(** Keys that compare equal to a same key are not less than one another. *)
Lemma SF_eqb_class (k a b : spec_float) :
  SFeqb k a = true -> SFeqb k b = true -> SFltb a b = false.
Proof.
  unfold SFeqb, SFltb.
  destruct k as [sk|sk| |sk mk ek], a as [sa|sa| |sa ma ea],
    b as [sb|sb| |sb mb eb]; simpl;
    try discriminate; try reflexivity;
    repeat match goal with s : bool |- _ => destruct s end; simpl;
    try discriminate; try reflexivity;
    change (Pos.compare_cont Eq) with Pos.compare;
    destruct (Z.compare_spec ek ea); try discriminate;
    destruct (Z.compare_spec ek eb); try discriminate;
    destruct (Pos.compare_spec mk ma); try discriminate;
    destruct (Pos.compare_spec mk mb); try discriminate;
    subst; rewrite Z.compare_refl, Pos.compare_refl; reflexivity.
Qed.

Lemma float_eqb_class (k a b : float) :
  PrimFloat.eqb k a = true -> PrimFloat.eqb k b = true ->
  PrimFloat.ltb a b = false.
Proof.
  rewrite !FloatAxioms.eqb_spec, FloatAxioms.ltb_spec. apply SF_eqb_class.
Qed.

(** The sort is stable on binary64 keys: for every key [k], the elements
    whose key compares equal to [k] keep the order of the input. *)
Lemma sort_desc_stable_binary64 {A : Type} (k : float) (l : list (A * float)) :
  filter (fun p => PrimFloat.eqb k (snd p)) (sort_desc l)
  = filter (fun p => PrimFloat.eqb k (snd p)) l.
Proof.
  apply (sort_desc_filter (PrimFloat.eqb k)). intros a b.
  apply float_eqb_class.
Qed.

(** [rank_sections] in binary64, when scoring raised nothing: a permutation
    of the scored sections, ranks 1, 2, ..., and, for every score [k], the
    sections whose score compares equal to [k] in the order of the input. *)
Lemma rank_sections_binary64
      (log : float -> float) (sections : list Section) (persona : Persona)
      (job : Job) (scores : list float) :
  compute_relevance_scores log sections persona job = Some scores ->
  exists ranked,
    rank_sections log sections persona job = Some ranked
    /\ Permutation (map (fun r => (section r, _score r)) ranked)
                   (combine sections scores)
    /\ map importance_rank ranked
       = seq 1 (List.length (combine sections scores))
    /\ forall k,
         filter (fun p => PrimFloat.eqb k (snd p))
                (map (fun r => (section r, _score r)) ranked)
         = filter (fun p => PrimFloat.eqb k (snd p)) (combine sections scores).
Proof.
  intros H. unfold rank_sections. destruct (null sections) eqn:E.
  - apply null_true in E. subst. exists []. repeat split; constructor.
  - rewrite H. cbn [bind]. eexists. split; [reflexivity|].
    rewrite annotate_pairs, annotate_rank. split; [apply sort_desc_perm|].
    split.
    + now rewrite (Permutation_length (sort_desc_perm _)).
    + intros k. apply sort_desc_stable_binary64.
Qed.

(** The largest weighted sum: in binary64 the four weights add up to
    exactly [1.0], in the order in which the source adds them. *)
Example combine4_binary64_max :
  @combine4 float _ 1%float 1%float 1%float 1%float = 1%float.
Proof. reflexivity. Qed.

(** [normalise] on a constant array in binary64: all zeros, for every
    repeated value that is a number. *)
Lemma normalise_constant_binary64 (x : float) (n : nat) :
  PrimFloat.eqb x x = true ->
  normalise (repeat x (S n)) = Some (repeat 0%float (S n)).
Proof.
  intros Hx.
  assert (Hlt : PrimFloat.ltb x x = false) by now apply (float_eqb_class x).
  assert (Hmax : forall m, fmax_list x (repeat x m) = x).
  { induction m as [|m IH]; [reflexivity|].
    unfold fmax_list in *. cbn [repeat fold_left].
    change (@fltb float float_Num) with PrimFloat.ltb in *. now rewrite Hlt. }
  assert (Hmin : forall m, fmin_list x (repeat x m) = x).
  { induction m as [|m IH]; [reflexivity|].
    unfold fmin_list in *. cbn [repeat fold_left].
    change (@fltb float float_Num) with PrimFloat.ltb in *. now rewrite Hlt. }
  unfold normalise. cbn [repeat]. rewrite Hmax, Hmin.
  change (@feqb float float_Num) with PrimFloat.eqb. rewrite Hx.
  f_equal. change (x :: repeat x n) with (repeat x (S n)).
  rewrite map_const_repeat, repeat_length. reflexivity.
Qed.

(* ------------------------------------------------------------------ *)
(** * More on the segmenter *)

(** X1.  A line that [_is_heading] accepts is, once stripped, not empty, at
    most 100 characters long and made of at most 15 words. *)
Theorem heading_is_short {F : Type} {N : Num F} (line : str) :
  _is_heading line = Some true ->
  strip line <> []
  /\ List.length (strip line) <= 100
  /\ 1 <= List.length (split (strip line)) <= 15.
Proof.
  unfold _is_heading. intros H.
  destruct (null (strip line)) eqn:E0; [discriminate|].
  destruct (100 <? List.length (strip line)) eqn:E1; [discriminate|].
  destruct (15 <? List.length (split (strip line))) eqn:E2; [discriminate|].
  apply null_false in E0. apply Nat.ltb_ge in E1, E2.
  pose proof (split_strip_nonempty line E0) as Hw.
  repeat split; try assumption.
  destruct (split (strip line)); [contradiction|simpl; lia].
Qed.

Lemma heading_is_short_witness :
  List.length (strip (lit "  1. Introduction ")) <= 100.
Proof.
  apply (@heading_is_short float _ (lit "  1. Introduction ")).
  vm_compute. reflexivity.
Defined.

Lemma line_loop_inv {F : Type} {N : Num F}
      (page_num : nat) (all : list str) (lines : list str) :
  forall a a',
    line_loop page_num a lines = Some a' ->
    incl lines all -> title_ok all a ->
    exists new,
      sections a' = sections a ++ new
      /\ Forall (page_section_ok page_num all) new
      /\ title_ok all a'
      /\ List.length new + open_title a' <= List.length lines + open_title a.
Proof.
  induction lines as [|l r IH]; intros a a' H Hincl Hok; simpl in H.
  - injection H as <-. exists []. rewrite !app_nil_r.
    repeat split; auto.
  - unfold line_step in H.
    destruct (_is_heading l) as [h|] eqn:Eh; [|discriminate]. cbn [bind] in H.
    assert (Hl : In l all) by (apply Hincl; now left).
    assert (Hr : incl r all) by (intros x Hx; apply Hincl; now right).
    destruct h.
    + cbn [bind] in H. apply IH in H; [|exact Hr|unfold title_ok; simpl; auto].
      destruct H as (new & Hs & Hall & Hok' & Hlen).
      simpl in Hs.
      destruct (current_title a) as [t|] eqn:Et.
      * exists (new_section t (current_lines a) page_num :: new).
        split; [rewrite Hs, <- app_assoc; reflexivity|].
        split; [|split; [exact Hok'|]].
        -- constructor; [|exact Hall].
           unfold title_ok in Hok. rewrite Et in Hok.
           unfold page_section_ok, new_section. simpl.
           repeat split; try discriminate. exists t. split; [reflexivity|].
           now left.
        -- unfold open_title in *. simpl in *. rewrite Et. lia.
      * exists new. split; [exact Hs|]. split; [exact Hall|].
        split; [exact Hok'|].
        unfold open_title in *. simpl in *. rewrite Et. lia.
    + cbn [bind] in H. apply IH in H; [|exact Hr|exact Hok].
      destruct H as (new & Hs & Hall & Hok' & Hlen).
      exists new. simpl in *. repeat split; auto.
Qed.

(** The sections collected before a page do not change what the page adds. *)
Lemma line_loop_shift {F : Type} {N : Num F}
      (page_num : nat) (pre : list Section) (lines : list str) :
  forall a a',
    line_loop page_num a lines = Some a' ->
    line_loop page_num
              (mkAcc (current_title a) (current_lines a) (pre ++ sections a)) lines
    = Some (mkAcc (current_title a') (current_lines a') (pre ++ sections a')).
Proof.
  induction lines as [|l r IH]; intros a a' H; simpl in *.
  - now injection H as <-.
  - unfold line_step in *.
    destruct (_is_heading l) as [h|]; [|discriminate]. cbn [bind] in *.
    destruct h; cbn [bind] in *.
    + apply IH in H. simpl in H. simpl.
      destruct (current_title a); [rewrite app_assoc in H|]; exact H.
    + apply IH in H. exact H.
Qed.

(** Once a title is open, one stays open to the end of the page. *)
Lemma line_loop_title_stays {F : Type} {N : Num F}
      (page_num : nat) (lines : list str) :
  forall c c', line_loop page_num c lines = Some c' ->
               current_title c <> None -> current_title c' <> None.
Proof.
  induction lines as [|y ls IH]; intros c c' Hc Hne; simpl in Hc.
  - now injection Hc as <-.
  - unfold line_step in Hc.
    destruct (_is_heading y) as [[]|]; cbn [bind] in Hc; try discriminate;
      apply IH in Hc; auto; simpl; discriminate.
Qed.

(** A page that ends with no open title had no section flushed. *)
Lemma line_loop_no_title {F : Type} {N : Num F}
      (page_num : nat) (lines : list str) :
  forall b b', line_loop page_num b lines = Some b' ->
               current_title b' = None -> sections b' = sections b.
Proof.
  induction lines as [|x ls IH]; intros b b' Hb Hn; simpl in Hb.
  - now injection Hb as <-.
  - unfold line_step in Hb.
    destruct (_is_heading x) as [[]|]; cbn [bind] in Hb; try discriminate.
    + exfalso. apply (line_loop_title_stays _ _ _ _ Hb); [simpl; discriminate|].
      exact Hn.
    + apply IH in Hb; auto.
Qed.

Lemma parse_page_facts {F : Type} {N : Num F}
        (page_num : nat) (page_text : str) :
  exists new,
    (forall secs, parse_page secs page_num page_text = Some (secs ++ new))
    /\ Forall (page_section_ok page_num (page_lines page_text)) new
    /\ List.length new <= List.length (page_lines page_text).
Proof.
  destruct (line_loop_total page_num (page_lines page_text) (mkAcc None [] []))
    as [a Ha].
  destruct (line_loop_inv page_num (page_lines page_text) (page_lines page_text)
                          _ _ Ha (incl_refl _) I)
    as (new & Hs & Hall & Hok & Hlen).
  simpl in Hs. unfold open_title in Hlen. simpl in Hlen.
  assert (Hshift : forall secs,
             line_loop page_num (mkAcc None [] secs) (page_lines page_text)
             = Some (mkAcc (current_title a) (current_lines a) (secs ++ new))).
  { intros secs. pose proof (line_loop_shift page_num secs _ _ _ Ha) as G.
    simpl in G. rewrite app_nil_r, Hs in G. exact G. }
  unfold title_ok in Hok.
  destruct (current_title a) as [t|] eqn:Et.
  - destruct (null (current_lines a)) eqn:En.
    + exists new. split; [|split; [exact Hall|lia]].
      intros secs. unfold parse_page. rewrite Hshift. cbn [bind]. simpl.
      now rewrite En.
    + exists (new ++ [new_section t (current_lines a) page_num]).
      split; [|split].
      * intros secs. unfold parse_page. rewrite Hshift. cbn [bind]. simpl.
        rewrite En. simpl. now rewrite app_assoc.
      * apply Forall_app. split; [exact Hall|]. constructor; [|constructor].
        unfold page_section_ok, new_section. simpl.
        repeat split; try discriminate. exists t. split; [reflexivity|now left].
      * rewrite length_app. simpl. lia.
  - destruct (null (page_lines page_text)) eqn:En.
    + exists new. split; [|split; [exact Hall|lia]].
      intros secs. unfold parse_page. rewrite Hshift. cbn [bind]. simpl.
      now rewrite En.
    + exists (new ++ [mkSection (Some (lit "Page " ++ str_of_nat page_num))
                               (Some (strip (join space (page_lines page_text))))
                               (Some page_num) None]).
      split; [|split].
      * intros secs. unfold parse_page. rewrite Hshift. cbn [bind]. simpl.
        rewrite En. simpl. now rewrite app_assoc.
      * apply Forall_app. split; [exact Hall|]. constructor; [|constructor].
        unfold page_section_ok. simpl.
        repeat split; try discriminate. eexists. split; [reflexivity|now right].
      * apply null_false in En.
        assert (Hnew : new = []).
        { pose proof (line_loop_no_title page_num _ _ _ Ha Et) as G.
          simpl in G. rewrite G in Hs. destruct new; [reflexivity|discriminate]. }
        assert (Hpos : 1 <= List.length (page_lines page_text))
          by (destruct (page_lines page_text); [contradiction|simpl; apply le_n_S, Nat.le_0_l]).
        rewrite Hnew, length_app. cbn [List.length app]. lia.
Qed.

(** X2.  What a page adds does not depend on the sections collected before
    it, which are kept as they are: it adds what the page gives when parsed
    alone.  Every added section is on that page, has no document yet, has a
    text, and is titled by a heading line of the page or by "Page N"; there
    are at most as many of them as the page has non-empty lines, so that a
    blank page adds nothing. *)
Theorem parse_page_sections {F : Type} {N : Num F}
        (page_num : nat) (page_text : str) :
  let new := sections_of_page (page_num, page_text) in
  (forall secs, parse_page secs page_num page_text = Some (secs ++ new))
  /\ Forall (page_section_ok page_num (page_lines page_text)) new
  /\ List.length new <= List.length (page_lines page_text)
  /\ (page_lines page_text = [] -> new = []).
Proof.
  destruct (parse_page_facts page_num page_text) as (new & Hnew & Hok & Hlen).
  assert (E : sections_of_page (page_num, page_text) = new).
  { unfold sections_of_page. cbn [fst snd]. now rewrite (Hnew []). }
  cbv zeta. rewrite E. split; [exact Hnew|]. split; [exact Hok|].
  split; [exact Hlen|].
  intros Hl. rewrite Hl in Hlen. simpl in Hlen.
  destruct new; [reflexivity|simpl in Hlen; lia].
Qed.

Lemma parse_page_alone {F : Type} {N : Num F}
      (secs : list Section) (page_num : nat) (page_text : str) :
  parse_page secs page_num page_text
  = Some (secs ++ sections_of_page (page_num, page_text)).
Proof.
  destruct (parse_page_facts page_num page_text) as (new & H & _).
  unfold sections_of_page. simpl. rewrite (H []). simpl. apply H.
Qed.

Lemma page_loop_closed {F : Type} {N : Num F}
      (w : World) (filepath : str) (pages : list nat) :
  forall log secs,
    page_loop w filepath pages log secs
    = (log ++ map (Pdftotext filepath) pages,
       Ok (secs ++ flat_map sections_of_page
                     (flat_map (fun p => match run_pdftotext w filepath p with
                                         | Some t => [(p, t)]
                                         | None => []
                                         end) pages))).
Proof.
  induction pages as [|p r IH]; intros log secs; simpl.
  - now rewrite !app_nil_r.
  - destruct (run_pdftotext w filepath p) as [t|].
    + rewrite parse_page_alone, IH. simpl.
      rewrite <- !app_assoc. reflexivity.
    + rewrite IH. rewrite <- app_assoc. reflexivity.
Qed.

(** X3.  When the path passes the check and [pdfinfo] gives [n] pages,
    [parse_pdf] runs [pdfinfo] once and then [pdftotext] once on each of the
    pages 1, ..., n in order, whether or not earlier pages failed, and
    returns the sections of the pages that could be extracted, each page
    segmented on its own, in page order. *)
Theorem parse_pdf_pages {F : Type} {N : Num F}
        (w : World) (filepath : str) (n : nat) :
  path_exists w filepath = true ->
  endswith (lower filepath) (lit ".pdf") = true ->
  run_pdfinfo w filepath = Some n ->
  parse_pdf w filepath
  = (Pdfinfo filepath :: map (Pdftotext filepath) (seq 1 n),
     Ok (flat_map sections_of_page (successful_pages w filepath n))).
Proof.
  intros Hp He Hn. unfold parse_pdf. rewrite Hp, He, Hn. simpl.
  rewrite page_loop_closed. reflexivity.
Qed.

Lemma parse_pdf_pages_witness :
  @parse_pdf float _ example_world (lit "doc.PDF")
  = ([Pdfinfo (lit "doc.PDF"); Pdftotext (lit "doc.PDF") 1;
      Pdftotext (lit "doc.PDF") 2],
     Ok [mkSection (Some (lit "1. Introduction")) (Some (lit "Some body text."))
                   (Some 2) None]).
Proof.
  rewrite (@parse_pdf_pages float _ example_world (lit "doc.PDF") 2);
    [|reflexivity|vm_compute; reflexivity|reflexivity].
  vm_compute. reflexivity.
Defined.

(** X4.  When the path passes the check, [parse_pdf] ends in
    [RuntimeError] exactly when [pdfinfo] fails, and then it has run nothing
    else; a failure of [pdftotext] on a page never ends the call. *)
Theorem parse_pdf_runtime_error {F : Type} {N : Num F}
        (w : World) (filepath : str) :
  path_exists w filepath = true ->
  endswith (lower filepath) (lit ".pdf") = true ->
  (snd (parse_pdf w filepath) = RuntimeError <-> run_pdfinfo w filepath = None)
  /\ (run_pdfinfo w filepath = None ->
      fst (parse_pdf w filepath) = [Pdfinfo filepath])
  /\ (forall n, run_pdfinfo w filepath = Some n ->
                exists secs, snd (parse_pdf w filepath) = Ok secs).
Proof.
  intros Hp He. unfold parse_pdf. rewrite Hp, He. simpl.
  destruct (run_pdfinfo w filepath) as [n|]; simpl.
  - rewrite page_loop_closed. simpl. repeat split; try discriminate.
    intros m _. now eexists.
  - repeat split; auto. discriminate.
Qed.

Lemma parse_pdf_runtime_error_witness :
  snd (@parse_pdf float _
         (mkWorld (fun _ => true) (fun _ => None) (fun _ _ => None))
         (lit "a.pdf")) = RuntimeError.
Proof.
  apply (@parse_pdf_runtime_error float _
           (mkWorld (fun _ => true) (fun _ => None) (fun _ _ => None))
           (lit "a.pdf")); reflexivity.
Defined.

Lemma sections_of_page_number {F : Type} {N : Num F} (pt : nat * str) :
  map page_number (sections_of_page pt)
  = repeat (Some (fst pt)) (List.length (sections_of_page pt)).
Proof.
  destruct pt as [p t].
  destruct (parse_page_facts p t) as (new & H & Hall & _).
  unfold sections_of_page. simpl. rewrite (H []). simpl.
  clear H. induction Hall as [|s l Hs _ IH]; [reflexivity|].
  simpl. rewrite IH. destruct Hs as (-> & _). reflexivity.
Qed.

Lemma pages_sorted {F : Type} {N : Num F}
      (w : World) (filepath : str) (len : nat) :
  forall start,
    exists pages,
      map page_number
          (flat_map sections_of_page
             (flat_map (fun p => match run_pdftotext w filepath p with
                                 | Some t => [(p, t)]
                                 | None => []
                                 end) (seq start len)))
      = map Some pages
      /\ Forall (fun p => start <= p < start + len) pages
      /\ StronglySorted le pages.
Proof.
  induction len as [|len IH]; intros start; simpl.
  - exists []. repeat split; constructor.
  - destruct (IH (S start)) as (pages & Hm & Hr & Hs).
    assert (Hr' : Forall (fun p => start <= p < start + S len) pages).
    { eapply Forall_impl; [|exact Hr]. simpl. intros; lia. }
    destruct (run_pdftotext w filepath start) as [t|]; simpl.
    + exists (repeat start (List.length (sections_of_page (start, t))) ++ pages).
      rewrite !map_app, Hm, sections_of_page_number. simpl.
      split; [|split].
      * f_equal. generalize (List.length (sections_of_page (start, t))).
        intros k. induction k; simpl; congruence.
      * apply Forall_app. split; [|exact Hr'].
        apply Forall_forall. intros p Hp. apply repeat_spec in Hp. lia.
      * generalize (List.length (sections_of_page (start, t))). intros k.
        induction k as [|k IHk]; simpl; [exact Hs|].
        constructor; [exact IHk|].
        apply Forall_app. split.
        -- apply Forall_forall. intros p Hp. apply repeat_spec in Hp. lia.
        -- eapply Forall_impl; [|exact Hr]. simpl. intros; lia.
    + exists pages. repeat split; assumption.
Qed.

(** X5.  The sections [parse_pdf] returns are in page order: their page
    numbers never decrease along the list, and each lies between 1 and the
    number of pages [pdfinfo] reported. *)
Theorem parse_pdf_page_order {F : Type} {N : Num F}
        (w : World) (filepath : str) (n : nat) :
  path_exists w filepath = true ->
  endswith (lower filepath) (lit ".pdf") = true ->
  run_pdfinfo w filepath = Some n ->
  exists secs pages,
    snd (parse_pdf w filepath) = Ok secs
    /\ map page_number secs = map Some pages
    /\ Forall (fun p => 1 <= p <= n) pages
    /\ StronglySorted le pages.
Proof.
  intros Hp He Hn. unfold parse_pdf. rewrite Hp, He, Hn. simpl.
  rewrite page_loop_closed. simpl.
  destruct (pages_sorted w filepath n 1) as (pages & Hm & Hr & Hs).
  eexists. exists pages. split; [reflexivity|]. split; [exact Hm|].
  split; [|exact Hs]. eapply Forall_impl; [|exact Hr]. simpl. intros; lia.
Qed.

Lemma parse_pdf_page_order_witness :
  exists secs pages,
    snd (@parse_pdf float _ example_world (lit "doc.pdf")) = Ok secs
    /\ map page_number secs = map Some pages
    /\ Forall (fun p => 1 <= p <= 2) pages
    /\ StronglySorted le pages.
Proof.
  apply (@parse_pdf_page_order float _ example_world (lit "doc.pdf") 2);
    reflexivity.
Defined.

(* ------------------------------------------------------------------ *)
(** * Counters, term frequencies and inverse document frequencies *)

Lemma mem_In (x : str) (l : list str) : mem x l = true <-> In x l.
Proof.
  unfold mem. rewrite existsb_exists. split.
  - intros (y & Hy & E). apply str_eqb_eq in E. now subst.
  - intros H. exists x. split; [exact H|apply str_eqb_refl].
Qed.

Lemma get_or_incr (d : dict nat) (k w : str) :
  get_or (incr d k) w 0 = get_or d w 0 + (if str_eqb k w then 1 else 0).
Proof.
  unfold get_or. induction d as [|[k' c] r IH]; simpl.
  - destruct (str_eqb k w); reflexivity.
  - destruct (str_eqb k' k) eqn:E; simpl.
    + apply str_eqb_eq in E. subst k'.
      destruct (str_eqb k w); simpl; lia.
    + destruct (str_eqb k' w) eqn:E'; simpl; [|exact IH].
      destruct (str_eqb k w) eqn:E''; [|lia].
      apply str_eqb_eq in E', E''. subst. rewrite str_eqb_refl in E. discriminate.
Qed.

Lemma keys_incr (d : dict nat) (k : str) :
  keys (incr d k) = if mem k (keys d) then keys d else keys d ++ [k].
Proof.
  unfold keys, mem. induction d as [|[k' c] r IH]; simpl; [reflexivity|].
  destruct (str_eqb k' k) eqn:E; simpl.
  - apply str_eqb_eq in E. subst. now rewrite str_eqb_refl.
  - rewrite IH.
    assert (E' : str_eqb k k' = false).
    { apply str_eqb_neq. apply str_eqb_neq in E. congruence. }
    rewrite E'. simpl. now destruct (existsb (str_eqb k) (map fst r)).
Qed.

Lemma NoDup_keys_incr (d : dict nat) (k : str) :
  NoDup (keys d) -> NoDup (keys (incr d k)).
Proof.
  intros H. rewrite keys_incr. destruct (mem k (keys d)) eqn:E; [exact H|].
  apply NoDup_app; [exact H|repeat constructor; intros []|].
  intros x Hx [<-|[]]. apply mem_In in Hx. congruence.
Qed.

Lemma sum_values_incr (d : dict nat) (k : str) :
  list_sum (values (incr d k)) = S (list_sum (values d)).
Proof.
  unfold values. induction d as [|[k' c] r IH]; simpl; [reflexivity|].
  destruct (str_eqb k' k); simpl; [reflexivity|]. rewrite IH. lia.
Qed.

Lemma fold_incr_facts (l : list str) :
  forall d,
    NoDup (keys d) ->
    NoDup (keys (fold_left incr l d))
    /\ (forall w, get_or (fold_left incr l d) w 0 = get_or d w 0 + occurrences l w)
    /\ (forall w, In w (keys (fold_left incr l d)) <-> In w (keys d) \/ In w l)
    /\ list_sum (values (fold_left incr l d))
       = list_sum (values d) + List.length l.
Proof.
  induction l as [|x r IH]; intros d Hd; simpl.
  - repeat split; auto; try lia; tauto.
  - destruct (IH (incr d x) (NoDup_keys_incr d x Hd)) as (H1 & H2 & H3 & H4).
    split; [exact H1|]. split; [|split].
    + intros w. rewrite H2, get_or_incr. unfold occurrences. simpl.
      destruct (list_eq_dec ascii_dec x w) as [->|Hne].
      * rewrite str_eqb_refl. lia.
      * apply str_eqb_neq in Hne. rewrite Hne. lia.
    + intros w. rewrite H3, keys_incr.
      destruct (mem x (keys d)) eqn:E.
      * apply mem_In in E. split; [tauto|].
        intros [H|[<-|H]]; auto.
      * rewrite in_app_iff. simpl. tauto.
    + rewrite H4, sum_values_incr. lia.
Qed.

(** [Counter(words)] has one entry for each distinct word, holding
    the number of its occurrences (a word that does not occur has no
    entry), and the counts add up to [len(words)]. *)
Lemma Counter_counts (words : list str) :
  NoDup (keys (Counter words))
  /\ (forall w, In w (keys (Counter words)) <-> In w words)
  /\ (forall w, get_or (Counter words) w 0 = occurrences words w)
  /\ (forall w, dict_get (Counter words) w = None <-> ~ In w words)
  /\ list_sum (values (Counter words)) = List.length words.
Proof.
  unfold Counter.
  destruct (fold_incr_facts words [] (NoDup_nil _)) as (H1 & H2 & H3 & H4).
  split; [exact H1|]. split; [|split; [|split]].
  - intros w. rewrite H3. simpl. tauto.
  - intros w. rewrite H2. reflexivity.
  - intros w.
    assert (G : forall d : dict nat, dict_get d w = None <-> ~ In w (keys d)).
    { induction d as [|[k c] r IH]; simpl; [tauto|].
      destruct (str_eqb k w) eqn:E.
      - apply str_eqb_eq in E. split; [discriminate|]. intros H. exfalso. auto.
      - apply str_eqb_neq in E. rewrite IH. tauto. }
    rewrite G, H3. simpl. tauto.
  - rewrite H4. reflexivity.
Qed.

Lemma dict_get_map {V W : Type} (g : V -> W) (d : dict V) (w : str) :
  dict_get (map (fun kv : str * V => (fst kv, g (snd kv))) d) w
  = option_map g (dict_get d w).
Proof.
  induction d as [|[k v] r IH]; simpl; [reflexivity|].
  destruct (str_eqb k w); [reflexivity|exact IH].
Qed.

Lemma dict_get_in_keys {V : Type} (d : dict V) (w : str) :
  In w (keys d) <-> exists v, dict_get d w = Some v.
Proof.
  induction d as [|[k v] r IH]; simpl.
  - split; [tauto|]. intros [v H]. discriminate.
  - destruct (str_eqb k w) eqn:E.
    + apply str_eqb_eq in E. split; [now eexists|auto].
    + apply str_eqb_neq in E. rewrite <- IH. tauto.
Qed.

Local Open Scope R_scope.

Lemma Rsum_map_div (l : list nat) (t : R) :
  Rsum (map (fun c => INR c / t) l) = INR (list_sum l) / t.
Proof.
  induction l as [|c r IH]; simpl.
  - unfold Rdiv. now rewrite Rmult_0_l.
  - rewrite IH, plus_INR. unfold Rdiv. ring.
Qed.

(** The closed form of [_compute_tf] in exact arithmetic. *)
Lemma compute_tf_R (words : list str) :
  _compute_tf words
  = Some (map (fun kv : str * nat =>
                 (fst kv, INR (snd kv) / INR (List.length words)))
              (Counter words)).
Proof.
  unfold _compute_tf. destruct (null words) eqn:E.
  - apply null_true in E. subst. reflexivity.
  - apply null_false in E. apply mapM_map. intros [w c] _. cbn [fst snd].
    rewrite int_div_R; [reflexivity|].
    destruct words; [contradiction|discriminate].
Qed.

(** X6.  In exact arithmetic [_compute_tf] raises nothing; the result has
    one entry for each distinct word, holding its number of occurrences
    divided by [len(words)], so that the frequencies of a non-empty list add
    up to 1; the result for the empty list is the empty dictionary. *)
Theorem compute_tf_distribution (words : list str) :
  exists tf : dict R,
    _compute_tf words = Some tf
    /\ keys tf = keys (Counter words)
    /\ (forall w, In w words ->
          dict_get tf w
          = Some (INR (occurrences words w) / INR (List.length words)))
    /\ (forall w, ~ In w words -> dict_get tf w = None)
    /\ (words = [] -> tf = [])
    /\ (words <> [] -> Rsum (values tf) = 1).
Proof.
  destruct (fold_incr_facts words [] (NoDup_nil _)) as (Hnd & Hget & Hin & Hsum).
  fold (Counter words) in Hnd, Hget, Hin, Hsum. simpl in Hsum.
  set (g := fun c : nat => INR c / INR (List.length words)).
  exists (map (fun kv : str * nat => (fst kv, g (snd kv))) (Counter words)).
  assert (Hk : keys (map (fun kv : str * nat => (fst kv, g (snd kv)))
                         (Counter words)) = keys (Counter words)).
  { unfold keys. rewrite map_map. reflexivity. }
  split; [|split; [exact Hk|split; [|split; [|split]]]].
  - apply compute_tf_R.
  - intros w Hw. rewrite dict_get_map.
    assert (Hsome : exists c, dict_get (Counter words) w = Some c).
    { apply dict_get_in_keys, Hin. now right. }
    destruct Hsome as [c Hc]. rewrite Hc. simpl. unfold g. do 3 f_equal.
    specialize (Hget w). unfold get_or in Hget. rewrite Hc in Hget.
    simpl in Hget. exact Hget.
  - intros w Hw. rewrite dict_get_map.
    destruct (dict_get (Counter words) w) as [c|] eqn:Hc; [|reflexivity].
    exfalso. apply Hw.
    assert (Hk' : In w (keys (Counter words)))
      by (apply dict_get_in_keys; now exists c).
    apply Hin in Hk'. destruct Hk' as [[]|Hk']. exact Hk'.
  - intros ->. reflexivity.
  - intros Hne. unfold values. rewrite map_map. simpl. unfold g.
    rewrite <- (map_map snd (fun c => INR c / INR (List.length words))).
    rewrite Rsum_map_div. fold (values (Counter words)). rewrite Hsum.
    apply Rinv_r. apply not_0_INR. destruct words; [contradiction|discriminate].
Qed.

Local Close Scope R_scope.

Lemma to_set_In (l : list str) (x : str) : In x (to_set l) <-> In x l.
Proof.
  induction l as [|y r IH]; simpl; [tauto|].
  rewrite filter_In, IH. destruct (list_eq_dec ascii_dec y x) as [->|Hne].
  - tauto.
  - apply str_eqb_neq in Hne. rewrite Hne. simpl. tauto.
Qed.

Lemma to_set_NoDup (l : list str) : NoDup (to_set l).
Proof.
  induction l as [|y r IH]; simpl; constructor.
  - rewrite filter_In. intros [_ H]. rewrite str_eqb_refl in H. discriminate.
  - now apply NoDup_filter.
Qed.

Lemma occurrences_to_set (l : list str) (w : str) :
  occurrences (to_set l) w = if mem w l then 1 else 0.
Proof.
  unfold occurrences. destruct (mem w l) eqn:E.
  - apply mem_In, to_set_In in E.
    apply (proj1 (NoDup_count_occ' (list_eq_dec ascii_dec) (to_set l))
                 (to_set_NoDup l)) in E. exact E.
  - apply count_occ_not_In. rewrite to_set_In, <- mem_In. congruence.
Qed.

Lemma doc_counts_facts (docs : list (list str)) :
  forall d,
    NoDup (keys d) ->
    let d' := fold_left (fun d tokens => fold_left incr (to_set tokens) d) docs d in
    NoDup (keys d')
    /\ (forall w, get_or d' w 0 = get_or d w 0 + doc_frequency docs w)
    /\ (forall w, In w (keys d') <->
                  In w (keys d) \/ exists tokens, In tokens docs /\ In w tokens).
Proof.
  induction docs as [|tokens r IH]; intros d Hd; simpl.
  - repeat split; auto; try lia. intros [H|(t & [] & _)]. exact H.
  - destruct (fold_incr_facts (to_set tokens) d Hd) as (H1 & H2 & H3 & _).
    destruct (IH _ H1) as (G1 & G2 & G3). split; [exact G1|]. split.
    + intros w. rewrite G2, H2, occurrences_to_set. unfold doc_frequency.
      simpl. destruct (mem w tokens); simpl; lia.
    + intros w. rewrite G3, H3, to_set_In. split.
      * intros [[H|H]|(t & Ht & Hw)]; auto.
        -- right. exists tokens. auto.
        -- right. exists t. auto.
      * intros [H|(t & [<-|Ht] & Hw)]; auto. right. now exists t.
Qed.

Local Open Scope R_scope.

Lemma idf_weight_ge_1 (n c : nat) :
  (c <= n)%nat -> 1 <= ln (INR (1 + n) / INR (1 + c)) + 1.
Proof.
  intros Hle.
  assert (Hpos : 0 < INR (1 + c)) by (apply lt_0_INR; lia).
  assert (Hge : 1 <= INR (1 + n) / INR (1 + c)).
  { apply Rmult_le_reg_r with (r := INR (1 + c)); [exact Hpos|].
    unfold Rdiv. rewrite Rmult_assoc, Rinv_l by lra.
    rewrite Rmult_1_l, Rmult_1_r. apply le_INR. lia. }
  assert (Hln : 0 <= ln (INR (1 + n) / INR (1 + c))).
  { rewrite <- ln_1. destruct Hge as [Hlt|Heq].
    - left. apply ln_increasing; lra.
    - rewrite <- Heq. lra. }
  lra.
Qed.

(** The closed form of [_compute_idf] in exact arithmetic. *)
Lemma compute_idf_R (log : R -> R) (doc_tokens : list (list str)) :
  _compute_idf log doc_tokens
  = Some (map (fun kv : str * nat =>
                 (fst kv,
                  log (INR (1 + List.length doc_tokens) / INR (1 + snd kv)) + 1))
              (doc_counts doc_tokens)).
Proof.
  unfold _compute_idf. apply mapM_map. intros [w c] _. cbn [fst snd].
  rewrite int_div_R by discriminate. reflexivity.
Qed.

Lemma doc_counts_frequency (doc_tokens : list (list str)) (w : str) (c : nat) :
  dict_get (doc_counts doc_tokens) w = Some c ->
  c = doc_frequency doc_tokens w /\ (c <= List.length doc_tokens)%nat.
Proof.
  intros Hc.
  destruct (doc_counts_facts doc_tokens [] (NoDup_nil _)) as (_ & H2 & _).
  fold (doc_counts doc_tokens) in H2.
  specialize (H2 w). unfold get_or in H2. rewrite Hc in H2. simpl in H2.
  split; [exact H2|]. rewrite H2. apply filter_length_le.
Qed.

(** X7.  With the natural logarithm for [math.log], in exact arithmetic,
    [_compute_idf] raises nothing; the result has one entry for each term
    that occurs in some document, holding
    [ln((1 + N) / (1 + df)) + 1], where [N] is the number of documents and
    [df] the number of documents in which the term occurs; every such
    weight is at least 1. *)
Theorem compute_idf_weights (doc_tokens : list (list str)) :
  exists idf : dict R,
    _compute_idf ln doc_tokens = Some idf
    /\ NoDup (keys idf)
    /\ (forall w, In w (keys idf) <->
                  exists tokens, In tokens doc_tokens /\ In w tokens)
    /\ (forall w, In w (keys idf) ->
          dict_get idf w
          = Some (ln (INR (1 + List.length doc_tokens)
                      / INR (1 + doc_frequency doc_tokens w)) + 1))
    /\ (forall w v, dict_get idf w = Some v -> 1 <= v).
Proof.
  destruct (doc_counts_facts doc_tokens [] (NoDup_nil _)) as (H1 & _ & H3).
  fold (doc_counts doc_tokens) in H1, H3.
  set (g := fun c : nat => ln (INR (1 + List.length doc_tokens) / INR (1 + c)) + 1).
  exists (map (fun kv : str * nat => (fst kv, g (snd kv))) (doc_counts doc_tokens)).
  assert (Hk : keys (map (fun kv : str * nat => (fst kv, g (snd kv)))
                         (doc_counts doc_tokens)) = keys (doc_counts doc_tokens)).
  { unfold keys. rewrite map_map. reflexivity. }
  split; [|split; [|split; [|split]]].
  - apply compute_idf_R.
  - now rewrite Hk.
  - intros w. rewrite Hk, H3. simpl. tauto.
  - intros w Hw. rewrite Hk in Hw. apply dict_get_in_keys in Hw.
    destruct Hw as [c Hc]. rewrite dict_get_map, Hc. simpl. unfold g.
    destruct (doc_counts_frequency _ _ _ Hc) as [-> _]. reflexivity.
  - intros w v Hv. rewrite dict_get_map in Hv.
    destruct (dict_get (doc_counts doc_tokens) w) as [c|] eqn:Hc; [|discriminate].
    simpl in Hv. injection Hv as <-. unfold g.
    apply idf_weight_ge_1. now destruct (doc_counts_frequency _ _ _ Hc).
Qed.

Local Close Scope R_scope.

(* ------------------------------------------------------------------ *)
(** * The four signals in exact arithmetic *)

Lemma mapM_spec {A B : Type} (f : A -> option B) (P : A -> B -> Prop)
      (l : list A) :
  (forall a, In a l -> exists b, f a = Some b /\ P a b) ->
  exists bs, mapM f l = Some bs /\ Forall2 P l bs.
Proof.
  induction l as [|a r IH]; intros H; simpl.
  - exists []. split; [reflexivity|constructor].
  - destruct (H a (or_introl eq_refl)) as (b & -> & Hb).
    destruct IH as (bs & -> & Hbs); [intros; apply H; now right|].
    exists (b :: bs). split; [reflexivity|now constructor].
Qed.

Local Open Scope R_scope.

Lemma ratio_range (a b : nat) :
  (a <= b)%nat -> (b <> 0)%nat -> 0 <= INR a / INR b <= 1.
Proof.
  intros Hab Hb.
  assert (Hpos : 0 < INR b) by (apply lt_0_INR; lia).
  pose proof (pos_INR a) as Ha. pose proof (le_INR _ _ Hab) as Hle.
  split.
  - apply Rmult_le_pos; [exact Ha|]. left. now apply Rinv_0_lt_compat.
  - apply Rmult_le_reg_r with (r := INR b); [exact Hpos|].
    unfold Rdiv. rewrite Rmult_assoc, Rinv_l by lra. lra.
Qed.

Lemma mem_to_set (w : str) (l : list str) : mem w (to_set l) = mem w l.
Proof.
  destruct (mem w (to_set l)) eqn:A; destruct (mem w l) eqn:B; try reflexivity.
  - pose proof (proj1 (mem_In _ _) A) as H1.
    pose proof (proj1 (to_set_In _ _) H1) as H2.
    pose proof (proj2 (mem_In _ _) H2). congruence.
  - pose proof (proj1 (mem_In _ _) B) as H1.
    pose proof (proj2 (to_set_In _ _) H1) as H2.
    pose proof (proj2 (mem_In _ _) H2). congruence.
Qed.

(** X8.  In exact arithmetic [compute_persona_match] raises nothing and
    gives one score per section, in order, each in [0,1]: 0 when the
    persona string or the section text has no word, and otherwise the
    number of distinct persona words that occur in the section divided by
    the number of distinct persona words, which is 1 exactly when all of
    them occur. *)
Theorem persona_match_range (sections : list Section) (persona_role : str) :
  let persona_words := to_set (split (_clean_text persona_role)) in
  exists scores : list R,
    compute_persona_match sections persona_role = Some scores
    /\ Forall2 (fun sec v =>
                  let sec_words := split (_clean_text (get_str (text sec))) in
                  0 <= v <= 1
                  /\ (persona_words = [] \/ sec_words = [] -> v = 0)
                  /\ (persona_words <> [] -> sec_words <> [] ->
                      v = INR (List.length
                                 (filter (fun w => mem w sec_words) persona_words))
                          / INR (List.length persona_words)
                      /\ (v = 1 <-> forall w, In w persona_words -> In w sec_words)))
               sections scores.
Proof.
  intros persona_words. unfold compute_persona_match. fold persona_words.
  apply mapM_spec. intros sec _. cbv zeta.
  set (sw := split (_clean_text (get_str (text sec)))).
  destruct (null persona_words) eqn:Ep.
  { apply null_true in Ep. exists 0.
    split; [reflexivity|]. split; [lra|]. split; [reflexivity|]. congruence. }
  destruct (null (to_set sw)) eqn:Es.
  { apply null_true in Es. exists 0.
    split; [reflexivity|]. split; [lra|]. split; [reflexivity|].
    intros _ Hne. exfalso. apply Hne. destruct sw; [reflexivity|discriminate]. }
  cbn [orb]. apply null_false in Ep, Es.
  assert (Hlen : List.length persona_words <> 0%nat)
    by (destruct persona_words; [contradiction|discriminate]).
  rewrite int_div_R by exact Hlen. eexists. split; [reflexivity|].
  set (overlap := filter (fun w => mem w (to_set sw)) persona_words).
  assert (Hle : (List.length overlap <= List.length persona_words)%nat)
    by apply filter_length_le.
  split; [now apply ratio_range|]. split.
  - intros [H|H]; [contradiction|]. exfalso. apply Es. now rewrite H.
  - intros _ _.
    assert (Hpos : 0 < INR (List.length persona_words)) by (apply lt_0_INR; lia).
    split.
    { unfold overlap. do 3 f_equal. apply filter_ext. intros w.
      apply mem_to_set. }
    split.
    + intros H1 w Hw.
      assert (Heq : List.length overlap = List.length persona_words).
      { apply INR_eq. apply Rmult_eq_reg_r with (r := / INR (List.length persona_words)).
        - unfold Rdiv in H1. rewrite H1, Rinv_r; lra.
        - apply Rinv_neq_0_compat. lra. }
      assert (Hall : forallb (fun w => mem w (to_set sw)) persona_words = true).
      { clear - Heq. unfold overlap in Heq.
        induction persona_words as [|x r IH]; [reflexivity|].
        simpl in *. destruct (mem x (to_set sw)) eqn:E; simpl in *.
        - apply IH. lia.
        - pose proof (filter_length_le (fun w => mem w (to_set sw)) r). lia. }
      rewrite forallb_forall in Hall. pose proof (Hall w Hw) as Hm.
      apply (proj1 (mem_In _ _)) in Hm. exact (proj1 (to_set_In _ _) Hm).
    + intros Hall.
      assert (Heq : overlap = persona_words).
      { unfold overlap. apply forallb_filter_id. apply forallb_forall.
        intros w Hw. apply mem_In, to_set_In. auto. }
      rewrite Heq. apply Rinv_r. lra.
Qed.

(** X9.  In exact arithmetic [compute_actionability] raises nothing and
    gives one score per section, in order: the share of the words of the
    section that are action verbs, in [0,1], and 0 for a section without
    words. *)
Theorem actionability_range (sections : list Section) :
  exists scores : list R,
    compute_actionability sections = Some scores
    /\ Forall2 (fun sec v =>
                  let words := split (_clean_text (get_str (text sec))) in
                  0 <= v <= 1
                  /\ (words = [] -> v = 0)
                  /\ (words <> [] ->
                      v = INR (List.length
                                 (filter (fun w => mem w ACTION_VERBS) words))
                          / INR (List.length words)))
               sections scores.
Proof.
  unfold compute_actionability. apply mapM_spec. intros sec _. cbv zeta.
  set (words := split (_clean_text (get_str (text sec)))).
  destruct (null words) eqn:E.
  - apply null_true in E. exists 0.
    split; [reflexivity|]. split; [lra|]. split; [reflexivity|]. congruence.
  - apply null_false in E.
    assert (Hlen : List.length words <> 0%nat)
      by (destruct words; [contradiction|discriminate]).
    rewrite int_div_R by exact Hlen. eexists. split; [reflexivity|].
    split; [apply ratio_range; [apply filter_length_le|exact Hlen]|].
    split; [congruence|reflexivity].
Qed.

Local Close Scope R_scope.

(* ------------------------------------------------------------------ *)
(** * Titles shared by documents *)

Lemma dict_get_add_doc (d : dict (list str)) (title doc t : str) :
  dict_get (add_doc d title doc) t
  = if str_eqb title t
    then Some match dict_get d title with
              | Some docs => if mem doc docs then docs else docs ++ [doc]
              | None => [doc]
              end
    else dict_get d t.
Proof.
  induction d as [|[k docs] r IH]; simpl.
  - destruct (str_eqb title t); reflexivity.
  - destruct (str_eqb k title) eqn:E; simpl.
    + apply str_eqb_eq in E. subst k.
      destruct (str_eqb title t); reflexivity.
    + destruct (str_eqb k t) eqn:E'.
      * destruct (str_eqb title t) eqn:E''; [|reflexivity].
        apply str_eqb_eq in E', E''. subst.
        rewrite str_eqb_refl in E. discriminate.
      * exact IH.
Qed.

Lemma title_counts_snoc (sections : list Section) (sec : Section) :
  title_counts (sections ++ [sec])
  = add_doc (title_counts sections) (get_str (section_title sec))
            (get_str (document sec)).
Proof. unfold title_counts. now rewrite fold_left_app. Qed.

(** The documents recorded for a title: each once, and exactly those of the
    sections with that title. *)
Lemma title_counts_docs (sections : list Section) (t : str) :
  match dict_get (title_counts sections) t with
  | Some docs =>
      NoDup docs
      /\ (forall x, In x docs <->
                    In x (map (fun sec => get_str (document sec))
                              (filter (fun sec =>
                                         str_eqb (get_str (section_title sec)) t)
                                      sections)))
      /\ docs <> []
  | None =>
      filter (fun sec => str_eqb (get_str (section_title sec)) t) sections = []
  end.
Proof.
  induction sections as [|sec r IH] using rev_ind.
  - reflexivity.
  - rewrite title_counts_snoc, dict_get_add_doc, filter_app. simpl.
    destruct (str_eqb (get_str (section_title sec)) t) eqn:E.
    + apply str_eqb_eq in E. rewrite E.
      destruct (dict_get (title_counts r) t) as [docs|].
      * destruct IH as (Hnd & Hin & Hne).
        destruct (mem (get_str (document sec)) docs) eqn:Em.
        -- split; [exact Hnd|]. split; [|exact Hne].
           intros x. rewrite map_app, in_app_iff, <- Hin. simpl.
           apply mem_In in Em. split; [tauto|]. intros [H|[<-|[]]]; auto.
        -- split; [|split].
           ++ apply NoDup_app; [exact Hnd|repeat constructor; intros []|].
              intros x Hx [<-|[]]. apply mem_In in Hx. congruence.
           ++ intros x. rewrite map_app, !in_app_iff, <- Hin. reflexivity.
           ++ destruct docs; discriminate.
      * rewrite IH. simpl. split; [repeat constructor; intros []|].
        split; [reflexivity|discriminate].
    + destruct (dict_get (title_counts r) t) as [docs|].
      * rewrite app_nil_r. exact IH.
      * now rewrite IH.
Qed.

Lemma freq_map_get (sections : list Section) (t : str) :
  In t (map (fun sec => get_str (section_title sec)) sections) ->
  dict_get (freq_map sections) t = Some (distinct_docs sections t)
  /\ 1 <= distinct_docs sections t.
Proof.
  intros Ht. unfold freq_map.
  rewrite (dict_get_map (@List.length str)).
  pose proof (title_counts_docs sections t) as H.
  destruct (dict_get (title_counts sections) t) as [docs|].
  - destruct H as (Hnd & Hin & Hne). simpl.
    assert (Hlen : List.length docs = distinct_docs sections t).
    { unfold distinct_docs. apply Permutation_length.
      apply NoDup_Permutation; [exact Hnd|apply to_set_NoDup|].
      intros x. rewrite Hin, to_set_In. reflexivity. }
    rewrite Hlen. split; [reflexivity|]. rewrite <- Hlen.
    destruct docs; [contradiction|simpl; lia].
  - exfalso. apply in_map_iff in Ht. destruct Ht as (sec & <- & Hsec).
    assert (Hf : In sec (filter (fun s => str_eqb (get_str (section_title s))
                                                  (get_str (section_title sec)))
                                sections)).
    { apply filter_In. split; [exact Hsec|apply str_eqb_refl]. }
    rewrite H in Hf. destruct Hf.
Qed.

Lemma max_nat_In (l : list nat) : l <> [] -> In (max_nat l) l.
Proof.
  unfold max_nat.
  assert (G : forall l a, fold_left Nat.max l a = a \/ In (fold_left Nat.max l a) l).
  { induction l0 as [|x r IH]; intros a; simpl; [now left|].
    destruct (IH (Nat.max a x)) as [H|H]; [|now right; right].
    destruct (Nat.max_dec a x) as [E|E]; rewrite E in H |- *.
    - now left.
    - right. left. now rewrite H. }
  intros Hne. destruct (G l 0) as [H|H]; [|exact H].
  destruct l as [|x r]; [contradiction|].
  pose proof (max_nat_ge (x :: r) x (or_introl eq_refl)) as Hx.
  unfold max_nat in Hx. rewrite H in *. left. lia.
Qed.

Lemma keys_freq_map (sections : list Section) (t : str) :
  In t (keys (freq_map sections)) ->
  In t (map (fun sec => get_str (section_title sec)) sections).
Proof.
  intros H. apply dict_get_in_keys in H. destruct H as [v Hv].
  unfold freq_map in Hv. rewrite (dict_get_map (@List.length str)) in Hv.
  pose proof (title_counts_docs sections t) as G.
  destruct (dict_get (title_counts sections) t) as [docs|]; [|discriminate].
  destruct G as (_ & Hin & Hne). destruct docs as [|x docs]; [contradiction|].
  assert (Hx : In x (x :: docs)) by now left.
  apply Hin in Hx. apply in_map_iff in Hx. destruct Hx as (sec & _ & Hsec).
  apply filter_In in Hsec. destruct Hsec as [Hsec E].
  apply str_eqb_eq in E. apply in_map_iff. now exists sec.
Qed.

Lemma keys_add_doc (d : dict (list str)) (title doc : str) :
  keys (add_doc d title doc)
  = if mem title (keys d) then keys d else keys d ++ [title].
Proof.
  unfold keys, mem. induction d as [|[k docs] r IH]; simpl; [reflexivity|].
  destruct (str_eqb k title) eqn:E; simpl.
  - apply str_eqb_eq in E. subst. now rewrite str_eqb_refl.
  - rewrite IH.
    assert (E' : str_eqb title k = false).
    { apply str_eqb_neq. apply str_eqb_neq in E. congruence. }
    rewrite E'. simpl. now destruct (existsb (str_eqb title) (map fst r)).
Qed.

Lemma NoDup_keys_title_counts (sections : list Section) :
  NoDup (keys (title_counts sections)).
Proof.
  induction sections as [|s r IH] using rev_ind; [constructor|].
  rewrite title_counts_snoc, keys_add_doc.
  destruct (mem (get_str (section_title s)) (keys (title_counts r))) eqn:E;
    [exact IH|].
  apply NoDup_app; [exact IH|repeat constructor; intros []|].
  intros x Hx [<-|[]]. apply mem_In in Hx. congruence.
Qed.

Lemma NoDup_keys_freq_map (sections : list Section) :
  NoDup (keys (freq_map sections)).
Proof.
  assert (E : keys (freq_map sections) = keys (title_counts sections)).
  { unfold freq_map, keys. rewrite map_map. reflexivity. }
  rewrite E. apply NoDup_keys_title_counts.
Qed.

Lemma dict_get_NoDup_In {V : Type} (d : dict V) (k : str) (v : V) :
  NoDup (keys d) -> In (k, v) d -> dict_get d k = Some v.
Proof.
  induction d as [|[k' v'] r IH]; intros Hnd Hin; simpl in *; [contradiction|].
  inversion Hnd as [|? ? Hn Hnd']; subst.
  destruct Hin as [Hin|Hin].
  - injection Hin as -> ->. now rewrite str_eqb_refl.
  - destruct (str_eqb k' k) eqn:E; [|now apply IH].
    apply str_eqb_eq in E. subst k'. exfalso. apply Hn.
    unfold keys. apply in_map_iff. now exists (k, v).
Qed.

Lemma Forall2_In_l {A B : Type} (P : A -> B -> Prop) (l : list A) (bs : list B)
      (a : A) :
  Forall2 P l bs -> In a l -> exists b, P a b /\ In b bs /\ True.
Proof.
  intros H. induction H as [|x y l l' Hxy _ IH]; intros Hin; [contradiction|].
  destruct Hin as [->|Hin].
  - exists y. repeat split; [exact Hxy|now left].
  - destruct (IH Hin) as (b & Hb & Hbin & _). exists b.
    repeat split; [exact Hb|now right].
Qed.

Lemma Rinv_r_div (x : R) : x <> 0%R -> (x / x = 1)%R.
Proof. intros H. unfold Rdiv. now apply Rinv_r. Qed.

Local Open Scope R_scope.

(** X10.  In exact arithmetic [compute_cross_document_importance] raises
    nothing and gives one score per section, in order: the number of
    distinct documents holding a section with the same title, divided by the
    largest such number over all titles.  Every score is in (0,1], and
    when there is a section at all some section scores exactly 1. *)
Theorem cross_document_scores (sections : list Section) :
  exists (scores : list R) (max_freq : nat),
    compute_cross_document_importance sections = Some scores
    /\ (1 <= max_freq)%nat
    /\ (forall sec, In sec sections ->
          (distinct_docs sections (get_str (section_title sec)) <= max_freq)%nat)
    /\ Forall2 (fun sec v =>
                  v = INR (distinct_docs sections (get_str (section_title sec)))
                      / INR max_freq
                  /\ 0 < v <= 1)
               sections scores
    /\ (sections <> [] -> In 1 scores).
Proof.
  set (fm := freq_map sections).
  set (m := if null fm then 1%nat else max_nat (values fm)).
  assert (Hm : m <> 0%nat) by apply max_freq_positive.
  assert (Hsec : forall sec, In sec sections ->
            dict_get fm (get_str (section_title sec))
            = Some (distinct_docs sections (get_str (section_title sec)))
            /\ (1 <= distinct_docs sections (get_str (section_title sec)) <= m)%nat).
  { intros sec Hin.
    destruct (freq_map_get sections (get_str (section_title sec))) as [Hg H1].
    { apply in_map_iff. now exists sec. }
    split; [exact Hg|]. split; [exact H1|].
    unfold m. destruct (null fm) eqn:En.
    - apply null_true in En. unfold fm in En. rewrite En in Hg. discriminate.
    - apply max_nat_ge. unfold values. apply in_map_iff.
      exists (get_str (section_title sec),
              distinct_docs sections (get_str (section_title sec))).
      split; [reflexivity|].
      clear - Hg. fold fm in Hg. induction fm as [|[k v] r IH]; simpl in *;
        [discriminate|].
      destruct (str_eqb k (get_str (section_title sec))) eqn:E.
      + apply str_eqb_eq in E. injection Hg as ->. left. now rewrite E.
      + right. now apply IH. }
  assert (Hmap : exists scores,
             compute_cross_document_importance sections = Some scores
             /\ Forall2 (fun sec v =>
                  v = INR (distinct_docs sections (get_str (section_title sec)))
                      / INR m
                  /\ 0 < v <= 1) sections scores).
  { unfold compute_cross_document_importance. fold fm. fold m.
    apply mapM_spec. intros sec Hin. cbv zeta.
    destruct (Hsec sec Hin) as (Hg & H1 & H2).
    unfold get_or. rewrite Hg. rewrite int_div_R by exact Hm.
    eexists. split; [reflexivity|]. split; [reflexivity|].
    destruct (ratio_range _ _ H2 Hm) as [_ Hle]. split; [|exact Hle].
    apply Rmult_lt_0_compat; [apply lt_0_INR; lia|].
    apply Rinv_0_lt_compat, lt_0_INR. lia. }
  destruct Hmap as (scores & Hs & HF).
  exists scores, m. split; [exact Hs|]. split; [lia|]. split; [|split; [exact HF|]].
  - intros sec Hin. now destruct (Hsec sec Hin) as (_ & _ & H2).
  - intros Hne.
    assert (Hfm : fm <> []).
    { destruct sections as [|sec r]; [contradiction|].
      destruct (Hsec sec (or_introl eq_refl)) as (Hg & _).
      intros E. rewrite E in Hg. discriminate. }
    assert (Hmax : In m (values fm)).
    { unfold m. apply null_false in Hfm. rewrite Hfm. apply max_nat_In.
      apply null_false in Hfm. destruct fm; [contradiction|discriminate]. }
    unfold values in Hmax. apply in_map_iff in Hmax.
    destruct Hmax as ([t v] & Hv & Hin). simpl in Hv. subst v.
    assert (Ht : In t (map (fun sec => get_str (section_title sec)) sections)).
    { apply keys_freq_map. unfold keys. apply in_map_iff. now exists (t, m). }
    apply in_map_iff in Ht. destruct Ht as (sec & Et & Hsecin).
    destruct (Hsec sec Hsecin) as (Hg & H1 & H2).
    assert (Hd : distinct_docs sections (get_str (section_title sec)) = m).
    { pose proof (dict_get_NoDup_In fm t m (NoDup_keys_freq_map sections) Hin)
        as Hgm.
      rewrite Et, Hgm in Hg. injection Hg as Hg. rewrite Et. symmetry. exact Hg. }
    destruct (Forall2_In_l _ _ _ _ HF Hsecin) as (v & [Hv _] & Hvin & _).
    subst v. rewrite Hd in Hvin. rewrite Rinv_r_div in Hvin; [exact Hvin|].
    apply not_0_INR. exact Hm.
Qed.

Local Close Scope R_scope.

(* ------------------------------------------------------------------ *)
(** * Semantic similarity *)

Lemma mapM_compose {A B C : Type} (f : B -> option C) (g : A -> B) (l : list A) :
  mapM f (map g l) = mapM (fun a => f (g a)) l.
Proof.
  induction l as [|a r IH]; simpl; [reflexivity|]. now rewrite IH.
Qed.

Local Open Scope R_scope.

Lemma cosine_R_range (a b : dict R) :
  NoDup (keys a) -> NoDup (keys b) ->
  (forall v, In v (values a) -> 0 <= v) ->
  (forall v, In v (values b) -> 0 <= v) ->
  exists c, _cosine_similarity a b = Some c
            /\ 0 <= c <= 1
            /\ (a = [] \/ b = [] -> c = 0).
Proof.
  intros Ha Hb Hva Hvb. rewrite (cosine_R _ _ Ha Hb). eexists.
  split; [reflexivity|]. split.
  - destruct (null a || null b); [lra|].
    destruct (Reqb (R_sqrt.sqrt (sqR a)) 0) eqn:E1; [simpl; lra|].
    destruct (Reqb (R_sqrt.sqrt (sqR b)) 0) eqn:E2; [simpl; lra|].
    simpl orb. cbv iota. apply Reqb_false in E1, E2.
    pose proof (sqrt_pos (sqR a)) as P1. pose proof (sqrt_pos (sqR b)) as P2.
    assert (Hp : 0 < R_sqrt.sqrt (sqR a) * R_sqrt.sqrt (sqR b)) by nra.
    pose proof (dotR_nonneg a b Hva Hvb) as Hd.
    pose proof (dotR_sq_le a b Ha) as Hs.
    assert (Hle : dotR a b <= R_sqrt.sqrt (sqR a) * R_sqrt.sqrt (sqR b)).
    { rewrite <- sqrt_mult by apply sqR_nonneg.
      rewrite <- (sqrt_square (dotR a b)) at 1 by exact Hd.
      apply sqrt_le_1_alt. exact Hs. }
    split.
    + apply Rmult_le_pos; [exact Hd|]. left. now apply Rinv_0_lt_compat.
    + apply Rmult_le_reg_r with (r := R_sqrt.sqrt (sqR a) * R_sqrt.sqrt (sqR b));
        [exact Hp|].
      unfold Rdiv. rewrite Rmult_assoc, Rinv_l by lra. lra.
  - intros [->| ->]; simpl; [reflexivity|]. now rewrite orb_true_r.
Qed.

Lemma tfidf_vector_facts (log : R -> R) (tokens : list str) (idf : dict R) :
  (forall w v, dict_get idf w = Some v -> 0 <= v) ->
  let vec := _compute_tfidf_vector
               (map (fun kv : str * nat =>
                       (fst kv, INR (snd kv) / INR (List.length tokens)))
                    (Counter tokens)) idf in
  NoDup (keys vec)
  /\ (forall v, In v (values vec) -> 0 <= v)
  /\ (tokens = [] -> vec = []).
Proof.
  intros Hidf vec. unfold vec, _compute_tfidf_vector.
  destruct (Counter_counts tokens) as (Hnd & _). split; [|split].
  - unfold keys. rewrite !map_map. simpl. exact Hnd.
  - intros v Hv. unfold values in Hv. rewrite !map_map in Hv. simpl in Hv.
    apply in_map_iff in Hv. destruct Hv as ([w c] & <- & _).
    cbn [fst snd]. change (@fmul R R_Num) with Rmult.
    replace (@fzero R R_Num) with 0 by (symmetry; apply fzero_R).
    assert (H1 : 0 <= INR c / INR (List.length tokens)).
    { apply Rmult_le_pos; [apply pos_INR|].
      destruct (List.length tokens) as [|n] eqn:E.
      - simpl. rewrite Rinv_0. lra.
      - left. apply Rinv_0_lt_compat, lt_0_INR. lia. }
    assert (H2 : 0 <= get_or idf w 0).
    { unfold get_or. destruct (dict_get idf w) as [v|] eqn:E; [|lra].
      eapply Hidf, E. }
    nra.
  - intros ->. reflexivity.
Qed.

(** X11.  With the natural logarithm as [math.log], in exact arithmetic,
    [compute_semantic_similarity] raises nothing and gives one similarity
    per section, in order, each in [0,1]; a section whose text has no token
    gets 0, and every section gets 0 when the query has no token. *)
Theorem semantic_similarity_range (sections : list Section) (query : str) :
  exists sims : list R,
    compute_semantic_similarity ln sections query = Some sims
    /\ Forall2 (fun sec v =>
                  0 <= v <= 1
                  /\ (_tokenize (get_str (text sec)) = [] -> v = 0)
                  /\ (_tokenize query = [] -> v = 0))
               sections sims.
Proof.
  unfold compute_semantic_similarity. cbv zeta.
  rewrite compute_idf_R, compute_tf_R. cbn [bind].
  rewrite mapM_compose. apply mapM_spec. intros sec _.
  rewrite compute_tf_R. cbn [bind].
  set (docs := _tokenize query
               :: map (fun sec => _tokenize (get_str (text sec))) sections).
  set (idf := map (fun kv : str * nat =>
                     (fst kv, ln (INR (1 + List.length docs) / INR (1 + snd kv)) + 1))
                  (doc_counts docs)).
  assert (Hidf : forall w v, dict_get idf w = Some v -> 0 <= v).
  { intros w v Hv. unfold idf in Hv.
    rewrite (dict_get_map (fun c : nat =>
               ln (INR (1 + List.length docs) / INR (1 + c)) + 1)) in Hv.
    destruct (dict_get (doc_counts docs) w) as [c|] eqn:Hc; [|discriminate].
    change (Some (ln (INR (1 + List.length docs) / INR (1 + c)) + 1) = Some v) in Hv.
    injection Hv as <-.
    destruct (doc_counts_frequency _ _ _ Hc) as [_ Hle].
    apply Rle_trans with (r2 := 1); [lra|].
    exact (idf_weight_ge_1 _ _ Hle). }
  destruct (tfidf_vector_facts ln (_tokenize (get_str (text sec))) idf Hidf)
    as (Hn1 & Hv1 & He1).
  destruct (tfidf_vector_facts ln (_tokenize query) idf Hidf) as (Hn2 & Hv2 & He2).
  destruct (cosine_R_range _ _ Hn1 Hn2 Hv1 Hv2) as (c & Hc & Hr & Hz).
  exists c. split; [exact Hc|]. split; [exact Hr|]. split.
  - intros E. apply Hz. left. now apply He1.
  - intros E. apply Hz. right. now apply He2.
Qed.

Local Close Scope R_scope.

(* ------------------------------------------------------------------ *)
(** * The relevance score of a lone section *)

Local Open Scope R_scope.

Lemma normalise_singleton (v : R) : normalise [v] = Some [0].
Proof.
  unfold normalise, fmax_list, fmin_list. cbn [fold_left].
  change (@feqb R R_Num) with Reqb.
  rewrite (proj2 (Reqb_true v v) eq_refl). reflexivity.
Qed.

Lemma length_one {A : Type} (l : list A) :
  List.length l = 1%nat -> exists x, l = [x].
Proof.
  destruct l as [|x [|y r]]; simpl; intros H; try discriminate. now exists x.
Qed.

(** X12.  In exact arithmetic, whatever [math.log] is, a section that is
    alone in the list gets the relevance score 0 for every persona and job:
    each of its four signals is at once the largest and the smallest of its
    list, and min-max normalisation sends it to 0.  [rank_sections] gives it
    rank 1 with that score. *)
Theorem relevance_single_section
        (log : R -> R) (sec : Section) (persona : Persona) (job : Job) :
  compute_relevance_scores log [sec] persona job = Some [0]
  /\ rank_sections log [sec] persona job = Some [mkRanked sec 1 0].
Proof.
  assert (H : compute_relevance_scores log [sec] persona job = Some [0]).
  { unfold compute_relevance_scores. cbv zeta.
    match goal with
    | |- context [compute_semantic_similarity log [sec] ?q] =>
        destruct (semantic_total log [sec] q) as [semantic Hsem]
    end.
    match goal with
    | |- context [compute_persona_match [sec] ?r] =>
        destruct (persona_match_total [sec] r) as [pers Hpers]
    end.
    destruct (actionability_total [sec]) as [act Hact].
    destruct (cross_document_total [sec]) as [cross Hcross].
    rewrite Hsem, Hpers, Hact, Hcross. cbn [bind].
    destruct (length_one _ (semantic_length _ _ _ _ Hsem)) as [s ->].
    destruct (length_one _ (mapM_length _ _ _ Hpers)) as [p ->].
    destruct (length_one _ (mapM_length _ _ _ Hact)) as [a ->].
    destruct (length_one _ (mapM_length _ _ _ Hcross)) as [c ->].
    rewrite !normalise_singleton. cbn [bind List.length seq mapM nth_error].
    rewrite combine4_R. do 2 f_equal. lra. }
  split; [exact H|].
  unfold rank_sections. cbn [null]. rewrite H. reflexivity.
Qed.

Local Close Scope R_scope.

(* ------------------------------------------------------------------ *)
(** * Normalisation keeps the order *)

Local Open Scope R_scope.

(** X13.  In exact arithmetic the min-max normalisation of
    [compute_relevance_scores] raises nothing and never reverses two
    values: where the input has [x <= y] the output has [x' <= y'].  When
    the values are not all equal it keeps strict inequalities too, and both
    0 and 1 occur in the output. *)
Theorem normalise_monotone (arr : list R) :
  exists out,
    normalise arr = Some out
    /\ (forall i j x y x' y',
          nth_error arr i = Some x -> nth_error arr j = Some y ->
          nth_error out i = Some x' -> nth_error out j = Some y' ->
          x <= y -> x' <= y')
    /\ ((exists y z, In y arr /\ In z arr /\ y <> z) ->
        (forall i j x y x' y',
            nth_error arr i = Some x -> nth_error arr j = Some y ->
            nth_error out i = Some x' -> nth_error out j = Some y' ->
            x < y -> x' < y')
        /\ In 0 out /\ In 1 out).
Proof.
  destruct arr as [|a0 rest] eqn:Ea.
  { exists []. split; [reflexivity|]. split.
    - intros i j x y x' y' H. destruct i; discriminate.
    - intros (y & z & [] & _). }
  rewrite <- Ea.
  assert (Hne : arr <> []) by (rewrite Ea; discriminate).
  clear Ea a0 rest.
  destruct (normalise_R arr Hne) as (mn & mx & Hn & Hx & Hb & E).
  rewrite E. eexists. split; [reflexivity|].
  destruct (Reqb mx mn) eqn:Eq.
  - apply Reqb_true in Eq. split.
    + intros i j x y x' y' _ _ Hi Hj _.
      apply nth_error_In, repeat_spec in Hi. apply nth_error_In, repeat_spec in Hj.
      lra.
    + intros (y & z & Hy & Hz & Hyz). exfalso. apply Hyz.
      pose proof (Hb y Hy). pose proof (Hb z Hz). lra.
  - apply Reqb_false in Eq.
    assert (Hlt : mn < mx) by (pose proof (Hb mx Hx); lra).
    assert (Hinv : 0 < / (mx - mn)) by (apply Rinv_0_lt_compat; lra).
    assert (Hval : forall i x x',
               nth_error arr i = Some x ->
               nth_error (map (fun y => (y - mn) / (mx - mn)) arr) i = Some x' ->
               x' = (x - mn) / (mx - mn)).
    { intros i x x' Hi Hi'.
      rewrite (map_nth_error _ _ _ Hi) in Hi'. now injection Hi' as <-. }
    split; [|intros _; split; [|split]].
    + intros i j x y x' y' Hi Hj Hi' Hj' Hxy.
      rewrite (Hval _ _ _ Hi Hi'), (Hval _ _ _ Hj Hj').
      unfold Rdiv. apply Rmult_le_compat_r; lra.
    + intros i j x y x' y' Hi Hj Hi' Hj' Hxy.
      rewrite (Hval _ _ _ Hi Hi'), (Hval _ _ _ Hj Hj').
      unfold Rdiv. apply Rmult_lt_compat_r; lra.
    + apply in_map_iff. exists mn. split; [|exact Hn].
      unfold Rdiv. rewrite Rminus_diag. apply Rmult_0_l.
    + apply in_map_iff. exists mx. split; [|exact Hx].
      apply Rinv_r. lra.
Qed.

Local Close Scope R_scope.

(* ------------------------------------------------------------------ *)
(** * Scoring and splitting sentences *)

Lemma filter_all_length {A : Type} (p : A -> bool) (l : list A) :
  List.length (filter p l) = List.length l -> filter p l = l.
Proof.
  induction l as [|x r IH]; simpl; [reflexivity|].
  destruct (p x); simpl; intros H.
  - f_equal. apply IH. lia.
  - pose proof (filter_length_le p r). lia.
Qed.

Local Open Scope R_scope.

(** X14.  In exact arithmetic, with the query terms of a persona and a job,
    [_score_sentence] raises nothing and returns a value in [0,1]: 0 for a
    sentence without words, otherwise the number of query terms occurring
    in the sentence divided by the number of its distinct words.  It is 1
    exactly when every word of the sentence is a query term, and 0 exactly
    when none is. *)
Theorem score_sentence_range (sentence : str) (persona : Persona) (job : Job) :
  let words := _tokenize sentence in
  let query_terms := query_terms_of persona job in
  exists v : R,
    _score_sentence sentence query_terms = Some v
    /\ 0 <= v <= 1
    /\ (words = [] -> v = 0)
    /\ (words <> [] ->
        v = INR (List.length (filter (fun q => mem q words) query_terms))
            / INR (List.length (to_set words))
        /\ (v = 1 <-> forall w, In w words -> In w query_terms)
        /\ (v = 0 <-> forall w, In w words -> ~ In w query_terms)).
Proof.
  intros words query_terms. unfold _score_sentence. cbv zeta.
  change (split (map keep_alnum_space (lower sentence))) with words.
  destruct (null words) eqn:En.
  { apply null_true in En. exists 0.
    split; [reflexivity|]. split; [lra|]. split; [reflexivity|]. congruence. }
  apply null_false in En.
  set (overlap := filter (fun q => mem q words) query_terms).
  assert (Hq : NoDup query_terms) by apply to_set_NoDup.
  assert (Ho : NoDup overlap) by now apply NoDup_filter.
  assert (Hincl : incl overlap (to_set words)).
  { intros q Hq'. apply filter_In in Hq'. destruct Hq' as [_ Hm].
    apply to_set_In, mem_In, Hm. }
  assert (Hle : (List.length overlap <= List.length (to_set words))%nat)
    by now apply NoDup_incl_length.
  assert (Hlen : List.length (to_set words) <> 0%nat).
  { destruct words as [|w ws]; [contradiction|]. simpl. discriminate. }
  assert (Hpos : 0 < INR (List.length (to_set words))) by (apply lt_0_INR; lia).
  rewrite int_div_R by exact Hlen. eexists. split; [reflexivity|].
  split; [now apply ratio_range|]. split; [contradiction|].
  intros _. split; [reflexivity|]. split; split.
  - intros H1 w Hw.
    assert (Heq : List.length overlap = List.length (to_set words)).
    { apply INR_eq.
      apply Rmult_eq_reg_r with (r := / INR (List.length (to_set words))).
      - unfold Rdiv in H1. rewrite H1, Rinv_r; lra.
      - apply Rinv_neq_0_compat. lra. }
    assert (Hback : incl (to_set words) overlap).
    { apply NoDup_length_incl; [exact Ho|lia|exact Hincl]. }
    assert (Hin : In w overlap) by (apply Hback, to_set_In, Hw).
    apply filter_In in Hin. tauto.
  - intros Hall.
    assert (Hback : incl (to_set words) overlap).
    { intros w Hw. pose proof (proj1 (to_set_In _ _) Hw) as Hw'.
      apply filter_In. split.
      - now apply Hall.
      - now apply mem_In. }
    assert (Heq : List.length overlap = List.length (to_set words)).
    { apply Nat.le_antisymm; [exact Hle|].
      apply NoDup_incl_length; [apply to_set_NoDup|exact Hback]. }
    rewrite Heq. apply Rinv_r. lra.
  - intros H0 w Hw Hin.
    assert (Hz : INR (List.length overlap) = 0).
    { apply Rmult_eq_reg_r with (r := / INR (List.length (to_set words))).
      - unfold Rdiv in H0. rewrite H0. lra.
      - apply Rinv_neq_0_compat. lra. }
    assert (Hnil : List.length overlap = 0%nat) by (apply INR_eq; exact Hz).
    assert (Hwo : In w overlap).
    { apply filter_In. split; [exact Hin|now apply mem_In]. }
    destruct overlap; [contradiction|discriminate].
  - intros Hnone.
    assert (Hnil : overlap = []).
    { destruct overlap as [|q r] eqn:E; [reflexivity|]. exfalso.
      assert (Hqin : In q (filter (fun q => mem q words) query_terms))
        by (fold overlap; rewrite E; now left).
      apply filter_In in Hqin. destruct Hqin as [Hq1 Hq2].
      apply mem_In in Hq2. exact (Hnone q Hq2 Hq1). }
    rewrite Hnil. simpl. unfold Rdiv. apply Rmult_0_l.
Qed.

Local Close Scope R_scope.

(* ------------------------------------------------------------------ *)
(** * The pieces of [re.split] *)

Lemma split_sentences_aux_nonspace (s : str) :
  forall prev skipping cur,
    filter nonspace (List.concat (split_sentences_aux prev skipping cur s))
    = filter nonspace (rev cur ++ s).
Proof.
  induction s as [|c r IH]; intros prev skipping cur.
  - simpl. now rewrite !app_nil_r.
  - cbn [split_sentences_aux]. destruct (isspace c) eqn:Ec.
    + assert (Hc : filter nonspace (rev cur ++ c :: r)
                   = filter nonspace (rev cur ++ r)).
      { rewrite !filter_app. simpl. unfold nonspace at 2. now rewrite Ec. }
      destruct skipping; [now rewrite IH, Hc|].
      destruct prev.
      * cbn [List.concat]. rewrite Hc, !filter_app, IH. cbn [rev app].
        reflexivity.
      * rewrite IH. cbn [rev]. now rewrite <- app_assoc.
    + rewrite IH. cbn [rev]. now rewrite <- app_assoc.
Qed.

Lemma split_sentences_aux_nonempty (s : str) :
  forall prev skipping cur, split_sentences_aux prev skipping cur s <> [].
Proof.
  induction s as [|c r IH]; intros prev skipping cur; cbn [split_sentences_aux];
    [discriminate|].
  destruct (isspace c); [|apply IH].
  destruct skipping; [apply IH|]. destruct prev; [discriminate|apply IH].
Qed.

Lemma split_sentences_aux_count (s : str) :
  forall prev skipping cur,
    List.length (split_sentences_aux prev skipping cur s)
    <= 1 + (if prev then 1 else 0) + List.length (filter is_terminator s).
Proof.
  induction s as [|c r IH]; intros prev skipping cur; cbn [split_sentences_aux].
  - simpl. lia.
  - destruct (isspace c) eqn:Ec.
    + assert (Ht : is_terminator c = false).
      { destruct c as [[] [] [] [] [] [] [] []]; vm_compute in Ec |- *;
          congruence. }
      cbn [filter]. rewrite Ht.
      destruct skipping.
      * specialize (IH false true cur). simpl in IH. destruct prev; lia.
      * destruct prev.
        -- specialize (IH false true []). simpl in IH |- *. lia.
        -- specialize (IH false false (c :: cur)). simpl in IH |- *. lia.
    + specialize (IH (is_terminator c) false (c :: cur)).
      cbn [filter]. destruct (is_terminator c); simpl in IH |- *;
        destruct prev; lia.
Qed.

Lemma removelast_cons {A : Type} (x : A) (l : list A) :
  l <> [] -> removelast (x :: l) = x :: removelast l.
Proof. destruct l; [contradiction|reflexivity]. Qed.

Lemma split_sentences_aux_ends (s : str) :
  forall prev skipping cur,
    (prev = true -> exists c cur', cur = c :: cur' /\ is_terminator c = true) ->
    Forall (fun p => exists q c, p = q ++ [c] /\ is_terminator c = true)
           (removelast (split_sentences_aux prev skipping cur s)).
Proof.
  induction s as [|c r IH]; intros prev skipping cur Hprev;
    cbn [split_sentences_aux].
  - constructor.
  - destruct (isspace c) eqn:Ec.
    + destruct skipping; [apply IH; discriminate|].
      destruct prev.
      * destruct (Hprev eq_refl) as (d & cur' & -> & Hd).
        rewrite removelast_cons by apply split_sentences_aux_nonempty.
        constructor.
        -- exists (rev cur'), d. split; [reflexivity|exact Hd].
        -- apply IH. discriminate.
      * apply IH. discriminate.
    + apply IH. intros Hc. exists c, cur. split; [reflexivity|exact Hc].
Qed.

Lemma split_sentences_aux_one (s : str) :
  forall cur,
    forallb (fun c => negb (is_terminator c)) s = true ->
    split_sentences_aux false false cur s = [rev cur ++ s].
Proof.
  induction s as [|c r IH]; intros cur H; cbn [split_sentences_aux].
  - now rewrite app_nil_r.
  - simpl in H. apply andb_true_iff in H. destruct H as [Hc Hr].
    apply negb_true_iff in Hc. rewrite Hc.
    destruct (isspace c); rewrite IH by exact Hr; cbn [rev];
      now rewrite <- app_assoc.
Qed.

(** Every piece costs its length, and every piece but the last at least one
    character of separation. *)
Lemma split_sentences_aux_total (s : str) :
  forall prev skipping cur,
    list_sum (map (fun p => S (List.length p))
                  (split_sentences_aux prev skipping cur s))
    <= S (List.length cur + List.length s).
Proof.
  induction s as [|c r IH]; intros prev skipping cur; cbn [split_sentences_aux].
  - simpl. rewrite length_rev. lia.
  - destruct (isspace c).
    + destruct skipping.
      * specialize (IH false true cur). simpl. lia.
      * destruct prev.
        -- specialize (IH false true []). cbn [map list_sum].
           rewrite length_rev. simpl in IH |- *. lia.
        -- specialize (IH false false (c :: cur)). simpl in IH |- *. lia.
    + specialize (IH (is_terminator c) false (c :: cur)). simpl in IH |- *. lia.
Qed.

Lemma length_lstrip_le (s : str) : List.length (lstrip s) <= List.length s.
Proof.
  destruct (lstrip_suffix s) as [ws H]. rewrite H at 2. rewrite length_app. lia.
Qed.

Lemma length_strip_le (s : str) : List.length (strip s) <= List.length s.
Proof.
  unfold strip, rstrip. rewrite length_rev.
  eapply Nat.le_trans; [apply length_lstrip_le|].
  rewrite length_rev. apply length_lstrip_le.
Qed.

(** X15.  The pieces into which [_split_into_sentences] cuts a text with
    [re.split] hold every non-whitespace character of the text, in order;
    there is at least one piece and at most one more than the text has
    characters among [.!?], and every piece but the last ends with one of
    them.  The sentences returned are the stripped pieces longer than 20
    characters: each has no whitespace at either end.  A text without any
    of [.!?] is a single piece. *)
Theorem split_into_sentences_pieces (t : str) :
  let parts := re_split_sentences t in
  filter nonspace (List.concat parts) = filter nonspace t
  /\ 1 <= List.length parts <= 1 + List.length (filter is_terminator t)
  /\ Forall (fun p => exists q c, p = q ++ [c] /\ is_terminator c = true)
            (removelast parts)
  /\ Forall (fun s => tight s /\ 20 < List.length s
                      /\ exists p, In p parts /\ s = strip p)
            (_split_into_sentences t)
  /\ List.length (_split_into_sentences t) <= List.length parts
  /\ (forallb (fun c => negb (is_terminator c)) t = true -> parts = [t]).
Proof.
  intros parts. unfold parts, re_split_sentences.
  split; [apply (split_sentences_aux_nonspace t false false [])|].
  split.
  { split.
    - pose proof (split_sentences_aux_nonempty t false false []) as H.
      destruct (split_sentences_aux false false [] t); [contradiction|simpl; lia].
    - apply (split_sentences_aux_count t false false []). }
  split; [apply split_sentences_aux_ends; discriminate|].
  split; [|split].
  - apply Forall_forall. intros s Hs.
    pose proof (proj1 (Forall_forall _ _) (sentences_tight t) s Hs) as H1.
    pose proof (proj1 (Forall_forall _ _) (sentences_long t) s Hs) as H2.
    split; [exact H1|]. split; [exact H2|].
    unfold _split_into_sentences in Hs. apply in_map_iff in Hs.
    destruct Hs as (p & <- & Hp). apply filter_In in Hp.
    exists p. split; [exact (proj1 Hp)|reflexivity].
  - unfold _split_into_sentences. rewrite length_map. apply filter_length_le.
  - intros H. apply (split_sentences_aux_one t [] H).
Qed.

(* ------------------------------------------------------------------ *)
(** * The length of a refined text *)

Lemma score_sentence_some {F : Type} {N : Num F}
      (sentence : str) (query_terms : list str) :
  exists v : F, _score_sentence sentence query_terms = Some v.
Proof.
  unfold _score_sentence. cbv zeta.
  destruct (split (map keep_alnum_space (lower sentence))) as [|w ws];
    [now eexists|].
  cbn [null]. unfold int_div. cbn [to_set List.length Nat.eqb]. now eexists.
Qed.

Lemma mapM_tag {A B : Type} (g : A -> option B) (l : list A) :
  (forall a, In a l -> exists v, g a = Some v) ->
  exists bs, mapM (fun a => v <- g a ;; Some (a, v)) l = Some bs
             /\ map fst bs = l.
Proof.
  induction l as [|a r IH]; intros H; simpl.
  - exists []. split; reflexivity.
  - destruct (H a (or_introl eq_refl)) as [v ->]. simpl.
    destruct IH as (bs & -> & Hbs); [intros; apply H; now right|].
    simpl. exists ((a, v) :: bs). split; [reflexivity|]. simpl. now rewrite Hbs.
Qed.

Lemma list_sum_cons (a : nat) (l : list nat) :
  list_sum (a :: l) = a + list_sum l.
Proof. reflexivity. Qed.

Lemma list_sum_perm {A : Type} (f : A -> nat) (l l' : list A) :
  Permutation l l' -> list_sum (map f l) = list_sum (map f l').
Proof.
  intros H. induction H; simpl; lia.
Qed.

Lemma list_sum_firstn {A : Type} (f : A -> nat) (n : nat) (l : list A) :
  list_sum (map f (firstn n l)) <= list_sum (map f l).
Proof.
  revert n. induction l as [|x r IH]; intros [|n]; simpl; try lia.
  specialize (IH n). lia.
Qed.

Lemma length_join_space (xs : list str) :
  List.length (join space xs)
  <= list_sum (map (fun p => S (List.length p)) xs) - 1.
Proof.
  induction xs as [|x r IH]; [simpl; lia|].
  destruct r as [|y r'].
  - simpl. lia.
  - change (join space (x :: y :: r')) with (x ++ space ++ join space (y :: r')).
    revert IH. generalize (join space (y :: r')) as j. intros j IH.
    rewrite !length_app. cbn [map] in IH |- *.
    rewrite !list_sum_cons in *. change (List.length space) with 1. lia.
Qed.

Lemma sentences_total_length (t : str) :
  list_sum (map (fun p => S (List.length p)) (_split_into_sentences t))
  <= S (List.length t).
Proof.
  unfold _split_into_sentences, re_split_sentences.
  eapply Nat.le_trans; [|apply (split_sentences_aux_total t false false [])].
  generalize (split_sentences_aux false false [] t) as parts.
  induction parts as [|p r IH]; [simpl; lia|].
  cbn [filter]. destruct (20 <? List.length (strip p)).
  - cbn [map]. rewrite !list_sum_cons. pose proof (length_strip_le p). lia.
  - cbn [map]. rewrite list_sum_cons. lia.
Qed.

Lemma refine_text_length {F : Type} {N : Num F}
      (query_terms : list str) (t : str) :
  exists refined,
    refine_text query_terms t = Some refined
    /\ List.length refined <= List.length t
    /\ (List.length t <= 20 -> refined = strip t).
Proof.
  unfold refine_text. cbv zeta.
  pose proof (sentences_total_length t) as Htot.
  pose proof (sentences_long t) as Hlong.
  destruct (_split_into_sentences t) as [|s ss] eqn:Es.
  - cbn [null]. eexists. split; [reflexivity|]. split.
    + rewrite length_firstn. pose proof (length_strip_le t). lia.
    + intros Hl. apply firstn_all2. pose proof (length_strip_le t). lia.
  - cbn [null].
    destruct (mapM_tag (fun sent => _score_sentence sent query_terms) (s :: ss))
      as (scored & Hsc & Hfst).
    { intros a _. apply score_sentence_some. }
    rewrite Hsc. cbn [bind]. eexists. split; [reflexivity|]. split.
    + eapply Nat.le_trans; [apply length_strip_le|].
      eapply Nat.le_trans; [apply length_join_space|].
      rewrite <- firstn_map.
      match goal with
      | |- list_sum (map ?g (firstn 2 ?l)) - 1 <= _ =>
          pose proof (list_sum_firstn g 2 l) as H1;
          rewrite (list_sum_perm g l (map fst scored)) in H1
            by (apply Permutation_map, sort_desc_perm)
      end.
      rewrite Hfst in H1.
      match goal with
      | |- ?X - 1 <= _ =>
          assert (Hx : X <= S (List.length t))
            by (eapply Nat.le_trans; [exact H1|exact Htot])
      end.
      lia.
    + intros Hl. exfalso. inversion Hlong as [|? ? Hs _]; subst.
      cbn [map] in Htot. rewrite list_sum_cons in Htot. lia.
Qed.

(** X16.  In any arithmetic, binary64 included, [refine_subsections] raises
    nothing, and the [refined_text] of an entry is never longer than the
    text of its section; a text of at most 20 characters is returned
    stripped, whatever the query. *)
Theorem refine_subsections_length {F : Type} {N : Num F}
        (sections : list Section) (persona : Persona) (job : Job) (top_n : nat) :
  exists results : list Refined,
    @refine_subsections F N sections persona job top_n = Some results
    /\ Forall2 (fun sec r =>
                  let t := get_str (text sec) in
                  List.length (refined_text r) <= List.length t
                  /\ (List.length t <= 20 -> refined_text r = strip t))
               (firstn top_n sections) results.
Proof.
  unfold refine_subsections. cbv zeta. apply mapM_spec. intros sec _.
  destruct (@refine_text_length F N (query_terms_of persona job)
                                (get_str (text sec)))
    as (refined & -> & Hlen & Hshort).
  cbn [bind]. eexists. split; [reflexivity|]. simpl. split; assumption.
Qed.

(* ------------------------------------------------------------------ *)
(** * main.py: one input file *)

Lemma collect_sections_closed (filename : str) (sections : list Section) :
  forall st : list str * list Section,
    fold_left (fun st' sec =>
                 (fst st' ++ [get_str (text sec)],
                  snd st' ++ [with_document filename sec]))
              sections st
    = (fst st ++ map (fun s => get_str (text s))
                     (map (with_document filename) sections),
       snd st ++ map (with_document filename) sections).
Proof.
  induction sections as [|sec r IH]; intros st; simpl.
  - rewrite !app_nil_r. now destruct st.
  - rewrite IH. simpl. now rewrite <- !app_assoc.
Qed.

Lemma collect_step_closed {F : Type} {N : Num F}
      (w : World) (input_dir : str) (st : list str * list Section)
      (doc : option str) :
  collect_step w input_dir st doc
  = (fst st ++ map (fun s => get_str (text s)) (doc_sections w input_dir doc),
     snd st ++ doc_sections w input_dir doc).
Proof.
  unfold collect_step, doc_sections.
  destruct doc as [filename|]; [|simpl; rewrite !app_nil_r; now destruct st].
  destruct (null filename); [simpl; rewrite !app_nil_r; now destruct st|].
  destruct (snd (parse_pdf w (path_join input_dir filename)));
    try (simpl; rewrite !app_nil_r; now destruct st).
  apply collect_sections_closed.
Qed.

Lemma collect_closed {F : Type} {N : Num F}
      (w : World) (input_dir : str) (docs : list (option str)) :
  forall st,
    fold_left (collect_step w input_dir) docs st
    = (fst st ++ map (fun s => get_str (text s))
                     (flat_map (doc_sections w input_dir) docs),
       snd st ++ flat_map (doc_sections w input_dir) docs).
Proof.
  induction docs as [|doc r IH]; intros st; simpl.
  - rewrite !app_nil_r. now destruct st.
  - rewrite IH, collect_step_closed. simpl.
    now rewrite map_app, <- !app_assoc.
Qed.

Lemma doc_sections_labelled {F : Type} {N : Num F}
      (w : World) (input_dir : str) (docs : list (option str)) (s : Section) :
  In s (flat_map (doc_sections w input_dir) docs) ->
  exists filename,
    document s = Some filename /\ filename <> [] /\ In (Some filename) docs.
Proof.
  intros H. apply in_flat_map in H. destruct H as (doc & Hdoc & Hs).
  unfold doc_sections in Hs. destruct doc as [filename|]; [|contradiction].
  destruct (null filename) eqn:En; [contradiction|]. apply null_false in En.
  destruct (snd (parse_pdf w (path_join input_dir filename))); try contradiction.
  apply in_map_iff in Hs. destruct Hs as (s' & <- & _).
  exists filename. split; [reflexivity|]. split; assumption.
Qed.

Lemma length_annotate {F : Type} (k : nat) (l : list (Section * F)) :
  List.length (annotate k l) = List.length l.
Proof.
  rewrite <- (length_map importance_rank), annotate_rank. apply length_seq.
Qed.

Lemma map_section_annotate {F : Type} (k : nat) (l : list (Section * F)) :
  map section (annotate k l) = map fst l.
Proof.
  rewrite <- (annotate_pairs k l) at 2. rewrite map_map. reflexivity.
Qed.

Lemma firstn_seq_min (n a len : nat) :
  firstn n (seq a len) = seq a (Nat.min n len).
Proof.
  revert a len. induction n as [|n IH]; intros a [|len]; simpl; try reflexivity.
  now rewrite IH.
Qed.

Lemma firstn_min_length {A : Type} (n : nat) (l : list A) :
  firstn (Nat.min n (List.length l)) l = firstn n l.
Proof.
  destruct (Nat.le_ge_cases n (List.length l)) as [H|H].
  - now rewrite Nat.min_l.
  - rewrite Nat.min_r by exact H. rewrite firstn_all.
    symmetry. now apply firstn_all2.
Qed.

Lemma Forall2_of_map {A B C : Type} (f : A -> B) (P : B -> C -> Prop)
      (l : list A) (cs : list C) :
  Forall2 P (map f l) cs -> Forall2 (fun a c => P (f a) c) l cs.
Proof.
  revert cs. induction l as [|a r IH]; intros cs H; simpl in H;
    inversion H; subst; constructor; auto.
Qed.

Local Open Scope R_scope.

(** What [process_input_file] computes in exact arithmetic once some
    section has been collected. *)
Lemma process_input_file_R
      (log : R -> R) (w : World)
      (detect : option (str -> option (Persona * Job))) (timestamp : str)
      (input_data : InputData) (input_path input_dir output_dir : str) :
  let docs := in_documents input_data in
  let all_sections := flat_map (@doc_sections R _ w input_dir) docs in
  let pj := fill_missing detect (in_persona input_data) (in_job input_data)
                         (map (fun s => get_str (text s)) all_sections) in
  all_sections <> [] ->
  exists scores refined,
    compute_relevance_scores log all_sections (fst pj) (snd pj) = Some scores
    /\ List.length scores = List.length all_sections
    /\ rank_sections log all_sections (fst pj) (snd pj)
       = Some (annotate 1 (sort_desc (combine all_sections scores)))
    /\ Forall2 (fun sec r =>
                  r_document r = document (section sec)
                  /\ r_page_number r = page_number (section sec))
               (firstn 5 (annotate 1 (sort_desc (combine all_sections scores))))
               refined
    /\ process_input_file log w detect timestamp input_data
                          input_path input_dir output_dir
       = Some (Wrote (path_join output_dir
                                (splitext_root (basename input_path)
                                 ++ lit "_output.json"))
                     (mkOutputData
                        (mkMetadata docs (get_str (role (fst pj)))
                                    (get_str (task (snd pj))) timestamp)
                        (map extract
                             (firstn 5 (annotate 1 (sort_desc
                                          (combine all_sections scores)))))
                        refined)).
Proof.
  intros docs all_sections pj Hne.
  destruct (rank_sections_R log all_sections (fst pj) (snd pj))
    as (scores & Hsc & Hlen & Hrank).
  set (ranked := annotate 1 (sort_desc (combine all_sections scores))) in *.
  destruct (mapM_spec
              (fun sec : Section =>
                 refined <- @refine_text R _ (query_terms_of (fst pj) (snd pj))
                                         (get_str (text sec)) ;;
                 Some (mkRefined (document sec) refined (page_number sec)))
              (fun sec r => r_document r = document sec
                            /\ r_page_number r = page_number sec)
              (map section (firstn 5 ranked)))
    as (refined & Href & Hall).
  { intros sec _.
    destruct (refine_text_R (query_terms_of (fst pj) (snd pj))
                            (get_str (text sec))) as (t & -> & _).
    cbn [bind]. eexists. split; [reflexivity|]. split; reflexivity. }
  exists scores, refined.
  split; [exact Hsc|]. split; [exact Hlen|]. split; [exact Hrank|]. split.
  { apply (Forall2_of_map section _ _ _ Hall). }
  unfold process_input_file. cbv zeta.
  fold docs. rewrite collect_closed. cbn [fst snd app].
  fold all_sections.
  destruct (null docs) eqn:Ed.
  { apply null_true in Ed. exfalso. apply Hne. unfold all_sections.
    now rewrite Ed. }
  destruct (null all_sections) eqn:Ea;
    [apply null_true in Ea; contradiction|].
  fold pj. rewrite Hrank. cbn [bind]. fold ranked.
  rewrite !firstn_min_length.
  assert (Hr : refine_subsections (map section (firstn 5 ranked)) (fst pj) (snd pj)
                                  (Nat.min 5 (List.length ranked))
               = Some refined).
  { unfold refine_subsections. cbv zeta. rewrite <- Href. f_equal.
    apply firstn_all2. rewrite length_map.
    apply Nat.min_glb; [rewrite length_firstn; lia|].
    rewrite length_firstn. lia. }
  rewrite Hr. reflexivity.
Qed.

Lemma fill_missing_keeps
      (detect : option (str -> option (Persona * Job)))
      (persona : Persona) (job : Job) (texts : list str) :
  (get_str (role persona) <> [] ->
   fst (fill_missing detect persona job texts) = persona)
  /\ (get_str (task job) <> [] ->
      snd (fill_missing detect persona job texts) = job).
Proof.
  unfold fill_missing.
  destruct (null (get_str (role persona))) eqn:Er;
    destruct (null (get_str (task job))) eqn:Et; cbn [orb];
    try apply null_true in Er; try apply null_true in Et;
    try (destruct detect as [f|]; [destruct (f _) as [[dp dj]|]|]);
    cbn [fst snd]; split; intros H; congruence.
Qed.

Lemma process_input_file_skips {F : Type} {N : Num F}
      (log : F -> F) (w : World)
      (detect : option (str -> option (Persona * Job))) (timestamp : str)
      (input_data : InputData) (input_path input_dir output_dir : str) :
  flat_map (@doc_sections F N w input_dir) (in_documents input_data) = [] ->
  process_input_file log w detect timestamp input_data
                     input_path input_dir output_dir
  = Some (if null (in_documents input_data)
          then Skipped_no_documents else Skipped_no_sections).
Proof.
  intros Ha. unfold process_input_file. cbv zeta.
  destruct (null (in_documents input_data)); [reflexivity|].
  rewrite collect_closed. cbn [fst snd app]. now rewrite Ha.
Qed.

(** X17.  On an input of the expected shape (a JSON object whose
    [persona] and [job_to_be_done] hold strings where they hold anything,
    and whose [documents] are objects with a string [filename] or none), and
    in exact arithmetic, what [process_input_file] computes between loading
    the JSON and writing the result raises nothing, whether the detection
    function is missing, raises, or returns a persona and a job of that
    shape.  It returns without writing when no document is listed,
    or when no listed document gives a section (an entry without file name
    or whose file cannot be parsed gives none); otherwise it reaches the
    write of one file, named after the input file.  The metadata lists
    every entry of [documents], those that failed too; a role or a task
    given in the input is never replaced by a detected one; and
    [extracted_sections] and [subsection_analysis] have [min(5, n)] entries
    each for [n] collected sections. *)
Theorem process_input_file_outcome
        (log : R -> R) (w : World)
        (detect : option (str -> option (Persona * Job))) (timestamp : str)
        (input_data : InputData) (input_path input_dir output_dir : str) :
  let docs := in_documents input_data in
  let all_sections := flat_map (@doc_sections R _ w input_dir) docs in
  exists r,
    process_input_file log w detect timestamp input_data
                       input_path input_dir output_dir = Some r
    /\ match r with
       | Skipped_no_documents => docs = []
       | Skipped_no_sections => docs <> [] /\ all_sections = []
       | Wrote output_path output_data =>
           all_sections <> []
           /\ output_path
              = path_join output_dir
                          (splitext_root (basename input_path)
                           ++ lit "_output.json")
           /\ input_documents (o_metadata output_data) = docs
           /\ (get_str (role (in_persona input_data)) <> [] ->
               md_persona (o_metadata output_data)
               = get_str (role (in_persona input_data)))
           /\ (get_str (task (in_job input_data)) <> [] ->
               md_job_to_be_done (o_metadata output_data)
               = get_str (task (in_job input_data)))
           /\ List.length (extracted_sections output_data)
              = Nat.min 5 (List.length all_sections)
           /\ List.length (subsection_analysis output_data)
              = Nat.min 5 (List.length all_sections)
       end.
Proof.
  intros docs all_sections.
  destruct (null all_sections) eqn:Ea.
  { apply null_true in Ea.
    rewrite (process_input_file_skips log w detect timestamp input_data
                                      input_path input_dir output_dir Ea).
    fold docs. eexists. split; [reflexivity|].
    destruct (null docs) eqn:Ed.
    - now apply null_true.
    - split; [now apply null_false|exact Ea]. }
  apply null_false in Ea.
  destruct (process_input_file_R log w detect timestamp input_data
                                 input_path input_dir output_dir Ea)
    as (scores & refined & _ & Hlen & _ & Hall & Hrun).
  fold docs all_sections in Hlen, Hall, Hrun.
  eexists. split; [exact Hrun|]. cbn [o_metadata input_documents md_persona
    md_job_to_be_done extracted_sections subsection_analysis].
  destruct (fill_missing_keeps detect (in_persona input_data)
                               (in_job input_data)
                               (map (fun s => get_str (text s)) all_sections))
    as [Hrole Htask].
  assert (Hk : List.length
                 (firstn 5 (annotate 1 (sort_desc (combine all_sections scores))))
               = Nat.min 5 (List.length all_sections)).
  { rewrite length_firstn, length_annotate.
    rewrite (Permutation_length (sort_desc_perm _)), length_combine.
    rewrite Hlen, Nat.min_id. reflexivity. }
  split; [exact Ea|]. split; [reflexivity|]. split; [reflexivity|].
  split; [intros H; now rewrite (Hrole H)|].
  split; [intros H; now rewrite (Htask H)|].
  split.
  - now rewrite length_map.
  - rewrite <- (Forall2_length Hall). exact Hk.
Qed.

(** X18.  In exact arithmetic, when [process_input_file] writes a file, its
    [extracted_sections] are the first five entries (or all, if fewer) of
    the ranking of the collected sections for the persona and job in force
    after detection: they carry the ranks 1, 2, ... in order, no section
    left out has a higher score than a section kept, each entry names the
    document it was read from, which is one of the listed file names, and
    the entry of [subsection_analysis] at the same position has the same
    document and page number. *)
Theorem process_input_file_top_sections
        (log : R -> R) (w : World)
        (detect : option (str -> option (Persona * Job))) (timestamp : str)
        (input_data : InputData) (input_path input_dir output_dir : str) :
  let docs := in_documents input_data in
  let all_sections := flat_map (@doc_sections R _ w input_dir) docs in
  let pj := fill_missing detect (in_persona input_data) (in_job input_data)
                         (map (fun s => get_str (text s)) all_sections) in
  exists r,
    process_input_file log w detect timestamp input_data
                       input_path input_dir output_dir = Some r
    /\ match r with
       | Wrote _ output_data =>
           exists ranked,
             rank_sections log all_sections (fst pj) (snd pj) = Some ranked
             /\ Permutation (map section ranked) all_sections
             /\ extracted_sections output_data = map extract (firstn 5 ranked)
             /\ map e_importance_rank (extracted_sections output_data)
                = seq 1 (List.length (extracted_sections output_data))
             /\ (forall kept left,
                    In kept (firstn 5 ranked) -> In left (skipn 5 ranked) ->
                    _score left <= _score kept)
             /\ Forall (fun e => exists filename,
                           e_document e = Some filename
                           /\ filename <> [] /\ In (Some filename) docs)
                       (extracted_sections output_data)
             /\ Forall2 (fun e r => r_document r = e_document e
                                    /\ r_page_number r = e_page_number e)
                        (extracted_sections output_data)
                        (subsection_analysis output_data)
       | _ => True
       end.
Proof.
  intros docs all_sections pj.
  destruct (null all_sections) eqn:Ea.
  { apply null_true in Ea.
    rewrite (process_input_file_skips log w detect timestamp input_data
                                      input_path input_dir output_dir Ea).
    eexists. split; [reflexivity|]. now destruct (null (in_documents input_data)). }
  apply null_false in Ea.
  destruct (process_input_file_R log w detect timestamp input_data
                                 input_path input_dir output_dir Ea)
    as (scores & refined & _ & Hlen & Hrank & Hall & Hrun).
  fold docs all_sections pj in Hlen, Hrank, Hall, Hrun.
  eexists. split; [exact Hrun|].
  cbn [extracted_sections subsection_analysis].
  set (ranked := annotate 1 (sort_desc (combine all_sections scores))) in *.
  assert (Hperm : Permutation (map section ranked) all_sections).
  { unfold ranked. rewrite map_section_annotate.
    rewrite <- (map_fst_combine all_sections scores Hlen) at 2.
    apply Permutation_map, sort_desc_perm. }
  exists ranked. split; [exact Hrank|]. split; [exact Hperm|].
  split; [reflexivity|]. split; [|split; [|split]].
  - rewrite map_map. change (fun x : Ranked R => e_importance_rank (extract x))
      with (@importance_rank R).
    rewrite <- firstn_map. unfold ranked at 1. rewrite annotate_rank.
    rewrite firstn_seq_min. f_equal.
    rewrite length_map, length_firstn. unfold ranked.
    now rewrite length_annotate.
  - intros kept left Hk Hl.
    assert (Hs : StronglySorted (fun r1 r2 => _score r2 <= _score r1) ranked)
      by apply annotate_sorted, sort_desc_sorted.
    rewrite <- (firstn_skipn 5 ranked) in Hs.
    exact (StronglySorted_app_le _ _ _ Hs kept left Hk Hl).
  - apply Forall_forall. intros e He. apply in_map_iff in He.
    destruct He as (x & <- & Hx).
    assert (Hx' : In x ranked).
    { rewrite <- (firstn_skipn 5 ranked). apply in_or_app. now left. }
    assert (Hin : In (section x) all_sections).
    { eapply Permutation_in; [exact Hperm|]. now apply in_map. }
    exact (doc_sections_labelled w input_dir docs _ Hin).
  - clear - Hall. revert Hall. generalize (firstn 5 ranked) as l.
    intros l H. induction H as [|x y l l' [H1 H2] _ IH]; simpl; constructor.
    + split; assumption.
    + exact IH.
Qed.

Local Close Scope R_scope.

(* ------------------------------------------------------------------ *)
(** * auto_processor.py: the detected role *)

Lemma startswith_app_sep (sep : ascii) (k a b : str) :
  ~ In sep k -> startswith k (a ++ sep :: b) = startswith k a.
Proof.
  revert a. induction k as [|c k IH]; intros a Hk; [now destruct a|].
  destruct a as [|x a]; simpl.
  - destruct (Ascii.eqb c sep) eqn:E; [|reflexivity].
    apply Ascii.eqb_eq in E. exfalso. apply Hk. now left.
  - rewrite IH; [reflexivity|]. intros H. apply Hk. now right.
Qed.

Lemma contains_app_sep (sep : ascii) (k a b : str) :
  k <> [] -> ~ In sep k ->
  contains k (a ++ sep :: b) = contains k a || contains k b.
Proof.
  intros Hne Hk. induction a as [|x a IH].
  - destruct k as [|c k]; [contradiction|].
    change (contains (c :: k) ([] ++ sep :: b))
      with (startswith (c :: k) (sep :: b) || contains (c :: k) b).
    change (startswith (c :: k) (sep :: b))
      with (Ascii.eqb c sep && startswith k b).
    destruct (Ascii.eqb c sep) eqn:E; [|reflexivity].
    apply Ascii.eqb_eq in E. exfalso. apply Hk. now left.
  - change (contains k ((x :: a) ++ sep :: b))
      with (startswith k ((x :: a) ++ sep :: b) || contains k (a ++ sep :: b)).
    change (contains k (x :: a)) with (startswith k (x :: a) || contains k a).
    rewrite startswith_app_sep by exact Hk. rewrite IH.
    now rewrite orb_assoc.
Qed.

Lemma contains_nil (k : str) : k <> [] -> contains k [] = false.
Proof. destruct k; [contradiction|reflexivity]. Qed.

Lemma lower_join_space (texts : list str) :
  lower (join space texts) = join space (map lower texts).
Proof.
  induction texts as [|t r IH]; [reflexivity|].
  destruct r as [|u r']; [reflexivity|].
  change (join space (t :: u :: r')) with (t ++ space ++ join space (u :: r')).
  change (join space (map lower (t :: u :: r')))
    with (lower t ++ space ++ join space (map lower (u :: r'))).
  rewrite <- IH. unfold lower. now rewrite !map_app.
Qed.

Lemma contains_join_space (k : str) (texts : list str) :
  k <> [] -> ~ In " "%char k ->
  contains k (join space texts) = existsb (contains k) texts.
Proof.
  intros Hne Hk. induction texts as [|t r IH].
  - simpl. now apply contains_nil.
  - destruct r as [|u r'].
    + simpl. now rewrite orb_false_r.
    + change (join space (t :: u :: r'))
        with (t ++ " "%char :: join space (u :: r')).
      rewrite contains_app_sep by assumption. rewrite IH. reflexivity.
Qed.

Lemma mentions_join (k : string) (texts : list str) :
  lit k <> [] -> ~ In " "%char (lit k) ->
  contains (lit k) (lower (join space texts)) = mentions texts k.
Proof.
  intros Hne Hk. rewrite lower_join_space, contains_join_space by assumption.
  unfold mentions. induction texts as [|t r IH]; [reflexivity|].
  simpl. now rewrite IH.
Qed.

(** X19.  The role that [detect_persona_and_job] gives for the texts of the
    sections joined by spaces, as [process_pdf] and [process_input_file]
    build its argument, depends only on which keywords occur inside some
    section text, in any letter case: "Researcher" for [research] or
    [literature]; failing that "Student" for [student], [exam] or
    [undergraduate]; failing that "Business Analyst" for [analysis],
    [analyst] or [financial]; failing that "Healthcare Professional" for
    [patient], [medical] or [nursing]; and "Reader" otherwise.  Joining the
    texts creates no occurrence of a keyword. *)
Theorem detected_role_of_sections (texts : list str) :
  detected_role (join space texts)
  = if mentions texts "research" || mentions texts "literature"
    then lit "Researcher"
    else if mentions texts "student" || mentions texts "exam"
            || mentions texts "undergraduate"
    then lit "Student"
    else if mentions texts "analysis" || mentions texts "analyst"
            || mentions texts "financial"
    then lit "Business Analyst"
    else if mentions texts "patient" || mentions texts "medical"
            || mentions texts "nursing"
    then lit "Healthcare Professional"
    else lit "Reader".
Proof.
  unfold detected_role. cbv zeta.
  assert (H : forall k : string,
             In k ["research"; "literature"; "student"; "exam";
                   "undergraduate"; "analysis"; "analyst"; "financial";
                   "patient"; "medical"; "nursing"]%string ->
             contains (lit k) (lower (join space texts)) = mentions texts k).
  { intros k Hk. apply mentions_join.
    - simpl in Hk. repeat (destruct Hk as [<-|Hk]; [discriminate|]).
      contradiction.
    - simpl in Hk.
      repeat (destruct Hk as [<-|Hk];
              [vm_compute; intros G;
               repeat (destruct G as [G|G]; [discriminate|]); contradiction|]).
      contradiction. }
  rewrite !H by (simpl; tauto). reflexivity.
Qed.

(* ------------------------------------------------------------------ *)
(** * File names *)

Lemma rfind_aux_app (c : ascii) (a b : str) :
  forall i last,
    rfind_aux c (a ++ b) i last
    = rfind_aux c b (i + Z.of_nat (List.length a)) (rfind_aux c a i last).
Proof.
  induction a as [|x a IH]; intros i last.
  - simpl. now rewrite Z.add_0_r.
  - cbn [app rfind_aux]. rewrite IH. f_equal.
    cbn [List.length]. lia.
Qed.

Lemma rfind_aux_absent (c : ascii) (s : str) :
  forallb (fun x => negb (Ascii.eqb x c)) s = true ->
  forall i last, rfind_aux c s i last = last.
Proof.
  induction s as [|x s IH]; intros H i last; [reflexivity|].
  simpl in H. apply andb_true_iff in H. destruct H as [Hx Hs].
  apply negb_true_iff in Hx. cbn [rfind_aux]. rewrite Hx. now apply IH.
Qed.

Lemma rfind_last (c : ascii) (a b : str) :
  forallb (fun x => negb (Ascii.eqb x c)) b = true ->
  rfind c (a ++ c :: b) = Z.of_nat (List.length a).
Proof.
  intros Hb. unfold rfind. rewrite rfind_aux_app. cbn [rfind_aux].
  rewrite Ascii.eqb_refl. now rewrite rfind_aux_absent.
Qed.

Lemma skipn_length_app {A : Type} (a b : list A) :
  skipn (List.length a) (a ++ b) = b.
Proof. induction a; simpl; auto. Qed.

Lemma firstn_length_app {A : Type} (a b : list A) :
  firstn (List.length a) (a ++ b) = a.
Proof. induction a; simpl; [reflexivity|]. now f_equal. Qed.

Lemma basename_after_slash (a b : str) :
  forallb (fun x => negb (Ascii.eqb x "/"%char)) b = true ->
  basename (a ++ "/"%char :: b) = b.
Proof.
  intros Hb. unfold basename. rewrite rfind_last by exact Hb.
  replace (Z.to_nat (Z.of_nat (List.length a) + 1))
    with (List.length (a ++ ["/"%char])) by (rewrite length_app; simpl; lia).
  change (a ++ "/"%char :: b) with (a ++ ["/"%char] ++ b).
  rewrite app_assoc. apply skipn_length_app.
Qed.

Lemma basename_path_join (dir name : str) :
  forallb (fun x => negb (Ascii.eqb x "/"%char)) name = true ->
  basename (path_join dir name) = name.
Proof.
  intros Hn. unfold path_join.
  assert (Hs : startswith (lit "/") name = false).
  { destruct name as [|x name]; [reflexivity|].
    simpl in Hn. apply andb_true_iff in Hn. destruct Hn as [Hx _].
    apply negb_true_iff in Hx.
    change (startswith (lit "/") (x :: name))
      with (Ascii.eqb "/"%char x && true).
    rewrite Ascii.eqb_sym, Hx. reflexivity. }
  rewrite Hs.
  destruct (null dir) eqn:Ed.
  - apply null_true in Ed. subst dir. cbn [orb app].
    unfold basename, rfind. now rewrite rfind_aux_absent.
  - cbn [orb]. destruct (endswith dir (lit "/")) eqn:Ee.
    + unfold endswith in Ee.
      destruct (rev dir) as [|x r] eqn:Er; [discriminate|].
      change (startswith (rev (lit "/")) (x :: r))
        with (Ascii.eqb "/"%char x && true) in Ee.
      rewrite andb_true_r in Ee. apply Ascii.eqb_eq in Ee. subst x.
      assert (Hd : dir = rev r ++ ["/"%char]).
      { rewrite <- (rev_involutive dir), Er. reflexivity. }
      rewrite Hd, <- app_assoc. now apply basename_after_slash.
    + now apply basename_after_slash.
Qed.

Lemma splitext_root_name (stem ext : str) :
  forallb (fun x => negb (Ascii.eqb x "/"%char)) (stem ++ ext) = true ->
  forallb (fun x => negb (Ascii.eqb x "."%char)) ext = true ->
  existsb (fun x => negb (Ascii.eqb x "."%char)) stem = true ->
  splitext_root (stem ++ "."%char :: ext) = stem.
Proof.
  intros Hs He Hstem. unfold splitext_root. cbv zeta.
  assert (Hsep : rfind "/"%char (stem ++ "."%char :: ext) = (-1)%Z).
  { unfold rfind. apply rfind_aux_absent.
    rewrite forallb_app in Hs |- *. apply andb_true_iff in Hs.
    destruct Hs as [H1 H2]. rewrite H1. simpl. exact H2. }
  rewrite Hsep, rfind_last by exact He.
  replace (Z.to_nat (Z.of_nat (List.length stem) - (-1 + 1)))
    with (List.length stem) by lia.
  change (Z.to_nat (-1 + 1)) with 0. cbn [skipn].
  rewrite Nat2Z.id, firstn_length_app, Hstem.
  destruct (-1 <? Z.of_nat (List.length stem))%Z eqn:E; [reflexivity|].
  apply Z.ltb_ge in E. lia.
Qed.

(** X20.  For a directory entry [stem.ext], where neither part has a [/],
    the extension has no dot and the stem has a character that is not a
    dot, the path that [os.path.join] builds from any directory has the
    entry as its base name, and the output file name computed from it is
    [stem_output.json]: the result for [input.json] goes to
    [input_output.json].  Joined to any output directory, that name is
    again the base name of the path written. *)
Theorem output_file_name (dir output_dir stem ext : str) :
  forallb (fun x => negb (Ascii.eqb x "/"%char)) (stem ++ ext) = true ->
  forallb (fun x => negb (Ascii.eqb x "."%char)) ext = true ->
  existsb (fun x => negb (Ascii.eqb x "."%char)) stem = true ->
  let entry := stem ++ lit "." ++ ext in
  let output_filename :=
    splitext_root (basename (path_join dir entry)) ++ lit "_output.json" in
  basename (path_join dir entry) = entry
  /\ output_filename = stem ++ lit "_output.json"
  /\ basename (path_join output_dir output_filename) = output_filename.
Proof.
  intros Hs He Hstem entry output_filename.
  assert (Hentry : forallb (fun x => negb (Ascii.eqb x "/"%char)) entry = true).
  { unfold entry. rewrite forallb_app in Hs |- *.
    apply andb_true_iff in Hs. destruct Hs as [H1 H2]. rewrite H1. simpl.
    exact H2. }
  assert (Hb : basename (path_join dir entry) = entry)
    by now apply basename_path_join.
  assert (Ho : output_filename = stem ++ lit "_output.json").
  { unfold output_filename. rewrite Hb. unfold entry.
    change (stem ++ lit "." ++ ext) with (stem ++ "."%char :: ext).
    now rewrite splitext_root_name. }
  split; [exact Hb|]. split; [exact Ho|].
  apply basename_path_join. rewrite Ho, forallb_app.
  rewrite forallb_app in Hs. apply andb_true_iff in Hs.
  destruct Hs as [H1 _]. rewrite H1. reflexivity.
Qed.

Lemma output_file_name_witness :
  basename (path_join (lit "../input_pdfs") (lit "input.json")) = lit "input.json"
  /\ splitext_root (basename (path_join (lit "../input_pdfs") (lit "input.json")))
     ++ lit "_output.json" = lit "input_output.json"
  /\ basename (path_join (lit "../output")
                         (splitext_root
                            (basename (path_join (lit "../input_pdfs")
                                                 (lit "input.json")))
                          ++ lit "_output.json"))
     = splitext_root (basename (path_join (lit "../input_pdfs") (lit "input.json")))
       ++ lit "_output.json".
Proof.
  apply (output_file_name (lit "../input_pdfs") (lit "../output")
                          (lit "input") (lit "json")); reflexivity.
Defined.

(* ------------------------------------------------------------------ *)
(** * Reading the page count *)

Lemma parse_digits_uint (d : Decimal.uint) :
  forall prev acc,
    d <> Decimal.Nil \/ prev = true ->
    parse_digits prev acc (lit (NilEmpty.string_of_uint d))
    = Some (Nat.of_uint_acc d acc).
Proof.
  unfold lit.
  induction d; intros prev acc H;
    try (cbn [NilEmpty.string_of_uint list_ascii_of_string parse_digits];
         change (isdecimal _) with true; cbv iota;
         rewrite IHd by (now right);
         cbn [Nat.of_uint_acc]; rewrite Nat.tail_mul_spec;
         f_equal; f_equal; vm_compute (ord _ - 48); lia).
  destruct H as [H|H]; [contradiction|]. subst prev. reflexivity.
Qed.

Lemma parse_digits_str_of_nat (n : nat) :
  parse_digits false 0 (str_of_nat n) = Some n.
Proof.
  unfold str_of_nat. rewrite <- (DecimalNat.Unsigned.of_to n) at 2.
  unfold NilZero.string_of_uint.
  destruct (Nat.to_uint n) eqn:E; try (apply parse_digits_uint; left; discriminate).
  reflexivity.
Qed.

Lemma uint_decimal (d : Decimal.uint) :
  forallb isdecimal (lit (NilEmpty.string_of_uint d)) = true.
Proof.
  unfold lit.
  induction d; cbn [NilEmpty.string_of_uint list_ascii_of_string forallb];
    try reflexivity; rewrite IHd; reflexivity.
Qed.

Lemma str_of_nat_decimal (n : nat) :
  str_of_nat n <> [] /\ forallb isdecimal (str_of_nat n) = true.
Proof.
  unfold str_of_nat, NilZero.string_of_uint.
  destruct (Nat.to_uint n) eqn:E;
    try (split; [discriminate|rewrite <- E at 1; rewrite E; apply uint_decimal]).
  split; [discriminate|reflexivity].
Qed.

Lemma decimal_facts (c : ascii) :
  isdecimal c = true ->
  isspace c = false /\ Ascii.eqb c ":"%char = false
  /\ Ascii.eqb c "-"%char = false /\ Ascii.eqb c "+"%char = false.
Proof.
  destruct c as [[] [] [] [] [] [] [] []]; vm_compute; intros H;
    repeat split; congruence.
Qed.

Lemma space_not_colon (c : ascii) :
  isspace c = true -> Ascii.eqb c ":"%char = false.
Proof.
  destruct c as [[] [] [] [] [] [] [] []]; vm_compute; congruence.
Qed.

Lemma lstrip_spaces (ws d : str) :
  forallb isspace ws = true -> lstrip (ws ++ d) = lstrip d.
Proof.
  induction ws as [|c ws IH]; intros H; [reflexivity|].
  simpl in H. apply andb_true_iff in H. destruct H as [Hc Hws].
  simpl. rewrite Hc. now apply IH.
Qed.

Lemma decimal_tight (d : str) :
  d <> [] -> forallb isdecimal d = true -> tight d.
Proof.
  intros Hne Hd. rewrite forallb_forall in Hd. split.
  - destruct d as [|c r]; [contradiction|]. simpl.
    apply decimal_facts, Hd. now left.
  - destruct (rev d) as [|c r] eqn:E.
    + exfalso. apply Hne. rewrite <- (rev_involutive d), E. reflexivity.
    + simpl. apply decimal_facts, Hd. apply in_rev. rewrite E. now left.
Qed.

Lemma split_on_aux_absent (sep : ascii) (s : str) :
  forallb (fun c => negb (Ascii.eqb c sep)) s = true ->
  forall cur, split_on_aux sep cur s = [rev cur ++ s].
Proof.
  induction s as [|c r IH]; intros H cur; cbn [split_on_aux].
  - now rewrite app_nil_r.
  - simpl in H. apply andb_true_iff in H. destruct H as [Hc Hr].
    apply negb_true_iff in Hc. rewrite Hc, IH by exact Hr.
    cbn [rev]. now rewrite <- app_assoc.
Qed.

Lemma startswith_app (p s : str) : startswith p (p ++ s) = true.
Proof.
  induction p as [|c p IH]; [reflexivity|].
  simpl. now rewrite Ascii.eqb_refl, IH.
Qed.

Lemma int_of_str_of_nat (n : nat) :
  List.length (str_of_nat n) <= 4300 ->
  int_of_str (str_of_nat n) = Some (Z.of_nat n).
Proof.
  intros Hlen. destruct (str_of_nat_decimal n) as [Hne Hd].
  unfold int_of_str. cbv zeta.
  rewrite (strip_tight _ (decimal_tight _ Hne Hd)).
  destruct (str_of_nat n) as [|c r] eqn:E; [contradiction|].
  assert (Hc : isdecimal c = true).
  { simpl in Hd. now apply andb_true_iff in Hd. }
  destruct (decimal_facts c Hc) as (_ & _ & -> & ->). cbn [orb].
  assert (Hf : filter isdecimal (c :: r) = c :: r).
  { apply forallb_filter_id. exact Hd. }
  rewrite Hf.
  assert (Hl : (4300 <? List.length (c :: r)) = false)
    by (apply Nat.ltb_ge; exact Hlen).
  rewrite Hl, <- E, parse_digits_str_of_nat. reflexivity.
Qed.

(** X21.  [_run_pdfinfo] fails with [RuntimeError] when the command fails
    and when no line of its output begins with "pages" in any letter case.
    When the first such line is [Pages:], whitespace, and the decimal
    writing of [n], it returns [n]: reading back what [str(n)] writes gives
    [n] (for a count of at most 4300 digits). *)
Theorem run_pdfinfo_page_count
        (stdout : str) (pre post : list str) (ws : str) (n : nat) :
  splitlines stdout = pre ++ (lit "Pages:" ++ ws ++ str_of_nat n) :: post ->
  Forall (fun l => startswith (lit "pages") (lower l) = false) pre ->
  forallb isspace ws = true ->
  List.length (str_of_nat n) <= 4300 ->
  _run_pdfinfo (Some stdout) = Some (Z.of_nat n)
  /\ _run_pdfinfo None = None
  /\ (forall out,
         Forall (fun l => startswith (lit "pages") (lower l) = false)
                (splitlines out) ->
         _run_pdfinfo (Some out) = None).
Proof.
  intros Hlines Hpre Hws Hlen.
  assert (Hskip : forall ls rest,
             Forall (fun l => startswith (lit "pages") (lower l) = false) ls ->
             pdfinfo_lines (ls ++ rest) = pdfinfo_lines rest).
  { intros ls rest H. induction H as [|l ls Hl _ IH]; [reflexivity|].
    cbn [app pdfinfo_lines]. now rewrite Hl. }
  split; [|split; [reflexivity|]].
  - unfold _run_pdfinfo. rewrite Hlines, (Hskip _ _ Hpre).
    cbn [pdfinfo_lines].
    destruct (str_of_nat_decimal n) as [Hne Hd].
    assert (Hstart : startswith (lit "pages")
                       (lower (lit "Pages:" ++ ws ++ str_of_nat n)) = true).
    { unfold lower. rewrite map_app.
      change (map lower_char (lit "Pages:")) with (lit "pages" ++ lit ":").
      rewrite <- app_assoc. apply startswith_app. }
    rewrite Hstart.
    assert (Hparts : split_on ":"%char (lit "Pages:" ++ ws ++ str_of_nat n)
                     = [lit "Pages"; ws ++ str_of_nat n]).
    { unfold split_on.
      change (lit "Pages:" ++ ws ++ str_of_nat n)
        with ("P"%char :: "a"%char :: "g"%char :: "e"%char :: "s"%char
              :: ":"%char :: ws ++ str_of_nat n).
      cbn [split_on_aux Ascii.eqb Bool.eqb]. cbv iota.
      rewrite split_on_aux_absent; [reflexivity|].
      rewrite forallb_app. apply andb_true_iff. split.
      - apply forallb_forall. intros c Hc.
        rewrite forallb_forall in Hws. now rewrite (space_not_colon c (Hws c Hc)).
      - apply forallb_forall. intros c Hc.
        rewrite forallb_forall in Hd.
        destruct (decimal_facts c (Hd c Hc)) as (_ & -> & _). reflexivity. }
    rewrite Hparts. cbn [List.length Nat.ltb Nat.leb nth].
    assert (Hstrip : strip (ws ++ str_of_nat n) = str_of_nat n).
    { unfold strip. rewrite lstrip_spaces by exact Hws.
      apply (strip_tight _ (decimal_tight _ Hne Hd)). }
    rewrite Hstrip, int_of_str_of_nat by exact Hlen. reflexivity.
  - intros out H. unfold _run_pdfinfo.
    rewrite <- (app_nil_r (splitlines out)). now rewrite (Hskip _ _ H).
Qed.

Lemma run_pdfinfo_page_count_witness :
  _run_pdfinfo (Some (lit "Title: x" ++ nl ++ lit "Pages:           10" ++ nl
                      ++ lit "Encrypted: no"))
  = Some 10%Z.
Proof.
  apply (run_pdfinfo_page_count
           (lit "Title: x" ++ nl ++ lit "Pages:           10" ++ nl
            ++ lit "Encrypted: no")
           [lit "Title: x"] [lit "Encrypted: no"] (lit "           ") 10).
  - reflexivity.
  - repeat constructor.
  - reflexivity.
  - vm_compute. lia.
Defined.

(* ------------------------------------------------------------------ *)
(** * A page with a heading *)

Lemma line_loop_app {F : Type} {N : Num F}
      (page_num : nat) (l1 l2 : list str) :
  forall a,
    line_loop page_num a (l1 ++ l2)
    = (a1 <- line_loop page_num a l1 ;; line_loop page_num a1 l2).
Proof.
  induction l1 as [|l r IH]; intros a; [reflexivity|].
  cbn [app line_loop]. destruct (line_step page_num a l) as [a'|]; [|reflexivity].
  cbn [bind]. apply IH.
Qed.

Lemma text_chars_app (s1 s2 : list Section) :
  text_chars (s1 ++ s2) = text_chars s1 ++ text_chars s2.
Proof. unfold text_chars. apply flat_map_app. Qed.

Lemma text_chars_new_section (t : str) (lines : list str) (page_num : nat) :
  text_chars [new_section t lines page_num] = flat_map (filter nonspace) lines.
Proof.
  unfold text_chars, new_section. cbn [flat_map text get_str].
  rewrite app_nil_r, strip_filter. apply filter_nonspace_join.
Qed.

(** With a title open, the texts collected and the lines pending hold the
    body lines read, and nothing else. *)
Lemma line_loop_content {F : Type} {N : Num F}
      (page_num : nat) (lines : list str) :
  forall a a',
    line_loop page_num a lines = Some a' ->
    current_title a <> None ->
    text_chars (sections a') ++ flat_map (filter nonspace) (current_lines a')
    = text_chars (sections a) ++ flat_map (filter nonspace) (current_lines a)
      ++ flat_map (filter nonspace) (body_lines lines).
Proof.
  induction lines as [|l r IH]; intros a a' H Ht; cbn [line_loop] in H.
  - injection H as <-. cbn [body_lines filter flat_map]. now rewrite app_nil_r.
  - unfold line_step in H.
    destruct (_is_heading l) as [[]|] eqn:Eh; cbn [bind] in H; try discriminate.
    + destruct (current_title a) as [t|] eqn:Et; [|contradiction].
      apply IH in H; [|simpl; discriminate]. rewrite H.
      cbn [sections current_lines flat_map app].
      unfold body_lines. cbn [filter]. rewrite Eh. fold (body_lines r).
      rewrite text_chars_app, text_chars_new_section, <- app_assoc.
      reflexivity.
    + apply IH in H; [|exact Ht]. rewrite H.
      cbn [sections current_lines].
      unfold body_lines. cbn [filter]. rewrite Eh. fold (body_lines r).
      rewrite flat_map_app. cbn [flat_map]. rewrite app_nil_r, <- !app_assoc.
      reflexivity.
Qed.

Lemma parse_page_from_heading {F : Type} {N : Num F}
      (page_num : nat) (page_text : str) (pre : list str) (h : str)
      (rest : list str) :
  page_lines page_text = pre ++ h :: rest ->
  Forall (fun l => _is_heading l = Some false) pre ->
  _is_heading h = Some true ->
  exists a,
    line_loop page_num (mkAcc (Some h) [] []) rest = Some a
    /\ exists t, current_title a = Some t
       /\ sections_of_page (page_num, page_text)
          = if negb (null (current_lines a))
            then sections a ++ [new_section t (current_lines a) page_num]
            else sections a.
Proof.
  intros Hlines Hpre Hh.
  destruct (line_loop_total page_num rest (mkAcc (Some h) [] [])) as [a Ha].
  exists a. split; [exact Ha|].
  destruct (current_title a) as [t|] eqn:Et.
  - exists t. split; [reflexivity|].
    unfold sections_of_page, parse_page. cbn [fst snd]. cbv zeta.
    rewrite Hlines, line_loop_app.
    rewrite line_loop_no_heading
      by (intros l Hl; exact (proj1 (Forall_forall _ _) Hpre l Hl)).
    cbn [bind current_title current_lines sections app line_loop].
    unfold line_step. rewrite Hh. cbn [bind current_title sections].
    rewrite Ha. cbn [bind]. rewrite Et.
    destruct (negb (null (current_lines a))); reflexivity.
  - exfalso. apply (line_loop_title_stays _ _ _ _ Ha); [simpl; discriminate|].
    exact Et.
Qed.

(** X22.  On a page that has a heading, the lines before the first heading
    are in no section: the page gives the same sections as the page without
    them.  After the first heading nothing of the body is lost: the texts of
    the sections hold, in order, every non-whitespace character of the
    lines that are not headings. *)
Theorem preamble_dropped {F : Type} {N : Num F}
        (page_num : nat) (page_text page_text' : str)
        (pre : list str) (h : str) (rest : list str) :
  page_lines page_text = pre ++ h :: rest ->
  Forall (fun l => _is_heading l = Some false) pre ->
  _is_heading h = Some true ->
  page_lines page_text' = h :: rest ->
  sections_of_page (page_num, page_text)
  = sections_of_page (page_num, page_text')
  /\ text_chars (sections_of_page (page_num, page_text))
     = flat_map (filter nonspace) (body_lines rest).
Proof.
  intros Hlines Hpre Hh Hlines'.
  destruct (parse_page_from_heading page_num page_text pre h rest
                                    Hlines Hpre Hh) as (a & Ha & t & Et & E).
  destruct (parse_page_from_heading page_num page_text' [] h rest
                                    Hlines' (Forall_nil _) Hh)
    as (a' & Ha' & t' & Et' & E').
  rewrite Ha in Ha'. injection Ha' as <-.
  rewrite Et in Et'. injection Et' as <-.
  split; [now rewrite E, E'|].
  rewrite E.
  pose proof (line_loop_content page_num rest _ _ Ha) as Hc.
  cbn [current_title sections current_lines] in Hc.
  specialize (Hc ltac:(discriminate)).
  change (text_chars []) with (@nil ascii) in Hc.
  cbn [flat_map app] in Hc.
  destruct (null (current_lines a)) eqn:En; cbn [negb].
  - apply null_true in En. rewrite En in Hc. cbn [flat_map] in Hc.
    now rewrite app_nil_r in Hc.
  - now rewrite text_chars_app, text_chars_new_section.
Qed.

Lemma preamble_dropped_witness :
  @sections_of_page float _
    (1, lit "Preface text" ++ nl ++ lit "1. Introduction" ++ nl
        ++ lit "Some body text.")
  = @sections_of_page float _
      (1, lit "1. Introduction" ++ nl ++ lit "Some body text.").
Proof.
  apply (@preamble_dropped float _ 1
           (lit "Preface text" ++ nl ++ lit "1. Introduction" ++ nl
            ++ lit "Some body text.")
           (lit "1. Introduction" ++ nl ++ lit "Some body text.")
           [lit "Preface text"] (lit "1. Introduction")
           [lit "Some body text."]).
  - vm_compute. reflexivity.
  - repeat constructor.
  - vm_compute. reflexivity.
  - vm_compute. reflexivity.
Defined.

(* ------------------------------------------------------------------ *)
(** * Tokens *)

Lemma split_aux_chars (P : ascii -> bool) (s : str) :
  (forall c, In c s -> isspace c = false -> P c = true) ->
  forall cur,
    forallb P cur = true ->
    Forall (fun w => w <> [] /\ forallb P w = true) (split_aux cur s).
Proof.
  induction s as [|c r IH]; intros Hs cur Hcur; cbn [split_aux].
  - destruct cur as [|x cur']; [constructor|].
    constructor; [|constructor]. split.
    + intros E. apply (f_equal (@List.length ascii)) in E.
      rewrite length_rev in E. discriminate.
    + rewrite forallb_forall in Hcur |- *. intros y Hy. apply Hcur.
      now apply in_rev.
  - assert (Hr : forall c', In c' r -> isspace c' = false -> P c' = true)
      by (intros; apply Hs; [now right|assumption]).
    destruct (isspace c) eqn:Ec.
    + destruct cur as [|x cur']; [now apply IH|].
      constructor; [|now apply IH]. split.
      * intros E. apply (f_equal (@List.length ascii)) in E.
        rewrite length_rev in E. discriminate.
      * rewrite forallb_forall in Hcur |- *. intros y Hy. apply Hcur.
        now apply in_rev.
    + apply IH; [exact Hr|]. cbn [forallb]. rewrite Hcur, andb_true_r.
      apply Hs; [now left|exact Ec].
Qed.

Lemma split_aux_word (w s cur : str) :
  forallb nonspace w = true ->
  split_aux cur (w ++ s) = split_aux (rev w ++ cur) s.
Proof.
  revert cur. induction w as [|c w IH]; intros cur H; [reflexivity|].
  simpl in H. apply andb_true_iff in H. destruct H as [Hc Hw].
  unfold nonspace in Hc. apply negb_true_iff in Hc.
  cbn [app split_aux]. rewrite Hc, IH by exact Hw.
  cbn [rev]. now rewrite <- app_assoc.
Qed.

Lemma split_join_space (ws : list str) :
  Forall (fun w => w <> [] /\ forallb nonspace w = true) ws ->
  split (join space ws) = ws.
Proof.
  unfold split. induction 1 as [|w r [Hne Hw] Hr IH]; [reflexivity|].
  destruct r as [|u r'].
  - cbn [join]. pose proof (split_aux_word w [] [] Hw) as G.
    rewrite !app_nil_r in G. rewrite G. cbn [split_aux].
    destruct (rev w) eqn:E.
    + exfalso. apply Hne. rewrite <- (rev_involutive w), E. reflexivity.
    + rewrite <- E, rev_involutive. reflexivity.
  - change (join space (w :: u :: r'))
      with (w ++ " "%char :: join space (u :: r')).
    rewrite split_aux_word by exact Hw. rewrite app_nil_r.
    cbn [split_aux]. change (isspace " "%char) with true. cbv iota.
    destruct (rev w) eqn:E.
    + exfalso. apply Hne. rewrite <- (rev_involutive w), E. reflexivity.
    + rewrite <- E, rev_involutive, IH. reflexivity.
Qed.

Lemma clean_char_class (c : ascii) :
  isspace (keep_alnum_space (lower_char c)) = false ->
  is_az (keep_alnum_space (lower_char c))
  || isdecimal (keep_alnum_space (lower_char c)) = true.
Proof.
  destruct c as [[] [] [] [] [] [] [] []]; vm_compute; congruence.
Qed.

Lemma clean_char_fixed (c : ascii) :
  is_az c || isdecimal c || Ascii.eqb c " "%char = true ->
  keep_alnum_space (lower_char c) = c.
Proof.
  destruct c as [[] [] [] [] [] [] [] []]; vm_compute; congruence.
Qed.

Lemma lower_char_idem (c : ascii) : lower_char (lower_char c) = lower_char c.
Proof.
  destruct c as [[] [] [] [] [] [] [] []]; vm_compute; reflexivity.
Qed.

Lemma alnum_nonspace (c : ascii) :
  is_az c || isdecimal c = true -> nonspace c = true.
Proof.
  destruct c as [[] [] [] [] [] [] [] []]; vm_compute; congruence.
Qed.

(** X23.  Every token that [_tokenize] returns is non-empty and made of
    the lower-case letters [a-z] and the digits [0-9] only.  Tokenising is
    a projection: the tokens joined by spaces tokenise to themselves; and it
    ignores letter case: the lower-cased text gives the same tokens.  The
    words [_clean_text(t).split()] that the persona and actionability
    signals use are the same tokens. *)
Theorem tokenize_tokens (t : str) :
  Forall (fun w => w <> []
                   /\ forallb (fun c => is_az c || isdecimal c) w = true)
         (_tokenize t)
  /\ _tokenize (join space (_tokenize t)) = _tokenize t
  /\ _tokenize (lower t) = _tokenize t
  /\ split (_clean_text t) = _tokenize t.
Proof.
  assert (H1 : Forall (fun w => w <> []
                         /\ forallb (fun c => is_az c || isdecimal c) w = true)
                      (_tokenize t)).
  { unfold _tokenize, split. apply split_aux_chars; [|reflexivity].
    intros c Hc Hsp. unfold lower in Hc. rewrite map_map in Hc.
    apply in_map_iff in Hc. destruct Hc as (x & <- & _).
    now apply clean_char_class. }
  split; [exact H1|]. split; [|split; [|reflexivity]].
  - assert (Hfix : map keep_alnum_space (lower (join space (_tokenize t)))
                   = join space (_tokenize t)).
    { unfold lower. rewrite map_map.
      rewrite <- (map_id (join space (_tokenize t))) at 2.
      apply map_ext_in. intros c Hc. apply clean_char_fixed.
      revert Hc. generalize (_tokenize t) H1. clear.
      intros ws Hws. induction Hws as [|w r [_ Hw] _ IH]; [contradiction|].
      destruct r as [|u r'].
      - cbn [join]. intros Hc. rewrite forallb_forall in Hw.
        now rewrite (Hw c Hc).
      - change (join space (w :: u :: r'))
          with (w ++ " "%char :: join space (u :: r')).
        intros Hc. apply in_app_or in Hc. destruct Hc as [Hc|[<-|Hc]].
        + rewrite forallb_forall in Hw. now rewrite (Hw c Hc).
        + reflexivity.
        + now apply IH. }
    unfold _tokenize at 1. rewrite Hfix. apply split_join_space.
    eapply Forall_impl; [|exact H1]. intros w [Hne Hw]. split; [exact Hne|].
    rewrite forallb_forall in Hw |- *. intros c Hc.
    apply alnum_nonspace, Hw, Hc.
  - unfold _tokenize. do 2 f_equal. unfold lower. rewrite map_map.
    apply map_ext. intros c. apply lower_char_idem.
Qed.

(* ------------------------------------------------------------------ *)
(** * The similarity of a text to itself *)

Local Open Scope R_scope.

Lemma dotR_self (v : dict R) : NoDup (keys v) -> dotR v v = sqR v.
Proof.
  intros Hnd. unfold dotR, sqR, values. rewrite map_map. f_equal.
  apply map_ext_in. intros [k x] Hin. cbn [fst snd]. unfold getR, get_or.
  now rewrite (dict_get_NoDup_In v k x Hnd Hin).
Qed.

Lemma sqR_positive (v : dict R) :
  v <> [] -> (forall x, In x (values v) -> 0 < x) -> 0 < sqR v.
Proof.
  intros Hne Hpos. destruct v as [|[k x] r]; [contradiction|].
  assert (Hx : 0 < x) by (apply Hpos; now left).
  pose proof (sqR_nonneg r) as Hr.
  change (sqR ((k, x) :: r)) with (x * x + sqR r). nra.
Qed.

Lemma cosine_R_self (v : dict R) :
  NoDup (keys v) -> v <> [] -> (forall x, In x (values v) -> 0 < x) ->
  _cosine_similarity v v = Some 1.
Proof.
  intros Hnd Hne Hpos. rewrite (cosine_R v v Hnd Hnd). f_equal.
  apply null_false in Hne. rewrite Hne. cbn [orb].
  pose proof (sqR_positive v (proj1 (null_false v) Hne) Hpos) as Hs.
  pose proof (sqrt_lt_R0 _ Hs) as Hq.
  assert (E : Reqb (R_sqrt.sqrt (sqR v)) 0 = false) by (apply Reqb_false; lra).
  rewrite E. cbn [orb]. rewrite dotR_self by exact Hnd.
  rewrite sqrt_sqrt by lra. apply Rinv_r. lra.
Qed.

Lemma Counter_positive (words : list str) (w : str) (c : nat) :
  In (w, c) (Counter words) -> In w words /\ (1 <= c)%nat.
Proof.
  intros Hin. destruct (Counter_counts words) as (Hnd & Hk & Hc & _).
  assert (Hw : In w words).
  { apply Hk. unfold keys. apply in_map_iff. now exists (w, c). }
  split; [exact Hw|].
  pose proof (Hc w) as G. unfold get_or in G.
  rewrite (dict_get_NoDup_In _ _ _ Hnd Hin) in G. rewrite G.
  unfold occurrences. now apply count_occ_In.
Qed.

(** X24.  With the natural logarithm as [math.log], in exact arithmetic, a
    section whose text has the same tokens as the query, and at least one,
    gets the semantic similarity 1, the largest possible. *)
Theorem semantic_similarity_same_tokens (sections : list Section) (query : str) :
  exists sims : list R,
    compute_semantic_similarity ln sections query = Some sims
    /\ Forall2 (fun sec v =>
                  _tokenize (get_str (text sec)) = _tokenize query ->
                  _tokenize query <> [] -> v = 1)
               sections sims.
Proof.
  unfold compute_semantic_similarity. cbv zeta.
  rewrite compute_idf_R, compute_tf_R. cbn [bind].
  rewrite mapM_compose.
  set (docs := _tokenize query
               :: map (fun sec => _tokenize (get_str (text sec))) sections).
  set (idf := map (fun kv : str * nat =>
                     (fst kv, ln (INR (1 + List.length docs) / INR (1 + snd kv)) + 1))
                  (doc_counts docs)).
  set (qvec := _compute_tfidf_vector
                 (map (fun kv : str * nat =>
                         (fst kv, INR (snd kv) / INR (List.length (_tokenize query))))
                      (Counter (_tokenize query))) idf).
  assert (Hsome : forall a, exists b : R,
             (tf <- _compute_tf (_tokenize (get_str (text a))) ;;
              _cosine_similarity (_compute_tfidf_vector tf idf) qvec) = Some b).
  { intros a. rewrite compute_tf_R. cbn [bind].
    destruct (cosine_R_total
                (_compute_tfidf_vector
                   (map (fun kv : str * nat =>
                           (fst kv,
                            INR (snd kv)
                            / INR (List.length (_tokenize (get_str (text a))))))
                        (Counter (_tokenize (get_str (text a))))) idf) qvec)
      as [b Hb].
    now exists b. }
  apply mapM_spec. intros sec _. destruct (Hsome sec) as [b Hb].
  exists b. split; [exact Hb|]. intros Heq Hne.
  rewrite compute_tf_R in Hb. cbn [bind] in Hb. rewrite Heq in Hb.
  fold qvec in Hb.
  assert (Hnd : NoDup (keys qvec)).
  { unfold qvec, _compute_tfidf_vector, keys. rewrite !map_map. cbn [fst].
    exact (proj1 (Counter_counts (_tokenize query))). }
  assert (Hqne : qvec <> []).
  { unfold qvec, _compute_tfidf_vector. intros E.
    apply map_eq_nil, map_eq_nil in E.
    destruct (Counter_counts (_tokenize query)) as (_ & Hk & _).
    destruct (_tokenize query) as [|w ws] eqn:Et; [now apply Hne|].
    assert (Hin : In w (keys (Counter (w :: ws)))) by (apply Hk; now left).
    rewrite E in Hin. exact Hin. }
  assert (Hpos : forall x, In x (values qvec) -> 0 < x).
  { intros x Hx. unfold qvec, _compute_tfidf_vector, values in Hx.
    rewrite !map_map in Hx. cbn [fst snd] in Hx.
    apply in_map_iff in Hx. destruct Hx as ([w c] & <- & Hin). cbn [fst snd].
    destruct (Counter_positive _ _ _ Hin) as [Hw Hc].
    assert (Htf : 0 < INR c / INR (List.length (_tokenize query))).
    { apply Rdiv_lt_0_compat; apply lt_0_INR; [lia|].
      destruct (_tokenize query); [contradiction|simpl; lia]. }
    assert (Hidf : 1 <= get_or idf w fzero).
    { assert (Hkey : In w (keys (doc_counts docs))).
      { destruct (doc_counts_facts docs [] (NoDup_nil _)) as (_ & _ & G).
        apply G. right. exists (_tokenize query). split; [now left|exact Hw]. }
      apply dict_get_in_keys in Hkey. destruct Hkey as [n Hn].
      unfold get_or, idf.
      rewrite (dict_get_map (fun c : nat =>
                 ln (INR (1 + List.length docs) / INR (1 + c)) + 1)), Hn.
      destruct (doc_counts_frequency _ _ _ Hn) as [_ Hle].
      exact (idf_weight_ge_1 _ _ Hle). }
    change (@fmul R R_Num) with Rmult. nra. }
  rewrite (cosine_R_self qvec Hnd Hqne Hpos) in Hb. now injection Hb as <-.
Qed.

Local Close Scope R_scope.

(* ------------------------------------------------------------------ *)
(** * The segmenter in binary64 and in exact arithmetic *)

(** Up to 15 words, the quotient of two counts compares to the literal
    [0.6] in binary64 as the exact fractions compare. *)
Lemma ratio_binary64 (n c : nat) :
  1 <= n <= 15 -> c <= n ->
  @fleb float _ (dec 6 10) (fdiv (of_nat c) (of_nat n)) = (6 * n <=? 10 * c).
Proof.
  intros Hn Hc.
  assert (H : forallb (fun n =>
                forallb (fun c =>
                  Bool.eqb (@fleb float _ (dec 6 10) (fdiv (of_nat c) (of_nat n)))
                           (6 * n <=? 10 * c))
                  (seq 0 (S n)))
                (seq 1 15) = true) by (vm_compute; reflexivity).
  rewrite forallb_forall in H.
  specialize (H n ltac:(apply in_seq; lia)).
  rewrite forallb_forall in H.
  specialize (H c ltac:(apply in_seq; lia)).
  now apply Bool.eqb_prop in H.
Qed.

Local Open Scope R_scope.

Lemma ratio_exact (n c : nat) :
  (1 <= n)%nat ->
  @fleb R _ (dec 6 10) (fdiv (of_nat c) (of_nat n)) = (6 * n <=? 10 * c)%nat.
Proof.
  intros Hn. rewrite dec_R. change (@fleb R R_Num) with Rleb.
  change (@fdiv R R_Num) with Rdiv. change (@of_nat R R_Num) with INR.
  assert (Hpos : 0 < INR n) by (apply lt_0_INR; lia).
  assert (Heq : INR c = INR c / INR n * INR n) by (field; lra).
  assert (H6 : INR 6 = 6) by (simpl; lra).
  assert (H10 : INR 10 = 10) by (simpl; lra).
  rewrite H6, H10.
  unfold Rleb. destruct (Rle_dec (6 / 10) (INR c / INR n)) as [H|H];
    symmetry.
  - apply Nat.leb_le. apply INR_le. rewrite !mult_INR, H6, H10. nra.
  - apply Nat.leb_gt. apply INR_lt. rewrite !mult_INR, H6, H10. nra.
Qed.

Local Close Scope R_scope.

Lemma is_heading_agree (line : str) :
  @_is_heading float _ line = @_is_heading R _ line.
Proof.
  unfold _is_heading. cbv zeta.
  destruct (null (strip line)) eqn:E0; [reflexivity|].
  destruct (100 <? List.length (strip line)); [reflexivity|].
  destruct (15 <? List.length (split (strip line))) eqn:E2; [reflexivity|].
  destruct (match_prefix enum_re (strip line)); [reflexivity|].
  apply Nat.ltb_ge in E2.
  apply null_false, split_strip_nonempty in E0.
  assert (Hn : 1 <= List.length (split (strip line)) <= 15).
  { destruct (split (strip line)); [contradiction|simpl in *; lia]. }
  assert (Hc : List.length (filter cap_word (split (strip line)))
               <= List.length (split (strip line))) by apply filter_length_le.
  unfold int_div.
  destruct (List.length (split (strip line)) =? 0) eqn:Ez;
    [apply Nat.eqb_eq in Ez; lia|].
  cbn [bind]. rewrite (ratio_binary64 _ _ Hn Hc).
  rewrite (ratio_exact _ _ (proj1 Hn)). reflexivity.
Qed.

Lemma line_loop_agree (page_num : nat) (lines : list str) :
  forall a,
    @line_loop float _ page_num a lines = @line_loop R _ page_num a lines.
Proof.
  induction lines as [|l r IH]; intros a; [reflexivity|].
  cbn [line_loop]. unfold line_step. rewrite is_heading_agree.
  destruct (@_is_heading R _ l) as [[]|]; cbn [bind]; try reflexivity; apply IH.
Qed.

Lemma parse_page_agree (secs : list Section) (page_num : nat) (page_text : str) :
  @parse_page float _ secs page_num page_text
  = @parse_page R _ secs page_num page_text.
Proof. unfold parse_page. now rewrite line_loop_agree. Qed.

(** X25.  Segmentation does not depend on rounding: on every line
    [_is_heading] decides the same in binary64 as in exact arithmetic (a
    line has at most 15 words when the share of capitalised words is
    compared to 0.6, and on such quotients the two comparisons agree), and
    so [parse_pdf] runs the same commands and returns the same sections. *)
Theorem parse_pdf_binary64_exact (w : World) (filepath : str) :
  (forall line, @_is_heading float _ line = @_is_heading R _ line)
  /\ @parse_pdf float _ w filepath = @parse_pdf R _ w filepath.
Proof.
  split; [exact is_heading_agree|].
  unfold parse_pdf.
  destruct (negb (path_exists w filepath)
            || negb (endswith (lower filepath) (lit ".pdf"))); [reflexivity|].
  destruct (run_pdfinfo w filepath) as [num_pages|]; [|reflexivity].
  generalize (seq 1 num_pages) as pages. generalize [Pdfinfo filepath] as log.
  generalize (@nil Section) as secs.
  intros secs log pages. revert secs log.
  induction pages as [|p r IH]; intros secs log; [reflexivity|].
  cbn [page_loop].
  destruct (run_pdftotext w filepath p) as [page_text|]; [|apply IH].
  rewrite parse_page_agree.
  destruct (@parse_page R _ secs p page_text); [apply IH|reflexivity].
Qed.
